(** * RAG engine of the resume ATS analyser: a shallow embedding

    The development follows [backend/rag_engine.py]: the text primitives the
    engine relies on, the chunker, the section detector, brute-force and
    FAISS-backed retrieval, and the persistence of named index snapshots;
    and [backend/cleanup.py], the script that empties the upload and log
    directories.

    Conventions.
    - A Python [str] is a list of characters; a character is a code point
      in the range U+0000..U+00FF.
    - A Python [int] is a [Z]; [len] returns a [Z].
    - A Python [float], and a numpy [float64], is a binary64 number: a
      [spec_float] of the specification of IEEE 754 arithmetic in the
      Standard Library, with 53 bits of precision. Every operation rounds
      to nearest, ties to even; a division by zero gives an infinity or
      NaN, as numpy has it.
    - An exception is a value of [exn] carried by the [result] type. *)

From Stdlib Require Import ZArith Lia List Ascii String SpecFloat.
From stdpp Require Import gmap strings list sorting.

Local Open Scope Z_scope.

(** ** Python strings *)

Module PyStr.

Abbreviation str := (list ascii).

Definition nl : ascii := "010"%char.

(** Reader for literals: the two characters backslash-n stand for a
    line feed, as in the Python source. *)
Fixpoint lit (s : string) : str :=
  match s with
  | EmptyString => []
  | String c s' =>
      match c, s' with
      | "\"%char, String "n"%char s'' => nl :: lit s''
      | _, _ => c :: lit s'
      end
  end.

Definition len {A} (l : list A) : Z := Z.of_nat (length l).

(** [bool(s)] for a string. *)
Definition truthy (s : str) : bool :=
  match s with [] => false | _ :: _ => true end.

(** [bool(s)] for an optional string: [None] and the empty string are
    both false. *)
Definition truthy_opt (s : option str) : bool :=
  match s with
  | Some s => truthy s
  | None => false
  end.

(** [str.isspace] on one character (code points below 256). *)
Definition isspace (c : ascii) : bool :=
  let n := N_of_ascii c in
  ((9 <=? n) && (n <=? 13) || (28 <=? n) && (n <=? 32)
   || (n =? 133) || (n =? 160))%N.

(** [str.lower] on one character (code points below 256). *)
Definition lower_char (c : ascii) : ascii :=
  let n := N_of_ascii c in
  if ((65 <=? n) && (n <=? 90)
      || (192 <=? n) && (n <=? 222) && negb (n =? 215))%N
  then ascii_of_N (n + 32) else c.

Definition lower (s : str) : str := map lower_char s.

Fixpoint lstrip (s : str) : str :=
  match s with
  | c :: s' => if isspace c then lstrip s' else s
  | [] => []
  end.

Definition rstrip (s : str) : str := rev (lstrip (rev s)).

(** [s.strip()] *)
Definition strip (s : str) : str := rstrip (lstrip s).

Fixpoint startswith (p s : str) : bool :=
  match p, s with
  | [], _ => true
  | a :: p', b :: s' => if decide (a = b) then startswith p' s' else false
  | _ :: _, [] => false
  end.

(** [needle in hay] *)
Fixpoint contains (needle hay : str) : bool :=
  startswith needle hay
  || match hay with
     | [] => false
     | _ :: hay' => contains needle hay'
     end.

(** [s.split(sep)] for a non-empty separator: the pieces between the
    non-overlapping occurrences of [sep], found from left to right.
    [skip] counts the characters of a matched separator still to pass,
    [cur] is the piece being read. *)
Fixpoint split_go (sep : str) (skip : nat) (cur : str) (s : str) : list str :=
  match s with
  | [] => [cur]
  | c :: s' =>
      match skip with
      | S k => split_go sep k cur s'
      | O =>
          if startswith sep s
          then cur :: split_go sep (pred (length sep)) [] s'
          else split_go sep O (cur ++ [c]) s'
      end
  end.

Definition split (sep : str) (s : str) : list str := split_go sep O [] s.

(** [s.split()]: the maximal runs of non-whitespace characters. *)
Fixpoint words_go (cur : str) (s : str) : list str :=
  match s with
  | [] => if truthy cur then [cur] else []
  | c :: s' =>
      if isspace c
      then (if truthy cur then [cur] else []) ++ words_go [] s'
      else words_go (cur ++ [c]) s'
  end.

Definition split_ws (s : str) : list str := words_go [] s.

(** A string that begins with a character other than whitespace. *)
Definition starts_visible (s : str) : bool :=
  match s with
  | a :: _ => negb (isspace a)
  | [] => false
  end.

(** [sep.join(parts)] *)
Fixpoint join (sep : str) (parts : list str) : str :=
  match parts with
  | [] => []
  | [p] => p
  | p :: ps => p ++ sep ++ join sep ps
  end.

End PyStr.

Import PyStr.

(** A Python float. *)
Abbreviation float := spec_float.

(** ** Chunks *)

(** The [Chunk] dataclass; [embedding] is [None] until the chunk is
    embedded. *)
Record Chunk := mkChunk {
  text : str;
  source : str;
  section : str;
  embedding : option (list float)
}.

(** ** The chunker *)

Module Chunker.

Definition para_sep : str := [nl; nl].

(** Closing the running buffer: it becomes a chunk unless it is blank. *)
Definition flush (source section : str) (chunks : list Chunk)
    (current_chunk : str) : list Chunk :=
  if truthy (strip current_chunk)
  then chunks ++ [mkChunk (strip current_chunk) source section None]
  else chunks.

(** One iteration of the loop over the paragraphs; the state is the pair
    of [chunks] and [current_chunk]. *)
Definition step (source section : str) (chunk_size : Z)
    (st : list Chunk * str) (para : str) : list Chunk * str :=
  let '(chunks, current_chunk) := st in
  if len current_chunk + len para <? chunk_size
  then (chunks, current_chunk ++ para ++ para_sep)
  else (flush source section chunks current_chunk, para ++ para_sep).

Definition chunk_text (text : str) (source section : str)
    (chunk_size : Z) : list Chunk :=
  let paragraphs := split para_sep text in
  let '(chunks, current_chunk) :=
    fold_left (step source section chunk_size) paragraphs ([], []) in
  flush source section chunks current_chunk.

(** The default of [chunk_size]. *)
Definition default_chunk_size : Z := 500.

(** A string of whitespace only. *)
Definition blank (s : str) : Prop := Forall (fun c => isspace c = true) s.

(** [interleaved ts s]: the string [s] is the texts [ts], in this order,
    with a blank string before, between and after them. *)
Inductive interleaved : list str -> str -> Prop :=
| interleaved_nil w : blank w -> interleaved [] w
| interleaved_cons w t ts rest :
    blank w -> interleaved ts rest -> interleaved (t :: ts) (w ++ t ++ rest).

(** The characters of a string that are not whitespace. *)
Definition visible (s : str) : str :=
  List.filter (fun c => negb (isspace c)) s.

End Chunker.

(** ** The section detector *)

Module Sections.

(** The keyword table, in the order of the dictionary literal. *)
Definition section_keywords : list (str * list str) :=
  [ (lit "summary",
      [lit "summary"; lit "objective"; lit "profile"; lit "about"]);
    (lit "experience",
      [lit "experience"; lit "work history"; lit "employment";
       lit "professional experience"]);
    (lit "education", [lit "education"; lit "academic"; lit "degree"]);
    (lit "skills",
      [lit "skills"; lit "technical skills"; lit "competencies";
       lit "expertise"]);
    (lit "projects", [lit "projects"; lit "portfolio"]);
    (lit "certifications",
      [lit "certifications"; lit "certificates"; lit "licenses"]) ].

(** A Python [dict] with string keys, in insertion order;
    [dict_set k v d] is [d[k] = v]. *)
Fixpoint dict_set (k v : str) (d : list (str * str)) : list (str * str) :=
  match d with
  | [] => [(k, v)]
  | (k', v') :: d' =>
      if decide (k = k') then (k, v) :: d' else (k', v') :: dict_set k v d'
  end.

(** The test of the inner loop for one row of the table:
    [any(keyword in line_lower for keyword in keywords)
     and len(line.split()) < 5]. *)
Definition header_for (line : str) (keywords : list str) : bool :=
  existsb (fun keyword => contains keyword (strip (lower line))) keywords
  && (len (split_ws line) <? 5).

(** The inner loop: the first row that matches, if any. *)
Definition match_section (line : str) : option str :=
  fst <$> find (fun row => header_for line (snd row)) section_keywords.

Record state := mkState {
  sections : list (str * str);
  current_section : str;
  current_text : list str
}.

(** [if current_text: sections[current_section] = '\n'.join(current_text)] *)
Definition save (st : state) : list (str * str) :=
  match current_text st with
  | [] => sections st
  | _ :: _ =>
      dict_set (current_section st) (join [nl] (current_text st))
        (sections st)
  end.

Definition step (st : state) (line : str) : state :=
  match match_section line with
  | Some section_name => mkState (save st) section_name []
  | None =>
      if truthy (strip line)
      then mkState (sections st) (current_section st)
             (current_text st ++ [line])
      else st
  end.

Definition _detect_sections (text : str) : list (str * str) :=
  let lines := split [nl] text in
  save (fold_left step lines (mkState [] (lit "summary") [])).

End Sections.

(** ** Exceptions *)

Inductive exn :=
| ValueError      (* numpy: shapes not aligned, ragged array *)
| IndexError      (* list index out of range *)
| AssertionError  (* FAISS: wrong dimension *)
| OSError         (* a file operation refused by the system *)
| RuntimeError    (* FAISS: not an index file *)
| UnpicklingError (* pickle: not a pickle *)
| ProviderError.  (* the embedding or the chat request failed *)

Inductive result (A : Type) :=
| Ok (a : A)
| Raise (e : exn).
Arguments Ok {A} a.
Arguments Raise {A} e.

(** Sequencing: an exception ends the computation. [x ← m; k] runs [m]
    and then [k] on its value. *)
#[export] Instance result_bind : MBind result :=
  fun A B (f : A -> result B) (m : result A) =>
    match m with
    | Ok a => f a
    | Raise e => Raise e
    end.

#[export] Instance result_ret : MRet result := fun A a => Ok a.

Definition is_ok {A} (m : result A) : bool :=
  match m with Ok _ => true | Raise _ => false end.

(** ** Floats and cosine similarity *)

Module Cosine.

(** Binary64: 53 bits of precision, exponents below 1024. The
    operations are those of the specification of IEEE 754 arithmetic;
    each rounds to nearest, ties to even, and none raises: a division
    by zero gives an infinity, or NaN for [0 / 0]. *)
Definition prec : Z := 53.
Definition emax : Z := 1024.

Definition fadd : float -> float -> float := SFadd prec emax.
Definition fmul : float -> float -> float := SFmul prec emax.
Definition fdiv : float -> float -> float := SFdiv prec emax.
Definition fsqrt : float -> float := SFsqrt prec emax.

(** [a < b] on floats; every comparison with NaN is false. *)
Definition flt : float -> float -> bool := SFltb.

(** [a == b] on floats: equal as numbers, so the two zeros are equal and
    NaN is equal to nothing. *)
Definition feq : float -> float -> bool := SFeqb.

(** [float(n)] for an integer [n]. *)
Definition of_int (n : Z) : float := binary_normalize prec emax n 0 false.

Definition is_zero (x : float) : bool :=
  match x with S754_zero _ => true | _ => false end.

Definition is_nan (x : float) : bool :=
  match x with S754_nan => true | _ => false end.

(** A zero or NaN. *)
Definition null (x : float) : bool := is_zero x || is_nan x.

(** [np.dot] on two one-dimensional arrays of one length: the products
    are added one after the other to a sum that starts at zero. (On long
    arrays a BLAS kernel may add the products in blocks, which can change
    the last bit of the sum.) *)
Fixpoint dot_from (acc : float) (v1 v2 : list float) : float :=
  match v1, v2 with
  | x :: v1', y :: v2' => dot_from (fadd acc (fmul x y)) v1' v2'
  | _, _ => acc
  end.

Definition dot (v1 v2 : list float) : float :=
  dot_from (S754_zero false) v1 v2.

(** [np.linalg.norm] on a one-dimensional array: the square root of the
    dot product of the array with itself. *)
Definition norm (v : list float) : float := fsqrt (dot v v).

(** The divisor of [cosine_similarity]. *)
Definition denominator (vec1 vec2 : list float) : float :=
  fmul (norm vec1) (norm vec2).

Definition cosine_similarity (vec1 vec2 : list float) : result float :=
  if decide (length vec1 = length vec2)
  then Ok (fdiv (dot vec1 vec2) (denominator vec1 vec2))
  else Raise ValueError.

(** A vector with a component other than zero. *)
Definition nonzero (v : list float) : Prop :=
  Exists (fun x => is_zero x = false) v.

(** The place of a float that is not NaN in the order of the numbers:
    the sign class, then the exponent, then the mantissa. *)
Definition rank (x : float) : Z * Z * Z :=
  match x with
  | S754_nan => (0, 0, 0)
  | S754_infinity true => (-2, 0, 0)
  | S754_infinity false => (2, 0, 0)
  | S754_zero _ => (0, 0, 0)
  | S754_finite true m e => (-1, - e, - Z.pos m)
  | S754_finite false m e => (1, e, Z.pos m)
  end.

Definition lex_lt (a b : Z * Z * Z) : Prop :=
  let '(a1, a2, a3) := a in
  let '(b1, b2, b3) := b in
  a1 < b1 \/ (a1 = b1 /\ (a2 < b2 \/ (a2 = b2 /\ a3 < b3))).

End Cosine.

(** ** Sorting and slicing of Python lists *)

Module PyList.

Section Sort.
Context {A K : Type} (key : A -> K) (lt : K -> K -> bool).

(** [x] enters an ascending list before the first element that is not
    smaller than it. *)
Fixpoint insert_sorted (x : A) (l : list A) : list A :=
  match l with
  | [] => [x]
  | y :: l' =>
      if lt (key y) (key x) then y :: insert_sorted x l' else x :: y :: l'
  end.

(** A stable ascending sort. *)
Definition sort_asc (l : list A) : list A := foldr insert_sorted [] l.

(** [l.sort(key=key, reverse=reverse)]: with [reverse] the list is
    reversed, sorted ascending and reversed again, which keeps equal
    keys in their original order. *)
Definition sort (reverse : bool) (l : list A) : list A :=
  if reverse then rev (sort_asc (rev l)) else sort_asc l.
End Sort.

(** [l[:k]] *)
Definition slice_to {A} (k : Z) (l : list A) : list A :=
  if 0 <=? k then take (Z.to_nat k) l else take (Z.to_nat (len l + k)) l.

(** [l[i]] *)
Definition index {A} (l : list A) (i : Z) : result A :=
  let j := if 0 <=? i then i else len l + i in
  if 0 <=? j
  then match l !! Z.to_nat j with Some x => Ok x | None => Raise IndexError end
  else Raise IndexError.

End PyList.

(** ** External collaborators *)

(** The services the engine calls and does not implement: the embedding
    endpoint, numpy's rounding to single precision, the nearest-neighbour
    search of a flat L2 index, and the chat completion that turns a
    context into a JSON verdict. *)
Class Collaborators := {
  get_embedding : str -> result (list float);
  float32 : float -> float;
  faiss_search : list (list float) -> list float -> Z -> result (list Z);
  json : Type;
  _generate_analysis : str -> bool -> result json
}.

(** A stand-in for the collaborators, for examples: every text is embedded
    as [v], nothing is rounded, the search finds nothing and the verdict is
    empty. *)
Definition constant_collaborators (v : list float) : Collaborators := {|
  get_embedding _ := Ok v;
  float32 r := r;
  faiss_search _ _ _ := Ok [];
  json := unit;
  _generate_analysis _ _ := Ok tt
|}.

(** ** The engine and its environment *)

(** A flat L2 index: its dimension and the vectors added so far; the
    identifier of a vector is its position. *)
Record faiss_ix := mkIx {
  ix_d : nat;
  ix_vectors : list (list float)
}.

Definition ntotal (ix : faiss_ix) : Z := len (ix_vectors ix).

(** The state of a [RAGEngine] object. *)
Record engine := mkEngine {
  chunks : list Chunk;
  index_dir : str;
  faiss_index : option faiss_ix;
  index_to_chunk_map : gmap Z Z
}.

Definition embedding_dim : nat := 1536.

(** A vector of the pinned dimension, for examples: 1.0, then zeros. *)
Definition unit_embedding : list float :=
  Cosine.of_int 1 :: repeat (S754_zero false) (pred embedding_dim).

(** The number of vectors in the FAISS index of the engine, zero without
    an index. *)
Definition stored (e : engine) : Z :=
  match faiss_index e with
  | Some ix => ntotal ix
  | None => 0
  end.

Definition set_chunks (cs : list Chunk) (e : engine) : engine :=
  mkEngine cs (index_dir e) (faiss_index e) (index_to_chunk_map e).
Definition set_faiss_index (ix : option faiss_ix) (e : engine) : engine :=
  mkEngine (chunks e) (index_dir e) ix (index_to_chunk_map e).
Definition set_index_to_chunk_map (m : gmap Z Z) (e : engine) : engine :=
  mkEngine (chunks e) (index_dir e) (faiss_index e) m.

(** The dictionary pickled next to an index; a key may be missing from a
    file written by other means. *)
Record metadata := mkMetadata {
  md_chunks : option (list Chunk);
  md_index_to_chunk_map : option (gmap Z Z);
  md_created_at : option str;
  md_num_chunks : option Z
}.

Inductive file :=
| FaissFile (ix : faiss_ix)     (* written by [faiss.write_index] *)
| PickleFile (md : metadata)    (* written by [pickle.dump] *)
| OtherFile (bytes : str)       (* anything else *)
| Directory.

(** The file system and the clock. [write_denied] and [remove_denied] tell
    for which paths the operating system refuses the operation. A file is
    known by its path as it is written: the model has no links and does
    not resolve [.], [..] or repeated slashes, so two spellings of one
    file would be two keys. The engine builds its paths from the directory
    and the name of a snapshot; what is proved relates a path with
    itself, the two paths of one name, or the paths of names without a
    slash. *)
Record world := mkWorld {
  files : gmap str file;
  write_denied : str -> bool;
  remove_denied : str -> bool;
  now_isoformat : str;
  now_compact : str
}.

Definition set_files (fs : gmap str file) (w : world) : world :=
  mkWorld fs (write_denied w) (remove_denied w) (now_isoformat w)
    (now_compact w).

Module OS.

(** [os.path.exists] *)
Definition exists_ (w : world) (path : str) : bool :=
  bool_decide (is_Some (files w !! path)).

(** [os.path.join] with two arguments (POSIX). *)
Definition join (a b : str) : str :=
  if startswith (lit "/") b then b
  else match rev a with
       | [] => b
       | c :: _ => if decide (c = "/"%char) then a ++ b
                   else a ++ lit "/" ++ b
       end.

(** Creating or replacing the file at [path]. *)
Definition write (w : world) (path : str) (f : file) : result world :=
  if write_denied w path then Raise OSError
  else match files w !! path with
       | Some Directory => Raise OSError
       | _ => Ok (set_files (<[path := f]> (files w)) w)
       end.

(** The system lets [path] be created or replaced. *)
Definition writable (w : world) (path : str) : Prop :=
  write_denied w path = false /\ files w !! path <> Some Directory.

(** [os.remove] *)
Definition remove (w : world) (path : str) : result world :=
  if remove_denied w path then Raise OSError
  else match files w !! path with
       | Some Directory | None => Raise OSError
       | Some _ => Ok (set_files (delete path (files w)) w)
       end.

(** [faiss.read_index] *)
Definition read_index (w : world) (path : str) : result faiss_ix :=
  match files w !! path with
  | Some (FaissFile ix) => Ok ix
  | Some _ => Raise RuntimeError
  | None => Raise OSError
  end.

(** [pickle.load] on the file at [path]. *)
Definition pickle_load (w : world) (path : str) : result metadata :=
  match files w !! path with
  | Some (PickleFile md) => Ok md
  | Some Directory | None => Raise OSError
  | Some _ => Raise UnpicklingError
  end.

End OS.

(** ** Persistence of named snapshots *)

Module Persistence.

Definition _get_index_path (e : engine) (index_name : str) : str * str :=
  (OS.join (index_dir e) (index_name ++ lit ".faiss"),
   OS.join (index_dir e) (index_name ++ lit "_metadata.pkl")).

(** [_load_index]. The body of the [try] assigns [self.faiss_index],
    then [self.chunks], then [self.index_to_chunk_map]; whatever is
    raised in between is caught and turned into [False], with the
    assignments made so far kept. *)
Definition _load_index (e : engine) (w : world) (index_name : str)
    : bool * engine :=
  let '(faiss_path, metadata_path) := _get_index_path e index_name in
  if OS.exists_ w faiss_path && OS.exists_ w metadata_path then
    match OS.read_index w faiss_path with
    | Raise _ => (false, e)
    | Ok ix =>
        let e1 := set_faiss_index (Some ix) e in
        match OS.pickle_load w metadata_path with
        | Raise _ => (false, e1)
        | Ok md =>
            match md_chunks md with
            | None => (false, e1)
            | Some cs =>
                let e2 := set_chunks cs e1 in
                match md_index_to_chunk_map md with
                | None => (false, e2)
                | Some m => (true, set_index_to_chunk_map m e2)
                end
            end
        end
    end
  else (false, e).

(** [_save_index]. Nothing is written without an index or without
    chunks. An exception of either write is caught (and printed): the
    files written before it stay. *)
Definition _save_index (e : engine) (w : world) (index_name : str) : world :=
  match faiss_index e with
  | None => w
  | Some ix =>
      if len (chunks e) =? 0 then w
      else
        let '(faiss_path, metadata_path) := _get_index_path e index_name in
        match OS.write w faiss_path (FaissFile ix) with
        | Raise _ => w
        | Ok w1 =>
            let md :=
              mkMetadata (Some (chunks e)) (Some (index_to_chunk_map e))
                (Some (now_isoformat w1)) (Some (len (chunks e))) in
            match OS.write w1 metadata_path (PickleFile md) with
            | Raise _ => w1
            | Ok w2 => w2
            end
        end
  end.

(** [delete_index]: the value returned and the file system left. *)
Definition delete_index (e : engine) (w : world) (index_name : str)
    : bool * world :=
  let '(faiss_path, metadata_path) := _get_index_path e index_name in
  match (if OS.exists_ w faiss_path then OS.remove w faiss_path else Ok w)
  with
  | Raise _ => (false, w)
  | Ok w1 =>
      match (if OS.exists_ w1 metadata_path
             then OS.remove w1 metadata_path else Ok w1)
      with
      | Raise _ => (false, w1)
      | Ok w2 => (true, w2)
      end
  end.

End Persistence.

(** ** Retrieval *)

Module Retrieval.
Import Cosine PyList.

Section WithCollaborators.
Context {C : Collaborators}.

(** The loop that fills [similarities]: a chunk whose embedding is
    [None] or empty is passed over. *)
Fixpoint score_chunks (query_embedding : list float)
    (filtered_chunks : list Chunk) : result (list (Chunk * float)) :=
  match filtered_chunks with
  | [] => Ok []
  | chunk :: rest =>
      match embedding chunk with
      | Some (x :: v) =>
          sim ← cosine_similarity query_embedding (x :: v);
          similarities ← score_chunks query_embedding rest;
          Ok ((chunk, sim) :: similarities)
      | _ => score_chunks query_embedding rest
      end
  end.

(** [if source_filter:] holds for a filter that is a non-empty string;
    only then are the chunks filtered. *)
Definition filter_by_source (source_filter : option str)
    (cs : list Chunk) : list Chunk :=
  if truthy_opt source_filter
  then filter (fun c => Some (source c) = source_filter) cs
  else cs.

Definition retrieve_relevant_chunks (e : engine) (query : str)
    (top_k : Z) (source_filter : option str) : result (list Chunk) :=
  query_embedding ← get_embedding query;
  let filtered_chunks := filter_by_source source_filter (chunks e) in
  similarities ← score_chunks query_embedding filtered_chunks;
  Ok (map fst (slice_to top_k (sort snd flt true similarities))).

(** The similarity of a chunk to the query, as the loop computes it. *)
Definition similarity (query_embedding : list float) (c : Chunk) : float :=
  match embedding c with
  | Some v => fdiv (dot query_embedding v) (denominator query_embedding v)
  | None => S754_nan
  end.

(** The chunks whose similarity to the query is the number [r]. *)
Definition with_similarity (query_embedding : list float) (r : float)
    (cs : list Chunk) : list Chunk :=
  List.filter (fun c => feq (similarity query_embedding c) r) cs.

(** The loop over the identifiers a FAISS search returned. *)
Fixpoint collect (e : engine) (top_k : Z) (source_filter : option str)
    (indices : list Z) (relevant_chunks : list Chunk)
    : result (list Chunk) :=
  match indices with
  | [] => Ok relevant_chunks
  | idx :: rest =>
      if idx =? -1 then collect e top_k source_filter rest relevant_chunks
      else
        match index_to_chunk_map e !! idx with
        | Some chunk_idx =>
            if chunk_idx <? len (chunks e) then
              chunk ← index (chunks e) chunk_idx;
              let relevant_chunks' :=
                match source_filter with
                | None => relevant_chunks ++ [chunk]
                | Some s =>
                    if decide (source chunk = s)
                    then relevant_chunks ++ [chunk]
                    else relevant_chunks
                end in
              if top_k <=? len relevant_chunks' then Ok relevant_chunks'
              else collect e top_k source_filter rest relevant_chunks'
            else collect e top_k source_filter rest relevant_chunks
        | None => collect e top_k source_filter rest relevant_chunks
        end
  end.

Definition retrieve_relevant_chunks_faiss (e : engine) (query : str)
    (top_k : Z) (source_filter : option str) : result (list Chunk) :=
  match faiss_index e with
  | None => retrieve_relevant_chunks e query top_k source_filter
  | Some ix =>
      if ntotal ix =? 0
      then retrieve_relevant_chunks e query top_k source_filter
      else
        query_embedding ← get_embedding query;
        let query_vector := map float32 query_embedding in
        indices ← faiss_search (ix_vectors ix) query_vector
                    (Z.min (top_k * 2) (ntotal ix));
        collect e top_k source_filter indices []
  end.

End WithCollaborators.
End Retrieval.

(** ** Indexing *)

Module Indexing.
Import Persistence Retrieval.

(** The rule table of [_load_ats_rules]: category, rules, weight. *)
Definition ats_rules : list (str * list str * Z) :=
  [ (lit "Keyword Optimization",
     [lit "Resume should contain 70%+ of job description keywords";
      lit "Keywords should appear in context, not just listed";
      lit "Use exact keyword matches from job description";
      lit "Include industry-specific terminology"], 30);
    (lit "Formatting",
     [lit "Use standard section headers (Experience, Education, Skills)";
      lit "Avoid tables, text boxes, headers/footers";
      lit "Use simple bullet points";
      lit "Consistent date formatting";
      lit "No images or graphics"], 20);
    (lit "Content Quality",
     [lit "Quantify achievements with metrics";
      lit "Use action verbs to start bullet points";
      lit "Show impact and results";
      lit "Relevant experience highlighted";
      lit "No spelling or grammar errors"], 25);
    (lit "Experience Relevance",
     [lit "Recent experience matches job requirements";
      lit "Progressive career growth shown";
      lit "Relevant projects and achievements";
      lit "Industry experience alignment"], 15);
    (lit "Skills Match",
     [lit "Technical skills match job requirements";
      lit "Certifications relevant to role";
      lit "Tools and technologies listed";
      lit "Soft skills demonstrated through achievements"], 10) ].

(** A loop whose body may raise. *)
Fixpoint foldM {A S} (f : S -> A -> result S) (l : list A) (s : S)
    : result S :=
  match l with
  | [] => Ok s
  | a :: l' => s' ← f s a; foldM f l' s'
  end.

Definition clear_index (e : engine) : engine :=
  mkEngine [] (index_dir e) None ∅.

Definition _initialize_faiss_index (e : engine) : engine :=
  set_faiss_index (Some (mkIx embedding_dim [])) e.

Section WithCollaborators.
Context {C : Collaborators}.

Definition with_embedding (chunk : Chunk) (v : list float) : Chunk :=
  mkChunk (text chunk) (source chunk) (section chunk) (Some v).

(** [embed_chunks] *)
Fixpoint embed_chunks (cs : list Chunk) : result (list Chunk) :=
  match cs with
  | [] => Ok []
  | chunk :: rest =>
      v ← get_embedding (text chunk);
      rest' ← embed_chunks rest;
      Ok (with_embedding chunk v :: rest')
  end.

(** [np.array(rows, dtype=np.float32)] for a non-empty list of rows:
    the row length and the rounded rows; rows of different lengths
    are refused. *)
Definition np_array (rows : list (list float)) : result (nat * list (list float)) :=
  match rows with
  | [] => Ok (O, [])
  | r :: _ =>
      if forallb (fun r' => Nat.eqb (length r') (length r)) rows
      then Ok (length r, map (map float32) rows)
      else Raise ValueError
  end.

(** [index.add]: the rows must have the dimension of the index. *)
Definition faiss_add (ix : faiss_ix) (embeddings : nat * list (list float))
    : result faiss_ix :=
  if Nat.eqb (fst embeddings) (ix_d ix)
  then Ok (mkIx (ix_d ix) (ix_vectors ix ++ snd embeddings))
  else Raise AssertionError.

(** The loop [for i, chunk_idx in enumerate(chunk_indices)] of
    [_add_to_faiss_index]. *)
Fixpoint update_mapping (start_idx : Z) (chunk_indices : list Z)
    (m : gmap Z Z) : gmap Z Z :=
  match chunk_indices with
  | [] => m
  | chunk_idx :: rest =>
      update_mapping (start_idx + 1) rest (<[start_idx := chunk_idx]> m)
  end.

Definition _add_to_faiss_index (e : engine)
    (embeddings : nat * list (list float)) (chunk_indices : list Z)
    : result engine :=
  let e1 := match faiss_index e with
            | None => _initialize_faiss_index e
            | Some _ => e
            end in
  match faiss_index e1 with
  | None => Ok e1
  | Some ix =>
      let start_idx := ntotal ix in
      ix' ← faiss_add ix embeddings;
      Ok (set_index_to_chunk_map
            (update_mapping start_idx chunk_indices (index_to_chunk_map e1))
            (set_faiss_index (Some ix') e1))
  end.

(** The body of the loop over the chunks of one text, in both
    [..._with_faiss] functions; the state is the engine with
    [all_embeddings] and [chunk_indices]. *)
Definition embed_and_append (st : engine * list (list float) * list Z)
    (chunk : Chunk) : result (engine * list (list float) * list Z) :=
  let '(e, all_embeddings, chunk_indices) := st in
  v ← get_embedding (text chunk);
  let e' := set_chunks (chunks e ++ [with_embedding chunk v]) e in
  Ok (e', all_embeddings ++ [v], chunk_indices ++ [len (chunks e') - 1]).

(** The positions [start], [start + 1], ... of [n] chunks appended
    to a collection of [start] chunks. *)
Definition consecutive (start : Z) (n : nat) : list Z :=
  map (fun i => start + Z.of_nat i) (seq 0 n).

(** [appended s st st1]: from the loop state [st] to [st1] chunks of
    source [s] were appended to the collection, with one embedding and
    one position each, and nothing else of the engine changed. *)
Definition appended (s : str) (st st1 : engine * list (list float) * list Z)
    : Prop :=
  let '(e, all_embeddings, chunk_indices) := st in
  let '(e1, all_embeddings1, chunk_indices1) := st1 in
  exists cs vs,
    chunks e1 = chunks e ++ cs
    /\ Forall (fun c => source c = s) cs
    /\ index_dir e1 = index_dir e
    /\ faiss_index e1 = faiss_index e
    /\ index_to_chunk_map e1 = index_to_chunk_map e
    /\ all_embeddings1 = all_embeddings ++ vs
    /\ length vs = length cs
    /\ chunk_indices1
       = chunk_indices ++ consecutive (len (chunks e)) (length cs).

(** The state the FAISS indexing keeps: as many vectors as chunks, the
    vector [i] mapped to the chunk [i], and every chunk from the
    resume or from the job description. *)
Definition aligned (e : engine) : Prop :=
  stored e = len (chunks e)
  /\ (forall i, index_to_chunk_map e !! i
                = if decide (0 <= i < len (chunks e)) then Some i else None)
  /\ Forall (fun c => source c = lit "resume"
                      \/ source c = lit "job_description") (chunks e).

(** The tail shared by both functions: batch insertion, then the
    optional save. *)
Definition add_and_save (e : engine) (w : world)
    (all_embeddings : list (list float)) (chunk_indices : list Z)
    (save : bool) (index_name : str) : result (engine * world) :=
  e' ← match all_embeddings with
       | [] => Ok e
       | _ :: _ =>
           embeddings_array ← np_array all_embeddings;
           _add_to_faiss_index e embeddings_array chunk_indices
       end;
  Ok (e', if save then _save_index e' w index_name else w).

Definition index_resume_with_faiss (e : engine) (w : world)
    (resume_text : str) (save : bool) (index_name : str)
    : result (engine * world) :=
  let e0 := clear_index e in
  let sections := Sections._detect_sections resume_text in
  '(e1, all_embeddings, chunk_indices) ←
    foldM (fun st '(section_name, section_text) =>
             foldM embed_and_append
               (Chunker.chunk_text section_text (lit "resume")
                  section_name Chunker.default_chunk_size) st)
      sections (e0, [], []);
  add_and_save e1 w all_embeddings chunk_indices save index_name.

Definition index_job_description_with_faiss (e : engine) (w : world)
    (jd_text : str) (save : bool) (index_name : str)
    : result (engine * world) :=
  let chunks := Chunker.chunk_text jd_text (lit "job_description")
                  (lit "requirements") Chunker.default_chunk_size in
  '(e1, all_embeddings, chunk_indices) ←
    foldM embed_and_append chunks (e, [], []);
  add_and_save e1 w all_embeddings chunk_indices save index_name.

Definition index_ats_rules (e : engine) : result engine :=
  foldM (fun e' '(category, rules, _) =>
           let rule_text := category ++ lit ": " ++ join (lit " ") rules in
           chunks' ← embed_chunks
                       (Chunker.chunk_text rule_text (lit "ats_rules")
                          category Chunker.default_chunk_size);
           Ok (set_chunks (chunks e' ++ chunks') e'))
    ats_rules e.

(** [_build_context] *)
Definition _build_context (resume_chunks jd_chunks ats_chunks : list Chunk)
    : str :=
  lit "<retrieved_context>\n\n"
  ++ lit "=== RESUME CONTENT ===\n"
  ++ concat (map (fun c => lit "[Section: " ++ section c ++ lit "]\n"
                           ++ text c ++ lit "\n\n") resume_chunks)
  ++ match jd_chunks with
     | [] => []
     | _ :: _ =>
         lit "\n=== JOB DESCRIPTION ===\n"
         ++ concat (map (fun c => text c ++ lit "\n\n") jd_chunks)
     end
  ++ lit "\n=== ATS SCORING RULES ===\n"
  ++ concat (map (fun c => text c ++ lit "\n\n") ats_chunks)
  ++ lit "</retrieved_context>".

(** What [analyze_with_rag_faiss] returns: the verdict with the two
    keys added to it. *)
Record analysis := mkAnalysis {
  verdict : json;
  faiss_index_name : str;
  total_chunks_indexed : Z
}.

(** The indexing steps of [analyze_with_rag_faiss], up to and
    including [self.index_ats_rules()]. *)
Definition index_documents (e : engine) (w : world) (resume_text : str)
    (job_description : option str) (index_name : str)
    : result (engine * world) :=
  let e0 := clear_index e in
  '(e1, w1) ← index_resume_with_faiss e0 w resume_text true index_name;
  '(e2, w2) ← (if truthy_opt job_description
               then index_job_description_with_faiss e1 w1
                      (default [] job_description) true index_name
               else Ok (e1, w1));
  e3 ← index_ats_rules e2;
  Ok (e3, w2).

Definition analyze_with_rag_faiss (e : engine) (w : world)
    (resume_text : str) (job_description : option str)
    (index_name : option str) : result (analysis * engine * world) :=
  let index_name :=
    match index_name with
    | Some n => n
    | None => lit "session_" ++ now_compact w
    end in
  '(e3, w2) ← index_documents e w resume_text job_description index_name;
  resume_chunks ← retrieve_relevant_chunks_faiss e3 (lit "resume content")
                    10 (Some (lit "resume"));
  jd_chunks ← (if truthy_opt job_description
               then retrieve_relevant_chunks_faiss e3
                      (lit "job requirements") 5
                      (Some (lit "job_description"))
               else Ok []);
  ats_rule_chunks ← retrieve_relevant_chunks_faiss e3
                      (lit "ATS scoring rules") 5 (Some (lit "ats_rules"));
  let context := _build_context resume_chunks jd_chunks ats_rule_chunks in
  v ← _generate_analysis context
         (bool_decide (is_Some job_description));
  Ok (mkAnalysis v index_name (len (chunks e3)), e3, w2).

End WithCollaborators.
End Indexing.

(** A stand-in for the collaborators whose search returns the identifiers
    [ids], whatever the query. *)
Definition searching_collaborators (v : list float) (ids : list Z)
    : Collaborators := {|
  get_embedding _ := Ok v;
  float32 r := r;
  faiss_search _ _ _ := Ok ids;
  json := unit;
  _generate_analysis _ _ := Ok tt
|}.

(** ** The brute-force analysis *)

Module Analysis.
Import Retrieval Indexing.

Section WithCollaborators.
Context {C : Collaborators}.

(** [index_resume] *)
Definition index_resume (e : engine) (resume_text : str) : result engine :=
  foldM (fun e' '(section_name, section_text) =>
           chunks' ← embed_chunks
                       (Chunker.chunk_text section_text (lit "resume")
                          section_name Chunker.default_chunk_size);
           Ok (set_chunks (chunks e' ++ chunks') e'))
    (Sections._detect_sections resume_text) e.

(** [index_job_description] *)
Definition index_job_description (e : engine) (jd_text : str) : result engine :=
  chunks' ← embed_chunks
              (Chunker.chunk_text jd_text (lit "job_description")
                 (lit "requirements") Chunker.default_chunk_size);
  Ok (set_chunks (chunks e ++ chunks') e).

(** The indexing steps of [analyze_with_rag]: [self.chunks = []], then the
    resume, the job description if there is one, and the rules. *)
Definition index_all (e : engine) (resume_text : str)
    (job_description : option str) : result engine :=
  let e0 := set_chunks [] e in
  e1 ← index_resume e0 resume_text;
  e2 ← (if truthy_opt job_description
        then index_job_description e1 (default [] job_description)
        else Ok e1);
  index_ats_rules e2.

(** [analyze_with_rag]: the verdict and the engine left. *)
Definition analyze_with_rag (e : engine) (resume_text : str)
    (job_description : option str) : result (json * engine) :=
  e3 ← index_all e resume_text job_description;
  resume_chunks ← retrieve_relevant_chunks e3 (lit "resume content") 10
                    (Some (lit "resume"));
  jd_chunks ← (if truthy_opt job_description
               then retrieve_relevant_chunks e3 (lit "job requirements") 5
                      (Some (lit "job_description"))
               else Ok []);
  ats_rule_chunks ← retrieve_relevant_chunks e3 (lit "ATS scoring rules") 5
                      (Some (lit "ats_rules"));
  let context := _build_context resume_chunks jd_chunks ats_rule_chunks in
  analysis ← _generate_analysis context
               (bool_decide (is_Some job_description));
  Ok (analysis, e3).

(** [embedded_from c c']: the chunk [c'] is the chunk [c] with the
    embedding the provider gives for its text. *)
Definition embedded_from (c c' : Chunk) : Prop :=
  exists v, get_embedding (text c) = Ok v /\ c' = with_embedding c v.

End WithCollaborators.

(** The chunks cut from a resume, section by section, from a job
    description that is given and not empty, and from the rule table,
    before they are embedded. *)
Definition resume_chunks_of (resume_text : str) : list Chunk :=
  concat (map (fun '(section_name, section_text) =>
                 Chunker.chunk_text section_text (lit "resume") section_name
                   Chunker.default_chunk_size)
            (Sections._detect_sections resume_text)).

Definition jd_chunks_of (job_description : option str) : list Chunk :=
  if truthy_opt job_description
  then Chunker.chunk_text (default [] job_description) (lit "job_description")
         (lit "requirements") Chunker.default_chunk_size
  else [].

Definition rule_chunks : list Chunk :=
  concat (map (fun '(category, rules, _) =>
                 Chunker.chunk_text
                   (category ++ lit ": " ++ join (lit " ") rules)
                   (lit "ats_rules") category Chunker.default_chunk_size)
            ats_rules).

(** A chunk with an embedding that is not empty: [if chunk.embedding:]. *)
Definition has_embedding (c : Chunk) : bool :=
  match embedding c with
  | Some (_ :: _) => true
  | _ => false
  end.

(** No chunk with an embedding of another length than the query's. *)
Definition mismatch_free (q : list float) (cs : list Chunk) : Prop :=
  Forall (fun c => forall v, embedding c = Some v -> v <> [] ->
                     length v = length q) cs.

(** The test of the FAISS path on the source of a chunk:
    [source_filter is None or chunk.source == source_filter]. *)
Definition passes (source_filter : option str) (c : Chunk) : bool :=
  match source_filter with
  | None => true
  | Some s => bool_decide (source c = s)
  end.

(** The chunk an identifier of the FAISS index leads to, if any: not for
    the empty slot [-1], an identifier the mapping does not know, or a
    position beyond the collection. *)
Definition resolved (e : engine) (idx : Z) : option Chunk :=
  if idx =? -1 then None
  else match index_to_chunk_map e !! idx with
       | Some chunk_idx =>
           if chunk_idx <? len (chunks e)
           then match PyList.index (chunks e) chunk_idx with
                | Ok c => Some c
                | Raise _ => None
                end
           else None
       | None => None
       end.

End Analysis.

(** ** Keyword extraction *)

Module Keywords.

(** The chat request of [extract_keywords]: the text of the reply. *)
Class KeywordChat := { chat_keywords : str -> result str }.

(** [extract_keywords]: the reply is cut at the commas and each piece is
    trimmed. *)
Definition extract_keywords `{KeywordChat} (text : str) : result (list str) :=
  keywords_text ← chat_keywords text;
  Ok (map strip (split (lit ",") keywords_text)).

End Keywords.

(** ** The cleanup script *)

(** [backend/cleanup.py]. A directory is seen through its entries, in the
    order [glob] yields them; the names of the entries of a directory are
    distinct, and nobody else changes the directory while the script
    runs. What the script prints is left out. *)
Module Cleanup.

(** An entry: its name, whether [is_file()] holds for it, the number
    [get_file_age_days] returns for it, and whether [unlink()] raises for
    it: the system refuses, as it does for a directory. The two are
    independent: a FIFO, a socket or a link to a directory is no file
    for [is_file()], and is unlinked like one. *)
Record entry := mkEntry {
  name : str;
  is_file : bool;
  age_days : Z;
  unlink_denied : bool
}.

(** A directory, [None] when the path does not exist. *)
Definition directory := option (list entry).

(** [s.endswith(suffix)] *)
Definition endswith (suffix s : str) : bool := startswith (rev suffix) (rev s).

(** [logs_dir.glob("*.log")] *)
Definition glob_log (dir : list entry) : list entry :=
  List.filter (fun f => endswith (lit ".log") (name f)) dir.

(** [f.unlink()]: the entries left, or [None] when it raises. *)
Definition unlink (dir : list entry) (f : entry) : option (list entry) :=
  if unlink_denied f
  then None
  else Some (List.filter (fun g => negb (bool_decide (name g = name f))) dir).

(** An entry [clean_uploads] can delete: a file, which it only tries,
    that [unlink()] removes. *)
Definition removable (f : entry) : bool :=
  is_file f && negb (unlink_denied f).

(** An entry [clean_logs] can delete: one that [unlink()] removes. *)
Definition unlinkable (f : entry) : bool := negb (unlink_denied f).

(** [input(...)]: the next line of the standard input and the lines
    left, or [None] for [EOFError]. *)
Definition input (stdin : list str) : option (str * list str) :=
  match stdin with
  | [] => None
  | line :: rest => Some (line, rest)
  end.

(** [response in ['yes', 'y']] for [response = line.strip().lower()]. *)
Definition confirmed (line : str) : bool :=
  let response := lower (strip line) in
  bool_decide (response = lit "yes") || bool_decide (response = lit "y").

(** The deletion loop of [clean_uploads]: an entry that is not a file is
    passed over, an [unlink()] that raises is caught. *)
Fixpoint uploads_loop (files : list entry) (deleted : Z) (dir : list entry)
    : Z * list entry :=
  match files with
  | [] => (deleted, dir)
  | f :: rest =>
      if is_file f then
        match unlink dir f with
        | Some dir' => uploads_loop rest (deleted + 1) dir'
        | None => uploads_loop rest deleted dir
        end
      else uploads_loop rest deleted dir
  end.

(** The deletion loop of [clean_logs]: an [unlink()] that raises is
    caught. *)
Fixpoint logs_loop (old_logs : list entry) (deleted : Z) (dir : list entry)
    : Z * list entry :=
  match old_logs with
  | [] => (deleted, dir)
  | f :: rest =>
      match unlink dir f with
      | Some dir' => logs_loop rest (deleted + 1) dir'
      | None => logs_loop rest deleted dir
      end
  end.

(** [clean_uploads]: the value returned, [None] when [input] raises
    [EOFError]; the directory left; the standard input left. *)
Definition clean_uploads (force : bool) (days_old : Z)
    (uploads_dir : directory) (stdin : list str)
    : option Z * directory * list str :=
  match uploads_dir with
  | None => (Some 0, uploads_dir, stdin)
  | Some dir =>
      match dir with
      | [] => (Some 0, uploads_dir, stdin)
      | _ :: _ =>
          let files :=
            if 0 <? days_old
            then List.filter
                   (fun f => is_file f && (days_old <=? age_days f)) dir
            else dir in
          match files with
          | [] => (Some 0, uploads_dir, stdin)
          | _ :: _ =>
              if force then
                let '(deleted, dir') := uploads_loop files 0 dir in
                (Some deleted, Some dir', stdin)
              else
                match input stdin with
                | None => (None, uploads_dir, stdin)
                | Some (line, stdin') =>
                    if confirmed line then
                      let '(deleted, dir') := uploads_loop files 0 dir in
                      (Some deleted, Some dir', stdin')
                    else (Some 0, uploads_dir, stdin')
                end
          end
      end
  end.

(** [clean_logs] *)
Definition clean_logs (force : bool) (days_old : Z)
    (logs_dir : directory) (stdin : list str)
    : option Z * directory * list str :=
  match logs_dir with
  | None => (Some 0, logs_dir, stdin)
  | Some dir =>
      match glob_log dir with
      | [] => (Some 0, logs_dir, stdin)
      | (_ :: _) as log_files =>
          let old_logs :=
            List.filter (fun f => days_old <=? age_days f) log_files in
          match old_logs with
          | [] => (Some 0, logs_dir, stdin)
          | _ :: _ =>
              if force then
                let '(deleted, dir') := logs_loop old_logs 0 dir in
                (Some deleted, Some dir', stdin)
              else
                match input stdin with
                | None => (None, logs_dir, stdin)
                | Some (line, stdin') =>
                    if confirmed line then
                      let '(deleted, dir') := logs_loop old_logs 0 dir in
                      (Some deleted, Some dir', stdin')
                    else (Some 0, logs_dir, stdin')
                end
          end
      end
  end.

(** The parsed command line. *)
Record args := mkArgs {
  force : bool;
  uploads_only : bool;
  logs_only : bool;
  days : Z;
  log_days : Z
}.

(** What the script works on: the two directories and the standard
    input. *)
Record system := mkSystem {
  uploads : directory;
  logs : directory;
  stdin : list str
}.

(** [main], after the command line is parsed: the total it reports,
    [None] when it dies of [EOFError], and the system left. *)
Definition main (a : args) (s : system) : option Z * system :=
  let total_deleted := 0 in
  let '(n1, s1) :=
    if negb (logs_only a) then
      let '(n, d, i) := clean_uploads (force a) (days a) (uploads s) (stdin s) in
      (n, mkSystem d (logs s) i)
    else (Some 0, s) in
  match n1 with
  | None => (None, s1)
  | Some n1 =>
      let total_deleted := total_deleted + n1 in
      let '(n2, s2) :=
        if negb (uploads_only a) then
          let '(n, d, i) :=
            clean_logs (force a) (log_days a) (logs s1) (stdin s1) in
          (n, mkSystem (uploads s1) d i)
        else (Some 0, s1) in
      match n2 with
      | None => (None, s2)
      | Some n2 => (Some (total_deleted + n2), s2)
      end
  end.

(** The number of entries of a directory, none for a path that does not
    exist. *)
Definition entries (d : directory) : Z :=
  match d with
  | Some dir => len dir
  | None => 0
  end.

(** The entries [clean_uploads] is after, for a bound on the age: all of
    them without a bound, else the files that old. *)
Definition upload_candidate (days_old : Z) (f : entry) : bool :=
  if 0 <? days_old then is_file f && (days_old <=? age_days f) else true.

(** The entries [clean_logs] is after. *)
Definition log_candidate (days_old : Z) (f : entry) : bool :=
  endswith (lit ".log") (name f) && (days_old <=? age_days f).

(** The answer to the question of the script, when it is asked: the
    first line of the standard input. *)
Definition answer (stdin : list str) : bool :=
  match stdin with
  | line :: _ => confirmed line
  | [] => false
  end.

(** The value returned for [n] deletions: a script that asks with the
    standard input at its end dies of [EOFError]. *)
Definition reported (asked : bool) (stdin : list str) (n : Z) : option Z :=
  if asked then match stdin with [] => None | _ :: _ => Some n end
  else Some n.

(** The names of the entries of a directory are distinct. *)
Definition distinct_names (d : directory) : Prop :=
  match d with
  | Some dir => NoDup (map name dir)
  | None => True
  end.

End Cleanup.

(** * Theorems *)

(** ** The primitives on small inputs *)

Example split_paragraphs :
  split (lit "\n\n") (lit "a\n\n\nb\n\n") = [lit "a"; lit "\nb"; lit ""].
Proof. reflexivity. Qed.

Example split_whitespace :
  split_ws (lit "  Work  History\n") = [lit "Work"; lit "History"].
Proof. reflexivity. Qed.

Example strip_both_ends : strip (lit " \n Built a cache. \n\n") = lit "Built a cache.".
Proof. reflexivity. Qed.

Example lower_and_contains :
  contains (lit "work history") (lower (lit "WORK History:")) = true.
Proof. reflexivity. Qed.

Example sort_reverse_is_stable :
  PyList.sort fst Z.ltb true [(1, lit "a"); (2, lit "b"); (1, lit "c"); (2, lit "d")]
  = [(2, lit "b"); (2, lit "d"); (1, lit "a"); (1, lit "c")].
Proof. reflexivity. Qed.

Example slice_to_negative : PyList.slice_to (-1) [1; 2; 3] = [1; 2].
Proof. reflexivity. Qed.

Example chunk_text_merges_small_paragraphs :
  map text (Chunker.chunk_text (lit "one\n\ntwo\n\n\n\nthree") (lit "resume")
              (lit "general") Chunker.default_chunk_size)
  = [lit "one\n\ntwo\n\n\n\nthree"].
Proof. vm_compute. reflexivity. Qed.

Example detect_sections_without_header :
  Sections._detect_sections (lit "Jane Doe\n\nEngineer")
  = [(lit "summary", lit "Jane Doe\nEngineer")].
Proof. vm_compute. reflexivity. Qed.

Example index_path :
  Persistence._get_index_path (mkEngine [] (lit "faiss_indexes") None ∅)
    (lit "default")
  = (lit "faiss_indexes/default.faiss",
     lit "faiss_indexes/default_metadata.pkl").
Proof. reflexivity. Qed.

(** ** Facts about the string primitives *)

Section StringFacts.
Import Chunker.

Lemma blank_app w1 w2 : blank w1 -> blank w2 -> blank (w1 ++ w2).
Proof. unfold blank. intros H1 H2. apply Forall_app. split; assumption. Qed.

Lemma blank_rev w : blank w -> blank (rev w).
Proof.
  unfold blank. rewrite !Forall_forall. intros H c Hc.
  apply H. rewrite list_elem_of_In in *. now apply in_rev.
Qed.

Lemma blank_para_sep : blank para_sep.
Proof. repeat constructor. Qed.

Lemma lstrip_split s : exists w, blank w /\ s = w ++ lstrip s.
Proof.
  induction s as [|c s [w [Hw Hs]]]; simpl.
  - exists []. split; [constructor | reflexivity].
  - destruct (isspace c) eqn:Hc.
    + exists (c :: w). split; [constructor; assumption |].
      simpl. congruence.
    + exists []. split; [constructor | reflexivity].
Qed.

Lemma lstrip_blank w s : blank w -> lstrip (w ++ s) = lstrip s.
Proof.
  induction 1 as [|c w Hc _ IH]; simpl; [reflexivity |].
  now rewrite Hc.
Qed.

Lemma lstrip_app s t :
  lstrip (s ++ t) = match lstrip s with [] => lstrip t | _ => lstrip s ++ t end.
Proof.
  induction s as [|c s IH]; simpl; [reflexivity |].
  destruct (isspace c); [assumption | reflexivity].
Qed.

Lemma rstrip_split s : exists w, blank w /\ s = rstrip s ++ w.
Proof.
  destruct (lstrip_split (rev s)) as [w [Hw Hs]].
  exists (rev w). split; [now apply blank_rev |].
  unfold rstrip. rewrite <- rev_app_distr, <- Hs. now rewrite rev_involutive.
Qed.

Lemma rstrip_blank s w : blank w -> rstrip (s ++ w) = rstrip s.
Proof.
  intros Hw. unfold rstrip. rewrite rev_app_distr.
  now rewrite lstrip_blank by now apply blank_rev.
Qed.

(** A string is its trimmed form between two blank strings. *)
Lemma strip_split s :
  exists w1 w2, blank w1 /\ blank w2 /\ s = w1 ++ strip s ++ w2.
Proof.
  destruct (lstrip_split s) as [w1 [H1 Hs]].
  destruct (rstrip_split (lstrip s)) as [w2 [H2 Hr]].
  exists w1, w2. repeat split; try assumption.
  unfold strip. now rewrite <- Hr.
Qed.

Lemma strip_empty_blank s : strip s = [] -> blank s.
Proof.
  intros H. destruct (strip_split s) as (w1 & w2 & H1 & H2 & Hs).
  rewrite H in Hs. rewrite Hs. now apply blank_app.
Qed.

(** Trailing whitespace does not change the trimmed form. *)
Lemma strip_app_blank s w : blank w -> strip (s ++ w) = strip s.
Proof.
  intros Hw. unfold strip. rewrite lstrip_app.
  destruct (lstrip s) as [|c r] eqn:Hl.
  - rewrite <- (app_nil_r w), lstrip_blank by assumption. reflexivity.
  - now apply rstrip_blank.
Qed.

Lemma startswith_drop p s :
  startswith p s = true -> s = p ++ drop (length p) s.
Proof.
  revert s. induction p as [|a p IH]; intros [|b s]; simpl; try easy.
  destruct (decide (a = b)) as [->|]; [|easy].
  intros H. f_equal. now apply IH.
Qed.

Lemma split_go_nonempty sep k cur s : split_go sep k cur s <> [].
Proof.
  revert k cur. induction s as [|c s IH]; intros k cur; simpl; [easy |].
  destruct k; [|apply IH].
  destruct (startswith sep (c :: s)); [easy | apply IH].
Qed.

Lemma join_cons sep p ps :
  ps <> [] -> join sep (p :: ps) = p ++ sep ++ join sep ps.
Proof. destruct ps; [easy | reflexivity]. Qed.

Lemma join_snoc sep ps p :
  ps <> [] -> join sep (ps ++ [p]) = join sep ps ++ sep ++ p.
Proof.
  induction ps as [|q ps IH]; [easy |]. intros _.
  destruct ps as [|q' ps].
  - reflexivity.
  - change ((q :: q' :: ps) ++ [p]) with (q :: (q' :: ps) ++ [p]).
    rewrite join_cons by (simpl; discriminate). rewrite IH by easy.
    rewrite (join_cons sep q (q' :: ps)) by easy. now rewrite <- !app_assoc.
Qed.

Lemma join_split_go sep k cur s :
  sep <> [] -> join sep (split_go sep k cur s) = cur ++ drop k s.
Proof.
  intros Hsep. revert k cur.
  induction s as [|c s IH]; intros k cur; simpl.
  - now rewrite drop_nil, app_nil_r.
  - destruct k as [|k]; [|apply IH].
    destruct (startswith sep (c :: s)) eqn:Hp.
    + rewrite join_cons by apply split_go_nonempty.
      rewrite IH. simpl. f_equal.
      apply startswith_drop in Hp.
      destruct sep as [|a sep]; [easy |].
      simpl in Hp. injection Hp as -> Hs. simpl. now rewrite <- Hs.
    + rewrite IH. simpl. now rewrite <- app_assoc.
Qed.

(** Joining the pieces of a split gives the string back. *)
Lemma join_split sep s : sep <> [] -> join sep (split sep s) = s.
Proof. intros H. unfold split. now rewrite join_split_go. Qed.

Lemma split_nonempty sep s : split sep s <> [].
Proof. apply split_go_nonempty. Qed.

End StringFacts.

(** ** The chunker *)

Section ChunkerFacts.
Import Chunker.

Lemma interleaved_blank_r ts s w :
  interleaved ts s -> blank w -> interleaved ts (s ++ w).
Proof.
  induction 1 as [w0 H0 | w0 t ts rest H0 _ IH]; intros Hw.
  - constructor. now apply blank_app.
  - rewrite <- !app_assoc. constructor; [assumption | now apply IH].
Qed.

Lemma interleaved_snoc ts s w1 t w2 :
  interleaved ts s -> blank w1 -> blank w2 ->
  interleaved (ts ++ [t]) (s ++ w1 ++ t ++ w2).
Proof.
  induction 1 as [w0 H0 | w0 t0 ts rest H0 _ IH]; intros H1 H2; simpl.
  - rewrite app_assoc. constructor; [now apply blank_app |].
    now constructor.
  - rewrite <- !app_assoc. constructor; [assumption | now apply IH].
Qed.

Lemma visible_blank w : blank w -> visible w = [].
Proof.
  induction 1 as [|c w Hc _ IH]; [reflexivity |].
  unfold visible in *. simpl. now rewrite Hc.
Qed.

Lemma visible_app s t : visible (s ++ t) = visible s ++ visible t.
Proof. apply List.filter_app. Qed.

(** The texts carry every visible character of the string they are
    interleaved in, in the same order. *)
Lemma interleaved_visible ts s :
  interleaved ts s -> visible (concat ts) = visible s.
Proof.
  induction 1 as [w Hw | w t ts rest Hw _ IH]; simpl.
  - now rewrite visible_blank.
  - rewrite !visible_app, IH. now rewrite (visible_blank w).
Qed.

Lemma flush_interleaved src sec cs cur W :
  interleaved (map text cs) W ->
  interleaved (map text (flush src sec cs cur)) (W ++ cur).
Proof.
  intros H. unfold flush.
  destruct (strip_split cur) as (w1 & w2 & H1 & H2 & Hcur).
  destruct (strip cur) as [|c r] eqn:Hs; simpl.
  - apply interleaved_blank_r; [assumption |].
    apply strip_empty_blank. assumption.
  - rewrite map_app. simpl. rewrite Hcur.
    now apply interleaved_snoc.
Qed.

Lemma flush_text_nonempty src sec cs cur :
  Forall (fun c => text c <> []) cs ->
  Forall (fun c => text c <> []) (flush src sec cs cur).
Proof.
  intros H. unfold flush.
  destruct (strip cur) as [|c r] eqn:Hs; simpl; [assumption |].
  apply Forall_app. split; [assumption |].
  constructor; [simpl; discriminate | constructor].
Qed.

Lemma flush_app_blank src sec cs cur w :
  blank w -> flush src sec cs (cur ++ w) = flush src sec cs cur.
Proof. intros Hw. unfold flush. now rewrite strip_app_blank. Qed.

(** The state of the loop after at least one paragraph: the buffer ends
    with the separator, and the paragraphs read so far, joined, are the
    text already closed into chunks followed by the buffer. *)
Lemma loop_invariant src sec size ps :
  ps <> [] ->
  exists cs W cur',
    fold_left (step src sec size) ps ([], []) = (cs, cur' ++ para_sep)
    /\ join para_sep ps = W ++ cur'
    /\ interleaved (map text cs) W
    /\ Forall (fun c => text c <> []) cs.
Proof.
  induction ps as [|p ps IH] using rev_ind; [easy |]. intros _.
  rewrite fold_left_app. simpl.
  destruct ps as [|q ps'].
  - simpl. exists [], [], p.
    assert (Hnil : interleaved (map text []) []) by (constructor; constructor).
    destruct (len [] + len p <? size); simpl;
      repeat split; try assumption; constructor.
  - destruct IH as (cs & W & cur' & Hfold & Hjoin & Hint & Hne); [easy |].
    rewrite Hfold. rewrite join_snoc by easy. rewrite Hjoin.
    unfold step.
    destruct (len (cur' ++ para_sep) + len p <? size).
    + exists cs, W, ((cur' ++ para_sep) ++ p).
      repeat split; try assumption.
      * now rewrite <- !app_assoc.
      * now rewrite <- !app_assoc.
    + exists (flush src sec cs (cur' ++ para_sep)), (W ++ cur' ++ para_sep), p.
      repeat split.
      * now rewrite <- !app_assoc.
      * rewrite app_assoc. apply interleaved_blank_r; [| apply blank_para_sep].
        rewrite flush_app_blank by apply blank_para_sep.
        now apply flush_interleaved.
      * now apply flush_text_nonempty.
Qed.

End ChunkerFacts.

(** C4. Whatever the text, the labels and the size bound, no chunk of
    [chunk_text] has an empty text, and the input is the chunk texts in
    their order of output with whitespace only before, between and after
    them; so the chunk texts, concatenated, have the non-whitespace
    characters of the input, in the order of the input. *)
Theorem chunk_text_preserves_content (input source section : str) (chunk_size : Z) :
  let out := map text (Chunker.chunk_text input source section chunk_size) in
  Forall (fun t => t <> []) out
  /\ Chunker.interleaved out input
  /\ Chunker.visible (concat out) = Chunker.visible input.
Proof.
  intros out. subst out. unfold Chunker.chunk_text.
  destruct (loop_invariant source section chunk_size
              (split Chunker.para_sep input) (split_nonempty _ _))
    as (cs & W & cur' & Hfold & Hjoin & Hint & Hne).
  rewrite Hfold.
  rewrite join_split in Hjoin by discriminate.
  rewrite flush_app_blank by apply blank_para_sep.
  assert (Hi : Chunker.interleaved
                 (map text (Chunker.flush source section cs cur')) input).
  { rewrite Hjoin. now apply flush_interleaved. }
  repeat split.
  - apply Forall_map. eapply Forall_impl.
    + apply flush_text_nonempty. eassumption.
    + simpl. auto.
  - assumption.
  - now apply interleaved_visible.
Qed.

(** C3, as the code has it. With the bound 20 the scenario text gives three
    chunks, one per paragraph, whatever the labels: the buffer holds the
    first paragraph and its separator, twelve characters, so the second
    paragraph already reaches the bound. *)
Theorem chunk_text_scenario_three_chunks (source section : str) :
  Chunker.chunk_text (lit "AAAAAAAAAA\n\nBBBBBBBBBB\n\nCCCCCCCCCC")
    source section 20
  = [ mkChunk (lit "AAAAAAAAAA") source section None;
      mkChunk (lit "BBBBBBBBBB") source section None;
      mkChunk (lit "CCCCCCCCCC") source section None ].
Proof. vm_compute. reflexivity. Qed.

(** The two chunks C3 announces are not what [chunk_text] returns. *)
Lemma chunk_text_scenario_not_two_chunks :
  map text
    (Chunker.chunk_text (lit "AAAAAAAAAA\n\nBBBBBBBBBB\n\nCCCCCCCCCC")
       (lit "resume") (lit "general") 20)
  <> [lit "AAAAAAAAAA\n\nBBBBBBBBBB"; lit "CCCCCCCCCC"].
Proof. vm_compute. discriminate. Qed.

(** ** The section detector *)

Section SectionFacts.
Import Sections.

Lemma startswith_app p post : startswith p (p ++ post) = true.
Proof.
  induction p as [|a p IH]; simpl; [reflexivity |].
  destruct (decide (a = a)); [assumption | contradiction].
Qed.

(** [contains] finds an occurrence exactly when there is one. *)
Lemma contains_spec needle hay :
  contains needle hay = true <->
  exists pre post, hay = pre ++ needle ++ post.
Proof.
  induction hay as [|c hay IH].
  - simpl. rewrite orb_false_r. split.
    + intros H. apply startswith_drop in H. exists [], (drop (length needle) []).
      exact H.
    + intros (pre & post & H). symmetry in H.
      apply app_eq_nil in H as [-> H]. apply app_eq_nil in H as [-> _].
      reflexivity.
  - cbn [contains]. rewrite orb_true_iff, IH. split.
    + intros [H | (pre & post & H)].
      * apply startswith_drop in H. exists [], (drop (length needle) (c :: hay)).
        exact H.
      * exists (c :: pre), post. simpl. now rewrite H.
    + intros (pre & post & H). destruct pre as [|c' pre].
      * left. simpl in H. rewrite H. apply startswith_app.
      * right. injection H as _ H. now exists pre, post.
Qed.

Lemma contains_rev needle hay :
  contains (rev needle) (rev hay) = contains needle hay.
Proof.
  apply eq_true_iff_eq. rewrite !contains_spec. split.
  - intros (pre & post & H). exists (rev post), (rev pre).
    apply (f_equal (@rev _)) in H. rewrite rev_involutive in H.
    rewrite H, !rev_app_distr, rev_involutive. now rewrite <- app_assoc.
  - intros (pre & post & H). exists (rev post), (rev pre).
    rewrite H, !rev_app_distr. now rewrite <- app_assoc.
Qed.

Lemma contains_lstrip kw s :
  starts_visible kw = true -> contains kw (lstrip s) = contains kw s.
Proof.
  intros Hkw. induction s as [|c s IH]; [reflexivity |].
  cbn [lstrip]. destruct (isspace c) eqn:Hc; [| reflexivity].
  rewrite IH. cbn [contains].
  destruct kw as [|a kw]; [discriminate |].
  simpl in Hkw. simpl. destruct (decide (a = c)) as [->|]; [| reflexivity].
  rewrite Hc in Hkw. discriminate.
Qed.

Lemma contains_rstrip kw s :
  starts_visible (rev kw) = true -> contains kw (rstrip s) = contains kw s.
Proof.
  intros Hkw. unfold rstrip.
  rewrite <- contains_rev, rev_involutive.
  rewrite contains_lstrip by assumption. apply contains_rev.
Qed.

(** Trimming a line does not change whether it contains a keyword that
    begins and ends with a visible character. *)
Lemma contains_strip kw s :
  starts_visible kw = true -> starts_visible (rev kw) = true ->
  contains kw (strip s) = contains kw s.
Proof.
  intros H1 H2. unfold strip.
  now rewrite contains_rstrip, contains_lstrip.
Qed.

Lemma keywords_visible :
  Forall (fun row =>
            Forall (fun kw => starts_visible kw = true
                              /\ starts_visible (rev kw) = true) (snd row))
    section_keywords.
Proof. repeat constructor. Qed.

End SectionFacts.

(** C7. On the scenario text [_detect_sections] returns the two sections
    skills and experience with the texts of the claim, in this order; and a
    line is taken for a header exactly when it has fewer than five
    whitespace-delimited tokens and its lowercased text contains a keyword
    of the table. *)
Theorem detect_sections_scenario_and_header_rule :
  Sections._detect_sections
    (lit "Skills\nPython, Go\n\nExperience\nBuilt a cache.")
  = [ (lit "skills", lit "Python, Go");
      (lit "experience", lit "Built a cache.") ]
  /\ forall line : str,
       is_Some (Sections.match_section line) <->
       (len (split_ws line) < 5
        /\ exists section_name keywords keyword,
             In (section_name, keywords) Sections.section_keywords
             /\ In keyword keywords
             /\ contains keyword (lower line) = true).
Proof.
  split; [vm_compute; reflexivity |].
  intros line. unfold Sections.match_section.
  pose proof keywords_visible as Hvis. rewrite Forall_forall in Hvis.
  split.
  - intros [name Hname].
    destruct (find _ _) as [[n kws]|] eqn:Hfind; [| discriminate].
    apply find_some in Hfind as [Hin Hhead]. simpl in Hhead.
    unfold Sections.header_for in Hhead.
    apply andb_true_iff in Hhead as [Hex Hlen].
    apply existsb_exists in Hex as (kw & Hkw & Hc).
    split; [now apply Z.ltb_lt |].
    exists n, kws, kw. repeat split; try assumption.
    apply list_elem_of_In in Hin. specialize (Hvis _ Hin). simpl in Hvis.
    rewrite Forall_forall in Hvis.
    apply list_elem_of_In in Hkw. destruct (Hvis _ Hkw) as [H1 H2].
    now rewrite contains_strip in Hc.
  - intros (Hlen & n & kws & kw & Hin & Hkw & Hc).
    destruct (find _ _) as [row|] eqn:Hfind; [now eexists |].
    exfalso. apply (find_none _ _ Hfind) in Hin as Hno. simpl in Hno.
    unfold Sections.header_for in Hno.
    apply andb_false_iff in Hno as [Hno | Hno].
    + apply not_true_iff_false in Hno. apply Hno.
      apply existsb_exists. exists kw. split; [assumption |].
      apply list_elem_of_In in Hin. specialize (Hvis _ Hin). simpl in Hvis.
      rewrite Forall_forall in Hvis.
      apply list_elem_of_In in Hkw. destruct (Hvis _ Hkw) as [H1 H2].
      now rewrite contains_strip.
    + apply Z.ltb_ge in Hno. lia.
Qed.

(** ** Sorting *)

Section SortFacts.
Import PyList.
Context {A K : Type} (key : A -> K) (lt : K -> K -> bool).

Lemma insert_sorted_perm x l : insert_sorted key lt x l ≡ₚ x :: l.
Proof.
  induction l as [|y l IH]; simpl; [reflexivity |].
  destruct (lt (key y) (key x)); [| reflexivity].
  rewrite IH. apply perm_swap.
Qed.

Lemma sort_asc_perm l : sort_asc key lt l ≡ₚ l.
Proof.
  induction l as [|x l IH]; simpl; [reflexivity |].
  rewrite insert_sorted_perm. now rewrite IH.
Qed.

Lemma sort_perm b l : sort key lt b l ≡ₚ l.
Proof.
  destruct b; simpl; [| apply sort_asc_perm].
  rewrite <- Permutation_rev, sort_asc_perm. symmetry. apply Permutation_rev.
Qed.

(** Stability: elements that are never smaller than one another keep
    their order. *)
Section Stable.
Variable Q : A -> bool.
Hypothesis Q_ties :
  forall x y, Q x = true -> Q y = true -> lt (key y) (key x) = false.

Lemma filter_insert_sorted x l :
  List.filter Q (insert_sorted key lt x l) = List.filter Q (x :: l).
Proof.
  induction l as [|y l IH]; [reflexivity |].
  cbn [insert_sorted].
  destruct (lt (key y) (key x)) eqn:Hlt; [| reflexivity].
  cbn [List.filter] in *. rewrite IH.
  destruct (Q x) eqn:Hx, (Q y) eqn:Hy; try reflexivity.
  rewrite (Q_ties x y Hx Hy) in Hlt. discriminate.
Qed.

Lemma filter_sort_asc l :
  List.filter Q (sort_asc key lt l) = List.filter Q l.
Proof.
  induction l as [|x l IH]; [reflexivity |].
  cbn [sort_asc foldr]. fold (sort_asc key lt l).
  rewrite filter_insert_sorted. cbn [List.filter]. now rewrite IH.
Qed.

Lemma filter_sort b l : List.filter Q (sort key lt b l) = List.filter Q l.
Proof.
  destruct b; simpl; [| apply filter_sort_asc].
  now rewrite filter_rev, filter_sort_asc, filter_rev, rev_involutive.
Qed.
End Stable.

(** Order: on keys that [lt] orders strictly and weakly, the result is
    sorted. *)
Section Ordered.
Variable P : K -> Prop.
Hypothesis lt_irrefl : forall a, P a -> lt a a = false.
Hypothesis lt_trans : forall a b c, P a -> P b -> P c ->
  lt a b = true -> lt b c = true -> lt a c = true.
Hypothesis lt_negtrans : forall a b c, P a -> P b -> P c ->
  lt a b = false -> lt b c = false -> lt a c = false.

(** [x] may stand before [y] in an ascending list. *)
Local Abbreviation not_after := (fun x y : A => lt (key y) (key x) = false).

Lemma insert_sorted_sorted x l :
  P (key x) -> Forall (fun y => P (key y)) l ->
  StronglySorted not_after l ->
  StronglySorted not_after (insert_sorted key lt x l).
Proof.
  intros Px HP Hs. induction l as [|y l IH]; simpl.
  - repeat constructor.
  - apply Forall_cons in HP as [Py HP].
    apply StronglySorted_inv in Hs as [Hs Hy].
    destruct (lt (key y) (key x)) eqn:Hlt.
    + constructor; [now apply IH |].
      apply Forall_forall. intros z Hz.
      apply list_elem_of_In in Hz.
      apply (Permutation_in _ (insert_sorted_perm x l)) in Hz.
      destruct Hz as [<- | Hz].
      * simpl. destruct (lt (key x) (key y)) eqn:Hxy; [| easy].
        rewrite <- (lt_irrefl (key x) Px). symmetry. eauto.
      * rewrite Forall_forall in Hy. apply Hy. now apply list_elem_of_In.
    + constructor; [now constructor |].
      constructor; [exact Hlt |].
      rewrite Forall_forall in Hy, HP |- *. intros z Hz.
      simpl. apply (lt_negtrans _ (key y)); auto.
Qed.

Lemma sort_asc_sorted l :
  Forall (fun y => P (key y)) l -> StronglySorted not_after (sort_asc key lt l).
Proof.
  induction l as [|x l IH]; intros HP; simpl; [constructor |].
  apply Forall_cons in HP as [Px HP].
  apply insert_sorted_sorted; [assumption | | now apply IH].
  rewrite Forall_forall in HP |- *. intros z Hz. apply HP.
  apply list_elem_of_In in Hz. apply list_elem_of_In.
  now apply (Permutation_in _ (sort_asc_perm l)).
Qed.

Lemma StronglySorted_rev_flip (R : A -> A -> Prop) l :
  StronglySorted R l -> StronglySorted (flip R) (rev l).
Proof.
  induction 1 as [|x l Hs IH Hx]; simpl; [constructor |].
  apply StronglySorted_app. repeat split.
  - intros y z Hy Hz. apply list_elem_of_singleton in Hz as ->.
    rewrite Forall_forall in Hx. apply Hx.
    apply list_elem_of_In. apply in_rev. now apply list_elem_of_In.
  - assumption.
  - repeat constructor.
Qed.

(** With [reverse=True] no element is smaller than a later one. *)
Lemma sort_reverse_sorted l :
  Forall (fun y => P (key y)) l ->
  StronglySorted (fun x y => lt (key x) (key y) = false) (sort key lt true l).
Proof.
  intros HP. simpl.
  apply (StronglySorted_rev_flip not_after).
  apply sort_asc_sorted.
  rewrite Forall_forall in HP |- *. intros z Hz. apply HP.
  apply list_elem_of_In in Hz. apply list_elem_of_In. now apply in_rev.
Qed.
End Ordered.

End SortFacts.

Lemma sort_map {A B K} (key : A -> K) (lt : K -> K -> bool) (f : B -> A) b l :
  PyList.sort key lt b (map f l)
  = map f (PyList.sort (fun x => key (f x)) lt b l).
Proof.
  assert (Hins : forall x s,
    PyList.insert_sorted key lt (f x) (map f s)
    = map f (PyList.insert_sorted (fun x => key (f x)) lt x s)).
  { intros x s. induction s as [|y s IH]; simpl; [reflexivity |].
    destruct (lt (key (f y)) (key (f x))); simpl; [now rewrite IH | reflexivity]. }
  assert (Hasc : forall s,
    PyList.sort_asc key lt (map f s)
    = map f (PyList.sort_asc (fun x => key (f x)) lt s)).
  { induction s as [|x s IH]; [reflexivity |].
    change (PyList.sort_asc key lt (map f (x :: s)))
      with (PyList.insert_sorted key lt (f x) (PyList.sort_asc key lt (map f s))).
    now rewrite IH, Hins. }
  destruct b; simpl; [| apply Hasc].
  now rewrite <- map_rev, Hasc, map_rev.
Qed.

(** ** Floats and cosine similarity *)

Section FloatFacts.
Import Cosine.

Lemma fmul_comm x y : fmul x y = fmul y x.
Proof.
  unfold fmul, SFmul.
  destruct x as [sx|sx| |sx mx ex], y as [sy|sy| |sy my ey];
    try reflexivity; try (now rewrite xorb_comm).
  now rewrite xorb_comm, Pos.mul_comm, Z.add_comm.
Qed.

Lemma dot_from_comm acc v1 v2 : dot_from acc v1 v2 = dot_from acc v2 v1.
Proof.
  revert acc v2. induction v1 as [|x v1 IH]; intros acc [|y v2]; simpl;
    try reflexivity.
  now rewrite fmul_comm, IH.
Qed.

Lemma dot_comm v1 v2 : dot v1 v2 = dot v2 v1.
Proof. apply dot_from_comm. Qed.

(** Zeros and NaN through the operations. *)
Lemma fmul_zero_l x y : is_zero x = true -> null (fmul x y) = true.
Proof. destruct x, y; try discriminate; reflexivity. Qed.

Lemma fmul_null_l x y : null x = true -> null (fmul x y) = true.
Proof. destruct x, y; try discriminate; reflexivity. Qed.

Lemma fmul_null_r x y : null y = true -> null (fmul x y) = true.
Proof. rewrite fmul_comm. apply fmul_null_l. Qed.

Lemma fadd_null x y : null x = true -> null y = true -> null (fadd x y) = true.
Proof.
  destruct x as [[]| | |], y as [[]| | |]; try discriminate; reflexivity.
Qed.

Lemma fsqrt_null x : null x = true -> null (fsqrt x) = true.
Proof. destruct x; try discriminate; reflexivity. Qed.

Lemma fdiv_null x y : null x = true -> null y = true -> fdiv x y = S754_nan.
Proof. destruct x, y; try discriminate; reflexivity. Qed.

Lemma dot_from_null acc v1 v2 :
  null acc = true -> Forall (fun x => is_zero x = true) v1 ->
  null (dot_from acc v1 v2) = true.
Proof.
  intros Ha Hv. revert acc v2 Ha.
  induction Hv as [|x v1 Hx _ IH]; intros acc [|y v2] Ha; simpl; try assumption.
  apply IH. apply fadd_null; [assumption | now apply fmul_zero_l].
Qed.

Lemma dot_null_l v1 v2 :
  Forall (fun x => is_zero x = true) v1 -> null (dot v1 v2) = true.
Proof. now apply dot_from_null. Qed.

Lemma dot_null_r v1 v2 :
  Forall (fun x => is_zero x = true) v2 -> null (dot v1 v2) = true.
Proof. rewrite dot_comm. apply dot_null_l. Qed.

Lemma norm_null v : Forall (fun x => is_zero x = true) v -> null (norm v) = true.
Proof. intros H. apply fsqrt_null. now apply dot_null_l. Qed.

(** A vector has a component other than zero, or all its components
    are zeros. *)
Lemma nonzero_or_zero v : nonzero v \/ Forall (fun x => is_zero x = true) v.
Proof.
  induction v as [|x v [IH | IH]].
  - right. constructor.
  - left. now constructor 2.
  - destruct (is_zero x) eqn:Hx.
    + right. now constructor.
    + left. now constructor 1.
Qed.

Lemma not_nonzero v : ~ nonzero v -> Forall (fun x => is_zero x = true) v.
Proof. intros H. now destruct (nonzero_or_zero v). Qed.

(** A vector of zeros gives NaN, whatever the other vector. *)
Lemma cosine_null v1 v2 :
  Forall (fun x => is_zero x = true) v1 \/ Forall (fun x => is_zero x = true) v2 ->
  null (denominator v1 v2) = true
  /\ fdiv (dot v1 v2) (denominator v1 v2) = S754_nan.
Proof.
  intros H.
  assert (Hd : null (denominator v1 v2) = true).
  { destruct H as [H | H];
      [apply fmul_null_l | apply fmul_null_r]; now apply norm_null. }
  split; [exact Hd |]. apply fdiv_null; [| exact Hd].
  destruct H as [H | H]; [now apply dot_null_l | now apply dot_null_r].
Qed.

(** On the floats that are not NaN, [flt] is the order of the ranks. *)
Lemma flt_rank x y :
  is_nan x = false -> is_nan y = false ->
  (flt x y = true <-> lex_lt (rank x) (rank y)).
Proof.
  unfold flt, SFltb, SFcompare, lex_lt.
  destruct x as [sx|[]| |[] mx ex], y as [sy|[]| |[] my ey]; simpl;
    try discriminate; intros _ _;
    try (split; [discriminate | lia]);
    try (split; [intros _; lia | reflexivity]).
  - destruct (Z.compare_spec ex ey); simpl;
      [| split; [discriminate | lia] | split; [intros _; lia | reflexivity]].
    subst. change (Pos.compare_cont Eq mx my) with (Pos.compare mx my).
    destruct (Pos.compare_spec mx my); simpl;
      [split; [discriminate | lia] | split; [discriminate | lia]
       | split; [intros _; lia | reflexivity]].
  - destruct (Z.compare_spec ex ey); simpl;
      [| split; [intros _; lia | reflexivity] | split; [discriminate | lia]].
    subst. change (Pos.compare_cont Eq mx my) with (Pos.compare mx my).
    destruct (Pos.compare_spec mx my); simpl;
      [split; [discriminate | lia] | split; [intros _; lia | reflexivity]
       | split; [discriminate | lia]].
Qed.

Lemma feq_rank x y :
  feq x y = true -> is_nan x = false /\ is_nan y = false /\ rank x = rank y.
Proof.
  unfold feq, SFeqb, SFcompare.
  destruct x as [sx|[]| |[] mx ex], y as [sy|[]| |[] my ey]; simpl;
    try discriminate; try (intros _; repeat split; reflexivity).
  - destruct (Z.compare_spec ex ey); simpl; try discriminate.
    subst. change (Pos.compare_cont Eq mx my) with (Pos.compare mx my).
    destruct (Pos.compare_spec mx my); simpl; try discriminate.
    subst. now intros _.
  - destruct (Z.compare_spec ex ey); simpl; try discriminate.
    subst. change (Pos.compare_cont Eq mx my) with (Pos.compare mx my).
    destruct (Pos.compare_spec mx my); simpl; try discriminate.
    subst. now intros _.
Qed.

(** On the floats that are not NaN, [flt] is a strict order that is
    weakly total. *)
Lemma flt_irrefl a : is_nan a = false -> flt a a = false.
Proof.
  intros Ha. apply not_true_iff_false. rewrite flt_rank by assumption.
  unfold lex_lt. destruct (rank a) as [[a1 a2] a3]. lia.
Qed.

Lemma flt_trans a b c :
  is_nan a = false -> is_nan b = false -> is_nan c = false ->
  flt a b = true -> flt b c = true -> flt a c = true.
Proof.
  intros Ha Hb Hc. rewrite !flt_rank by assumption. unfold lex_lt.
  destruct (rank a) as [[a1 a2] a3], (rank b) as [[b1 b2] b3],
    (rank c) as [[c1 c2] c3]. lia.
Qed.

Lemma flt_negtrans a b c :
  is_nan a = false -> is_nan b = false -> is_nan c = false ->
  flt a b = false -> flt b c = false -> flt a c = false.
Proof.
  intros Ha Hb Hc. rewrite <- !not_true_iff_false, !flt_rank by assumption.
  unfold lex_lt.
  destruct (rank a) as [[a1 a2] a3], (rank b) as [[b1 b2] b3],
    (rank c) as [[c1 c2] c3]. lia.
Qed.

(** Two floats equal to a third are not one below the other. *)
Lemma feq_ties x y r : feq x r = true -> feq y r = true -> flt y x = false.
Proof.
  intros Hx Hy. apply feq_rank in Hx as (Hx & _ & Hxr).
  apply feq_rank in Hy as (Hy & _ & Hyr).
  apply not_true_iff_false. rewrite flt_rank by assumption.
  rewrite Hxr, Hyr. unfold lex_lt. destruct (rank r) as [[r1 r2] r3]. lia.
Qed.

End FloatFacts.

(** ** Brute-force retrieval *)

Section RetrievalFacts.
Import Cosine PyList Retrieval Analysis.
Context {C : Collaborators}.

Lemma filter_by_source_subseteq f cs : filter_by_source f cs ⊆ cs.
Proof.
  unfold filter_by_source. destruct (truthy_opt f); [| reflexivity].
  apply list_subseteq_filter.
Qed.

Lemma filter_by_source_given s cs :
  s <> [] -> Forall (fun c => source c = s) (filter_by_source (Some s) cs).
Proof.
  intros Hs. unfold filter_by_source. destruct s as [|a s]; [easy |]. simpl.
  apply Forall_forall. intros c Hc.
  apply list_elem_of_filter in Hc as [Hc _]. congruence.
Qed.

(** The loop scores the chunks that carry an embedding, in their order,
    each with its similarity. *)
Lemma score_chunks_values q cs sims :
  score_chunks q cs = Ok sims ->
  sims = map (fun c => (c, similarity q c)) (List.filter has_embedding cs).
Proof.
  revert sims. induction cs as [|c cs IH]; intros sims; cbn [score_chunks].
  - now intros [= <-].
  - unfold has_embedding at 1. cbn [List.filter].
    destruct (embedding c) as [[|x v]|] eqn:Hemb; try apply IH.
    unfold cosine_similarity.
    destruct (decide (length q = length (x :: v))); [| discriminate].
    cbv beta iota delta [mbind result_bind].
    destruct (score_chunks q cs) as [rest|]; [| discriminate].
    intros [= <-]. cbn [map]. unfold similarity at 1. rewrite Hemb.
    f_equal. now apply IH.
Qed.

(** Every scored chunk is one of the chunks given to the loop. *)
Lemma score_chunks_from q cs sims :
  score_chunks q cs = Ok sims -> Forall (fun p => fst p ∈ cs) sims.
Proof.
  revert sims. induction cs as [|c cs IH]; intros sims; cbn [score_chunks].
  - intros [= <-]. constructor.
  - assert (Hrest : forall sims', score_chunks q cs = Ok sims' ->
                      Forall (fun p => fst p ∈ c :: cs) sims').
    { intros sims' H. eapply Forall_impl; [exact (IH _ H) |].
      simpl. intros p Hp. now right. }
    destruct (embedding c) as [[|x v]|]; try apply Hrest.
    destruct (cosine_similarity q (x :: v)) as [sim|]; [| discriminate].
    cbv beta iota delta [mbind result_bind].
    destruct (score_chunks q cs) as [rest|]; [| discriminate].
    intros [= <-]. constructor; [left | now apply Hrest].
Qed.

Lemma slice_to_length {A} k (l : list A) : 0 <= k -> len (slice_to k l) <= k.
Proof.
  intros Hk. unfold slice_to, len.
  destruct (0 <=? k) eqn:H; [| apply Z.leb_gt in H; lia].
  rewrite length_take. lia.
Qed.

Lemma slice_to_take {A} k (l : list A) :
  exists n, slice_to k l = take n l.
Proof. unfold slice_to. destruct (0 <=? k); eauto. Qed.

Lemma slice_to_map {A B} (f : A -> B) k (l : list A) :
  slice_to k (map f l) = map f (slice_to k l).
Proof.
  unfold slice_to, len. rewrite length_map.
  destruct (0 <=? k); symmetry; apply fmap_take.
Qed.

Lemma StronglySorted_weaken {A} (R1 R2 : A -> A -> Prop) l :
  (forall x y, R1 x y -> R2 x y) -> StronglySorted R1 l -> StronglySorted R2 l.
Proof.
  intros HR. induction 1 as [|x l _ IH Hx]; constructor; [assumption |].
  eapply Forall_impl; eauto.
Qed.

(** A returning call gives the first [top_k] candidates of the ranking
    by similarity. *)
Lemma retrieve_relevant_chunks_eq e query top_k source_filter q res :
  get_embedding query = Ok q ->
  retrieve_relevant_chunks e query top_k source_filter = Ok res ->
  res = slice_to top_k
          (sort (similarity q) flt true
             (List.filter has_embedding
                (filter_by_source source_filter (chunks e)))).
Proof.
  intros Hq. unfold retrieve_relevant_chunks. rewrite Hq.
  cbv beta iota delta [mbind result_bind].
  destruct (score_chunks q _) as [sims|] eqn:Hs; [| discriminate].
  intros Hr.
  assert (Hres : res = map fst (slice_to top_k (sort snd flt true sims)))
    by congruence.
  rewrite Hres, (score_chunks_values _ _ _ Hs).
  rewrite (sort_map snd flt (fun c => (c, similarity q c))).
  cbn [snd].
  rewrite slice_to_map, <- list_fmap_compose. apply list_fmap_id.
Qed.

End RetrievalFacts.

(** X31. For [top_k >= 0], whatever [retrieve_relevant_chunks] returns
    is made of at most [top_k] chunks of the collection, each with the
    source of the filter when the filter is a non-empty string. When no
    similarity the loop computes is NaN, no returned chunk is less similar
    to the query than a later one, and the returned chunks of any one
    similarity are the first candidates of that similarity, in the order
    of the collection. *)
Theorem retrieve_relevant_chunks_ranked `{C : Collaborators}
    (e : engine) (query : str) (top_k : Z) (source_filter : option str)
    (q : list float) (res : list Chunk) :
  0 <= top_k ->
  get_embedding query = Ok q ->
  Retrieval.retrieve_relevant_chunks e query top_k source_filter = Ok res ->
  let candidates :=
    List.filter Analysis.has_embedding
      (Retrieval.filter_by_source source_filter (chunks e)) in
  len res <= top_k
  /\ res ⊆ chunks e
  /\ (forall s, source_filter = Some s -> s <> [] ->
        Forall (fun c => source c = s) res)
  /\ (Forall (fun c => Cosine.is_nan (Retrieval.similarity q c) = false)
        candidates ->
      StronglySorted
        (fun c d => Cosine.flt (Retrieval.similarity q c)
                      (Retrieval.similarity q d) = false) res
      /\ forall r,
           Retrieval.with_similarity q r res
           `prefix_of` Retrieval.with_similarity q r candidates).
Proof.
  intros Hk Hq Hres candidates.
  pose proof (retrieve_relevant_chunks_eq _ _ _ _ _ _ Hq Hres) as Heq.
  fold candidates in Heq.
  set (ranked := PyList.sort (Retrieval.similarity q) Cosine.flt true
                   candidates) in Heq.
  destruct (slice_to_take top_k ranked) as [n Hn].
  assert (Hsub : res ⊆ Retrieval.filter_by_source source_filter (chunks e)).
  { intros c Hc. rewrite Heq, Hn in Hc.
    apply (sublist_subseteq _ _ (sublist_take _ n)) in Hc.
    apply list_elem_of_In in Hc.
    apply (Permutation_in _ (sort_perm _ Cosine.flt true candidates)) in Hc.
    apply filter_In in Hc as [Hc _]. now apply list_elem_of_In. }
  split; [rewrite Heq; now apply slice_to_length |].
  split; [etransitivity; [exact Hsub | apply filter_by_source_subseteq] |].
  split.
  { intros s -> Hne.
    pose proof (filter_by_source_given s (chunks e) Hne) as Hf.
    rewrite Forall_forall in Hf |- *. intros c Hc. apply Hf. now apply Hsub. }
  intros Hnan. split.
  - rewrite Heq, Hn.
    apply (StronglySorted_app_1_l _ _ (drop n ranked)). rewrite take_drop.
    exact (sort_reverse_sorted (Retrieval.similarity q) Cosine.flt
             (fun k => Cosine.is_nan k = false)
             flt_irrefl flt_trans flt_negtrans candidates Hnan).
  - intros r. unfold Retrieval.with_similarity. rewrite Heq, Hn.
    rewrite <- (filter_sort (Retrieval.similarity q) Cosine.flt _)
      with (b := true) (l := candidates).
    + fold ranked.
      exists (List.filter
                (fun c => Cosine.feq (Retrieval.similarity q c) r)
                (drop n ranked)).
      now rewrite <- List.filter_app, take_drop.
    + intros x y Hx Hy. exact (feq_ties _ _ r Hx Hy).
Qed.

(** An instance of X31: two chunks of the resume and one of the job
    description, the query along the first axis, one result asked for. *)
Lemma retrieve_relevant_chunks_ranked_witness :
  let one := Cosine.of_int 1 in
  let zero := Cosine.of_int 0 in
  let C := constant_collaborators [one; zero] in
  let c1 := mkChunk (lit "a") (lit "resume") (lit "skills") (Some [zero; one]) in
  let c2 := mkChunk (lit "b") (lit "resume") (lit "skills") (Some [one; zero]) in
  let c3 := mkChunk (lit "c") (lit "job_description") (lit "requirements")
              (Some [one; one]) in
  let e := mkEngine [c1; c2; c3] (lit "faiss_indexes") None ∅ in
  let q := [one; zero] in
  let f := Some (lit "resume") in
  let candidates :=
    List.filter Analysis.has_embedding
      (Retrieval.filter_by_source f (chunks e)) in
  (0 <= 1
   /\ get_embedding (lit "resume content") = Ok q
   /\ Retrieval.retrieve_relevant_chunks e (lit "resume content") 1 f
      = Ok [c2])
  /\ len [c2] <= 1
  /\ [c2] ⊆ chunks e
  /\ (forall s, f = Some s -> s <> [] -> Forall (fun c => source c = s) [c2])
  /\ (Forall (fun c => Cosine.is_nan (Retrieval.similarity q c) = false)
        candidates ->
      StronglySorted
        (fun c d => Cosine.flt (Retrieval.similarity q c)
                      (Retrieval.similarity q d) = false) [c2]
      /\ forall r,
           Retrieval.with_similarity q r [c2]
           `prefix_of` Retrieval.with_similarity q r candidates).
Proof.
  intros one zero C c1 c2 c3 e q f candidates.
  assert (Hk : 0 <= 1) by lia.
  assert (Hq : get_embedding (lit "resume content") = Ok q) by reflexivity.
  assert (Hres : Retrieval.retrieve_relevant_chunks e (lit "resume content")
                   1 f = Ok [c2]) by (vm_compute; reflexivity).
  split; [exact (conj Hk (conj Hq Hres)) |].
  exact (retrieve_relevant_chunks_ranked e (lit "resume content") 1 f q [c2]
           Hk Hq Hres).
Defined.

(** The ranking on a small collection: of two chunks of the resume, the one
    along the query comes first, and with [top_k = 1] it is the only one
    returned; the chunk of the job description is filtered out. *)
Example retrieve_top_one :
  let one := Cosine.of_int 1 in
  let zero := Cosine.of_int 0 in
  let C := constant_collaborators [one; zero] in
  let c1 := mkChunk (lit "a") (lit "resume") (lit "skills") (Some [zero; one]) in
  let c2 := mkChunk (lit "b") (lit "resume") (lit "skills") (Some [one; zero]) in
  let c3 := mkChunk (lit "c") (lit "job_description") (lit "requirements")
              (Some [one; one]) in
  let e := mkEngine [c1; c2; c3] (lit "faiss_indexes") None ∅ in
  Retrieval.similarity [one; zero] c1 = S754_zero false
  /\ Retrieval.similarity [one; zero] c2 = one
  /\ Retrieval.retrieve_relevant_chunks e (lit "resume content") 2
       (Some (lit "resume")) = Ok [c2; c1].
Proof. vm_compute. auto. Qed.

(** C1, at an input where the claim fails: a filter that is the empty
    string. [if source_filter:] takes it for no filter, and the chunk of
    the resume is returned although its source is not the filter. On the
    same chunk the FAISS retrieval, which tests [source_filter is None],
    does filter, and returns nothing. *)
Theorem retrieve_relevant_chunks_empty_filter :
  let one := Cosine.of_int 1 in
  let C := searching_collaborators [one] [0] in
  let c := mkChunk (lit "a") (lit "resume") (lit "summary") (Some [one]) in
  let e := mkEngine [c] (lit "faiss_indexes") None ∅ in
  let e' := mkEngine [c] (lit "faiss_indexes") (Some (mkIx 1 [[one]]))
              {[ 0 := 0 ]} in
  Retrieval.retrieve_relevant_chunks e (lit "q") 5 (Some []) = Ok [c]
  /\ ~ Forall (fun c => source c = []) [c]
  /\ Retrieval.retrieve_relevant_chunks_faiss e' (lit "q") 5 (Some [])
     = Ok [].
Proof.
  intros one C c e e'. split; [vm_compute; reflexivity |].
  split; [| vm_compute; reflexivity].
  intros H. apply Forall_inv in H. discriminate H.
Qed.

(** C10, as the code has it. On vectors of one length [cosine_similarity]
    divides the dot product by the computed product of the two computed
    norms, whatever that product is. A vector whose components are all
    zeros makes the divisor a zero or NaN, and the result NaN, whatever
    the other vector; so in the loop of the brute-force retrieval a
    similarity that is not NaN is computed only from a query embedding
    and a chunk embedding that both have a component other than zero. *)
Theorem cosine_similarity_divisor (e : engine) (source_filter : option str)
    (query_embedding : list float) :
  (forall vec1 vec2,
     (length vec1 = length vec2 ->
      Cosine.cosine_similarity vec1 vec2
      = Ok (Cosine.fdiv (Cosine.dot vec1 vec2)
              (Cosine.denominator vec1 vec2)))
     /\ (~ Cosine.nonzero vec1 \/ ~ Cosine.nonzero vec2 ->
         Cosine.null (Cosine.denominator vec1 vec2) = true
         /\ Cosine.fdiv (Cosine.dot vec1 vec2) (Cosine.denominator vec1 vec2)
            = S754_nan))
  /\ (forall similarities,
        Retrieval.score_chunks query_embedding
          (Retrieval.filter_by_source source_filter (chunks e))
        = Ok similarities ->
        Forall (fun p => Cosine.is_nan (snd p) = false ->
                  Cosine.nonzero query_embedding
                  /\ exists v, embedding (fst p) = Some v
                               /\ Cosine.nonzero v) similarities).
Proof.
  assert (Hnull : forall vec1 vec2,
    ~ Cosine.nonzero vec1 \/ ~ Cosine.nonzero vec2 ->
    Cosine.null (Cosine.denominator vec1 vec2) = true
    /\ Cosine.fdiv (Cosine.dot vec1 vec2) (Cosine.denominator vec1 vec2)
       = S754_nan).
  { intros vec1 vec2 H. apply cosine_null.
    destruct H as [H | H]; [left | right]; now apply not_nonzero. }
  split.
  { intros vec1 vec2. split; [| apply Hnull].
    intros Hlen. unfold Cosine.cosine_similarity.
    destruct (decide (length vec1 = length vec2)); [reflexivity | contradiction]. }
  generalize (Retrieval.filter_by_source source_filter (chunks e)).
  intros cs. induction cs as [|c cs IH]; intros sims Hs;
    cbn [Retrieval.score_chunks] in Hs.
  - injection Hs as <-. constructor.
  - destruct (embedding c) as [[|x v]|] eqn:Hemb; try now apply IH.
    unfold Cosine.cosine_similarity in Hs.
    destruct (decide (length query_embedding = length (x :: v)));
      [| discriminate].
    cbv beta iota delta [mbind result_bind] in Hs.
    destruct (Retrieval.score_chunks query_embedding cs) as [rest|];
      [| discriminate].
    injection Hs as <-. constructor; [| now apply IH].
    cbn [fst snd]. intros Hnan.
    destruct (nonzero_or_zero query_embedding) as [Hq | Hq],
             (nonzero_or_zero (x :: v)) as [Hv | Hv].
    + split; [exact Hq |]. now exists (x :: v).
    + destruct (cosine_null query_embedding (x :: v) (or_intror Hv)) as [_ Hr].
      rewrite Hr in Hnan. discriminate Hnan.
    + destruct (cosine_null query_embedding (x :: v) (or_introl Hq)) as [_ Hr].
      rewrite Hr in Hnan. discriminate Hnan.
    + destruct (cosine_null query_embedding (x :: v) (or_introl Hq)) as [_ Hr].
      rewrite Hr in Hnan. discriminate Hnan.
Qed.

(** The second half of C10 fails in binary64: the vector whose only
    component is 2^-600 has a component other than zero, yet its square
    underflows, its computed norm is 0.0, the divisor is 0.0 and the
    division is 0 / 0. *)
Lemma cosine_similarity_underflow :
  let tiny := S754_finite false 4503599627370496 (-652) in
  valid_binary Cosine.prec Cosine.emax tiny = true
  /\ Cosine.nonzero [tiny]
  /\ Cosine.norm [tiny] = S754_zero false
  /\ Cosine.denominator [tiny] [tiny] = S754_zero false
  /\ Cosine.cosine_similarity [tiny] [tiny] = Ok S754_nan.
Proof.
  intros tiny. split; [reflexivity |].
  split; [constructor 1; reflexivity |].
  repeat split; vm_compute; reflexivity.
Qed.

(** ** FAISS retrieval *)

(** C6. Without a FAISS index, or with an index that holds no vector,
    [retrieve_relevant_chunks_faiss] is [retrieve_relevant_chunks] on the
    chunks in memory: the same chunks, or the same exception. *)
Theorem retrieve_faiss_fallback `{C : Collaborators}
    (e : engine) (query : str) (top_k : Z) (source_filter : option str) :
  faiss_index e = None
  \/ (exists ix, faiss_index e = Some ix /\ ntotal ix = 0) ->
  Retrieval.retrieve_relevant_chunks_faiss e query top_k source_filter
  = Retrieval.retrieve_relevant_chunks e query top_k source_filter.
Proof.
  unfold Retrieval.retrieve_relevant_chunks_faiss.
  intros [-> | (ix & -> & Hn)]; [reflexivity |].
  rewrite Hn. reflexivity.
Qed.

(** An instance of C6's theorem: an index of the pinned dimension that
    holds no vector yet. *)
Lemma retrieve_faiss_fallback_witness :
  let C := constant_collaborators [Cosine.of_int 1] in
  let c := mkChunk (lit "a") (lit "resume") (lit "summary") (Some [Cosine.of_int 1]) in
  let e := mkEngine [c] (lit "faiss_indexes") (Some (mkIx embedding_dim [])) ∅ in
  (faiss_index e = None
   \/ (exists ix, faiss_index e = Some ix /\ ntotal ix = 0))
  /\ Retrieval.retrieve_relevant_chunks_faiss e (lit "q") 5 None
     = Retrieval.retrieve_relevant_chunks e (lit "q") 5 None.
Proof.
  intros C c e.
  assert (H : faiss_index e = None
              \/ (exists ix, faiss_index e = Some ix /\ ntotal ix = 0)).
  { right. eexists. split; reflexivity. }
  split; [exact H |].
  exact (retrieve_faiss_fallback e (lit "q") 5 None H).
Defined.

(** ** Persistence *)

Section PersistenceFacts.
Import Persistence.

Lemma join_ends_with a b : exists pre, OS.join a b = pre ++ b.
Proof.
  unfold OS.join. destruct (startswith (lit "/") b); [now exists [] |].
  destruct (rev a) as [|c r]; [now exists [] |].
  destruct (decide (c = "/"%char)).
  - now exists a.
  - exists (a ++ lit "/"). now rewrite <- app_assoc.
Qed.

(** The two files of a snapshot never share a path. *)
Lemma index_paths_distinct e index_name :
  fst (_get_index_path e index_name) <> snd (_get_index_path e index_name).
Proof.
  unfold _get_index_path. cbn [fst snd].
  destruct (join_ends_with (index_dir e) (index_name ++ lit ".faiss"))
    as [p1 ->].
  destruct (join_ends_with (index_dir e) (index_name ++ lit "_metadata.pkl"))
    as [p2 ->].
  intros H. apply (f_equal (@rev _)) in H.
  rewrite !rev_app_distr in H. simpl in H. discriminate H.
Qed.

Lemma exists_true w path : OS.exists_ w path = true <-> is_Some (files w !! path).
Proof. unfold OS.exists_. apply bool_decide_eq_true. Qed.

Lemma exists_false w path : OS.exists_ w path = false <-> files w !! path = None.
Proof.
  unfold OS.exists_. rewrite bool_decide_eq_false. split.
  - intros H. destruct (files w !! path); [exfalso; eauto | reflexivity].
  - intros -> [x Hx]. discriminate.
Qed.

Lemma write_ok w path f :
  OS.writable w path ->
  OS.write w path f = Ok (set_files (<[path := f]> (files w)) w).
Proof.
  intros [Hd Hdir]. unfold OS.write. rewrite Hd.
  destruct (files w !! path) as [[]|]; try reflexivity. contradiction.
Qed.

End PersistenceFacts.

(** C2. Let the engine hold an index and at least one chunk, and let the
    system accept the two writes. After [_save_index] under a name,
    [_load_index] under the same name, by any engine on the same
    directory, returns [True] and leaves that engine with the chunks, in
    their order and with all their fields, the identifier-to-chunk mapping
    and the index that were saved. *)
Theorem save_then_load_roundtrip (e e0 : engine) (w : world) (index_name : str)
    (ix : faiss_ix) :
  faiss_index e = Some ix ->
  chunks e <> [] ->
  OS.writable w (fst (Persistence._get_index_path e index_name)) ->
  OS.writable w (snd (Persistence._get_index_path e index_name)) ->
  index_dir e0 = index_dir e ->
  exists e',
    Persistence._load_index e0 (Persistence._save_index e w index_name)
      index_name = (true, e')
    /\ chunks e' = chunks e
    /\ index_to_chunk_map e' = index_to_chunk_map e
    /\ faiss_index e' = faiss_index e.
Proof.
  intros Hix Hcs Hw1 Hw2 Hdir.
  pose proof (index_paths_distinct e index_name) as Hne.
  unfold Persistence._save_index, Persistence._load_index.
  assert (Hp : Persistence._get_index_path e0 index_name
               = Persistence._get_index_path e index_name).
  { unfold Persistence._get_index_path. now rewrite Hdir. }
  rewrite Hp, Hix.
  destruct (Persistence._get_index_path e index_name) as [fp mp].
  simpl in Hw1, Hw2, Hne.
  assert (Hlen : (len (chunks e) =? 0) = false).
  { apply Z.eqb_neq. unfold len. destruct (chunks e); [easy | simpl; lia]. }
  rewrite Hlen, (write_ok w fp) by assumption.
  rewrite write_ok.
  2:{ destruct Hw2 as [Hd Hdir2]. split; [exact Hd |]. simpl.
      now rewrite lookup_insert_ne. }
  unfold OS.exists_, OS.read_index, OS.pickle_load. simpl.
  rewrite lookup_insert_eq.
  rewrite lookup_insert_ne by congruence. rewrite lookup_insert_eq.
  rewrite !bool_decide_eq_true_2 by eauto. simpl.
  eexists. split; [reflexivity |]. simpl. auto.
Qed.

(** An instance of C2's theorem: one embedded chunk, one vector, an empty
    file system that refuses nothing. *)
Lemma save_then_load_roundtrip_witness :
  let c := mkChunk (lit "Python, Go") (lit "resume") (lit "skills")
             (Some [Cosine.of_int 1]) in
  let ix := mkIx 1 [[Cosine.of_int 1]] in
  let e := mkEngine [c] (lit "faiss_indexes") (Some ix) {[ 0 := 0 ]} in
  let e0 := mkEngine [] (lit "faiss_indexes") None ∅ in
  let w := mkWorld ∅ (fun _ => false) (fun _ => false)
             (lit "2024-01-01T00:00:00") (lit "20240101_000000") in
  (faiss_index e = Some ix
   /\ chunks e <> []
   /\ OS.writable w (fst (Persistence._get_index_path e (lit "default")))
   /\ OS.writable w (snd (Persistence._get_index_path e (lit "default")))
   /\ index_dir e0 = index_dir e)
  /\ exists e',
       Persistence._load_index e0 (Persistence._save_index e w (lit "default"))
         (lit "default") = (true, e')
       /\ chunks e' = chunks e
       /\ index_to_chunk_map e' = index_to_chunk_map e
       /\ faiss_index e' = faiss_index e.
Proof.
  intros c ix e e0 w.
  assert (H1 : faiss_index e = Some ix) by reflexivity.
  assert (H2 : chunks e <> []) by discriminate.
  assert (H3 : OS.writable w (fst (Persistence._get_index_path e (lit "default")))).
  { split; [reflexivity |]. simpl. rewrite lookup_empty. discriminate. }
  assert (H4 : OS.writable w (snd (Persistence._get_index_path e (lit "default")))).
  { split; [reflexivity |]. simpl. rewrite lookup_empty. discriminate. }
  assert (H5 : index_dir e0 = index_dir e) by reflexivity.
  split; [exact (conj H1 (conj H2 (conj H3 (conj H4 H5)))) |].
  exact (save_then_load_roundtrip e e0 w (lit "default") ix H1 H2 H3 H4 H5).
Defined.

(** What [_load_index] does keep: with one of the two files missing it
    returns [False] and leaves the engine as it was, and when it returns
    [True] the index, the chunks and the mapping are those of the files. *)
Lemma load_index_missing_file (e : engine) (w : world) (index_name : str) :
  OS.exists_ w (fst (Persistence._get_index_path e index_name)) = false
  \/ OS.exists_ w (snd (Persistence._get_index_path e index_name)) = false ->
  Persistence._load_index e w index_name = (false, e).
Proof.
  unfold Persistence._load_index.
  destruct (Persistence._get_index_path e index_name) as [fp mp]. simpl.
  intros [-> | ->]; [reflexivity |]. now rewrite andb_false_r.
Qed.

Lemma load_index_success (e e' : engine) (w : world) (index_name : str) :
  Persistence._load_index e w index_name = (true, e') ->
  exists ix md cs m,
    OS.read_index w (fst (Persistence._get_index_path e index_name)) = Ok ix
    /\ OS.pickle_load w (snd (Persistence._get_index_path e index_name)) = Ok md
    /\ md_chunks md = Some cs
    /\ md_index_to_chunk_map md = Some m
    /\ e' = mkEngine cs (index_dir e) (Some ix) m.
Proof.
  unfold Persistence._load_index.
  destruct (Persistence._get_index_path e index_name) as [fp mp]. simpl.
  destruct (_ && _); [| discriminate].
  destruct (OS.read_index w fp) as [ix|]; [| discriminate].
  destruct (OS.pickle_load w mp) as [md|]; [| discriminate].
  destruct (md_chunks md) as [cs|] eqn:Hcs; [| discriminate].
  destruct (md_index_to_chunk_map md) as [m|] eqn:Hm; [| discriminate].
  intros [= <-]. now exists ix, md, cs, m.
Qed.

(** C5, at an input where the claim fails: a snapshot whose index file is
    sound and whose metadata file is not a pickle. [_load_index] returns
    [False], the chunks and the mapping are the old ones, and the index of
    the engine has been replaced by the index of the file. *)
Theorem load_index_corrupt_metadata :
  let c := mkChunk (lit "Python, Go") (lit "resume") (lit "skills")
             (Some [Cosine.of_int 1]) in
  let old_ix := mkIx 1 [[Cosine.of_int 1]] in
  let new_ix := mkIx 1 [[Cosine.of_int 2]; [Cosine.of_int 3]] in
  let e := mkEngine [c] (lit "faiss_indexes") (Some old_ix) {[ 0 := 0 ]} in
  let w := mkWorld
             (<[lit "faiss_indexes/default.faiss" := FaissFile new_ix]>
                (<[lit "faiss_indexes/default_metadata.pkl" :=
                     OtherFile (lit "not a pickle")]> ∅))
             (fun _ => false) (fun _ => false)
             (lit "2024-01-01T00:00:00") (lit "20240101_000000") in
  Persistence._load_index e w (lit "default")
  = (false, mkEngine [c] (lit "faiss_indexes") (Some new_ix) {[ 0 := 0 ]})
  /\ faiss_index (snd (Persistence._load_index e w (lit "default")))
     <> faiss_index e.
Proof.
  intros c old_ix new_ix e w.
  assert (H : Persistence._load_index e w (lit "default")
              = (false, mkEngine [c] (lit "faiss_indexes") (Some new_ix)
                          {[ 0 := 0 ]})).
  { vm_compute. reflexivity. }
  split; [exact H |]. rewrite H. simpl. discriminate.
Qed.

Section DeleteFacts.
Import Persistence.

(** Removing one file leaves the fate of another path as it was. *)
Lemma remove_other w w1 path path' :
  path <> path' -> OS.remove w path = Ok w1 ->
  OS.exists_ w1 path' = OS.exists_ w path'
  /\ is_ok (OS.remove w1 path') = is_ok (OS.remove w path').
Proof.
  intros Hne. unfold OS.remove, OS.exists_.
  destruct (remove_denied w path); [discriminate |].
  destruct (files w !! path) as [[]|]; try discriminate;
    intros [= <-]; simpl; rewrite lookup_delete_ne by assumption;
    (split; [reflexivity |]);
    destruct (remove_denied w path'); [reflexivity | | reflexivity |
                                       | reflexivity |];
    destruct (files w !! path') as [[]|]; reflexivity.
Qed.

End DeleteFacts.

(** C8. When neither file of the name exists, [delete_index] returns [True]
    and touches nothing; and when one of the two files exists and its
    removal raises, [delete_index] returns [False]. *)
Theorem delete_index_reports (e : engine) (w : world) (index_name : str) :
  let faiss_path := fst (Persistence._get_index_path e index_name) in
  let metadata_path := snd (Persistence._get_index_path e index_name) in
  (OS.exists_ w faiss_path = false -> OS.exists_ w metadata_path = false ->
   Persistence.delete_index e w index_name = (true, w))
  /\ (OS.exists_ w faiss_path = true ->
      is_ok (OS.remove w faiss_path) = false ->
      fst (Persistence.delete_index e w index_name) = false)
  /\ (OS.exists_ w metadata_path = true ->
      is_ok (OS.remove w metadata_path) = false ->
      fst (Persistence.delete_index e w index_name) = false).
Proof.
  intros faiss_path metadata_path.
  pose proof (index_paths_distinct e index_name) as Hne.
  fold faiss_path metadata_path in Hne.
  unfold Persistence.delete_index.
  rewrite (surjective_pairing (Persistence._get_index_path e index_name)).
  fold faiss_path metadata_path.
  repeat split.
  - intros H1 H2. now rewrite H1, H2.
  - intros H1 H2. rewrite H1.
    destruct (OS.remove w faiss_path); [discriminate | reflexivity].
  - intros H1 H2.
    destruct (OS.exists_ w faiss_path).
    + destruct (OS.remove w faiss_path) as [w1|] eqn:Hr; [| reflexivity].
      destruct (remove_other w w1 _ _ Hne Hr) as [-> Hok].
      rewrite H1, H2 in *.
      destruct (OS.remove w1 metadata_path); [discriminate | reflexivity].
    + rewrite H1.
      destruct (OS.remove w metadata_path); [discriminate | reflexivity].
Qed.

(** Two instances of C8's theorem: a name that was never saved, and a
    snapshot whose index file the system refuses to remove. *)
Lemma delete_index_reports_witness :
  let e := mkEngine [] (lit "faiss_indexes") None ∅ in
  let w := mkWorld ∅ (fun _ => false) (fun _ => false)
             (lit "2024-01-01T00:00:00") (lit "20240101_000000") in
  let faiss_path := fst (Persistence._get_index_path e (lit "default")) in
  let metadata_path := snd (Persistence._get_index_path e (lit "default")) in
  let w' := mkWorld
              (<[faiss_path := FaissFile (mkIx 1 [[Cosine.of_int 1]])]>
                 (<[metadata_path := PickleFile
                      (mkMetadata (Some []) (Some ∅) None None)]> ∅))
              (fun _ => false) (fun _ => true)
              (lit "2024-01-01T00:00:00") (lit "20240101_000000") in
  ((OS.exists_ w faiss_path = false /\ OS.exists_ w metadata_path = false)
   /\ Persistence.delete_index e w (lit "default") = (true, w))
  /\ ((OS.exists_ w' faiss_path = true
       /\ is_ok (OS.remove w' faiss_path) = false)
      /\ fst (Persistence.delete_index e w' (lit "default")) = false).
Proof.
  intros e w faiss_path metadata_path w'.
  assert (H1 : OS.exists_ w faiss_path = false) by reflexivity.
  assert (H2 : OS.exists_ w metadata_path = false) by reflexivity.
  assert (H3 : OS.exists_ w' faiss_path = true).
  { apply exists_true. simpl. rewrite lookup_insert_eq. eauto. }
  assert (H4 : is_ok (OS.remove w' faiss_path) = false) by reflexivity.
  split.
  - split; [exact (conj H1 H2) |].
    exact (proj1 (delete_index_reports e w (lit "default")) H1 H2).
  - split; [exact (conj H3 H4) |].
    exact (proj1 (proj2 (delete_index_reports e w' (lit "default"))) H3 H4).
Defined.

(** ** Indexing with FAISS *)

Section IndexingFacts.
Import Indexing.
Context {C : Collaborators}.

Lemma flush_source src sec cs cur :
  Forall (fun c => source c = src) cs ->
  Forall (fun c => source c = src) (Chunker.flush src sec cs cur).
Proof.
  intros H. unfold Chunker.flush. destruct (truthy _); [| assumption].
  apply Forall_app. split; [assumption |]. repeat constructor.
Qed.

(** Every chunk of [chunk_text] carries the source it was given. *)
Lemma chunk_text_source t src sec size :
  Forall (fun c => source c = src) (Chunker.chunk_text t src sec size).
Proof.
  unfold Chunker.chunk_text.
  assert (H : forall ps st,
    Forall (fun c => source c = src) (fst st) ->
    Forall (fun c => source c = src)
      (fst (fold_left (Chunker.step src sec size) ps st))).
  { induction ps as [|p ps IH]; intros [cs cur] Hst; [assumption |].
    simpl. apply IH. destruct (_ <? _); simpl; [assumption |].
    now apply flush_source. }
  specialize (H (split Chunker.para_sep t) ([], []) (List.Forall_nil _)).
  destruct (fold_left _ _ _) as [cs cur]. now apply flush_source.
Qed.

Lemma consecutive_S start n :
  consecutive start (S n) = start :: consecutive (start + 1) n.
Proof.
  unfold consecutive. cbn [seq map]. f_equal; [lia |].
  rewrite <- seq_shift, List.map_map. apply map_ext. intros i. lia.
Qed.

Lemma consecutive_app start n m :
  consecutive start n ++ consecutive (start + Z.of_nat n) m
  = consecutive start (n + m).
Proof.
  revert start. induction n as [|n IH]; intros start.
  - simpl. f_equal. lia.
  - cbn [Nat.add]. rewrite !consecutive_S. simpl. f_equal.
    rewrite <- IH. do 2 f_equal. lia.
Qed.

Lemma appended_refl s st : appended s st st.
Proof.
  destruct st as [[e embs] idxs]. exists [], [].
  rewrite !app_nil_r. repeat split; constructor.
Qed.

Lemma appended_trans s st1 st2 st3 :
  appended s st1 st2 -> appended s st2 st3 -> appended s st1 st3.
Proof.
  destruct st1 as [[e1 embs1] idxs1], st2 as [[e2 embs2] idxs2],
    st3 as [[e3 embs3] idxs3].
  intros (cs & vs & Hc & Hs & Hd & Hf & Hm & He & Hl & Hi)
         (cs' & vs' & Hc' & Hs' & Hd' & Hf' & Hm' & He' & Hl' & Hi').
  exists (cs ++ cs'), (vs ++ vs'). repeat split.
  - now rewrite Hc', Hc, app_assoc.
  - now apply Forall_app.
  - congruence.
  - congruence.
  - congruence.
  - now rewrite He', He, app_assoc.
  - rewrite !length_app. lia.
  - rewrite Hi', Hi, Hc, <- app_assoc. f_equal.
    rewrite length_app, <- consecutive_app. f_equal.
    unfold len. rewrite length_app. f_equal. lia.
Qed.

Lemma embed_and_append_appended st chunk st1 :
  embed_and_append st chunk = Ok st1 -> appended (source chunk) st st1.
Proof.
  destruct st as [[e embs] idxs]. unfold embed_and_append.
  destruct (get_embedding (text chunk)) as [v|]; [| discriminate].
  cbv beta iota delta [mbind result_bind]. intros [= <-].
  exists [with_embedding chunk v], [v]. repeat split.
  - repeat constructor.
  - simpl. unfold consecutive. simpl. do 2 f_equal.
    unfold len. rewrite length_app. simpl. lia.
Qed.

Lemma foldM_appended {A} s (f : _ -> A -> result _) l :
  (forall st a st1, a ∈ l -> f st a = Ok st1 -> appended s st st1) ->
  forall st st1, foldM f l st = Ok st1 -> appended s st st1.
Proof.
  induction l as [|a l IH]; intros Hf st st1; cbn [foldM].
  - intros [= <-]. apply appended_refl.
  - destruct (f st a) as [st'|] eqn:Hfa; [| discriminate].
    cbv beta iota delta [mbind result_bind]. intros Hrest.
    apply (appended_trans s st st' st1).
    + apply (Hf st a st'); [left | assumption].
    + apply IH; [| assumption]. intros st0 b st2 Hb. apply Hf. now right.
Qed.

(** The loop over the chunks of one text. *)
Lemma embed_loop_appended s cs st st1 :
  Forall (fun c => source c = s) cs ->
  foldM embed_and_append cs st = Ok st1 -> appended s st st1.
Proof.
  intros Hs. apply foldM_appended. intros st0 c st2 Hc Hr.
  rewrite Forall_forall in Hs. rewrite <- (Hs c Hc).
  now apply embed_and_append_appended.
Qed.

Lemma update_mapping_consecutive n start m i :
  update_mapping start (consecutive start n) m !! i
  = if decide (start <= i < start + Z.of_nat n) then Some i else m !! i.
Proof.
  revert start m. induction n as [|n IH]; intros start m.
  - simpl. destruct (decide _); [lia | reflexivity].
  - rewrite consecutive_S. cbn [update_mapping]. rewrite IH.
    destruct (decide (start + 1 <= i < start + 1 + Z.of_nat n)),
             (decide (start <= i < start + Z.of_nat (S n))); try lia;
      try reflexivity.
    + assert (i = start) as -> by lia. apply lookup_insert_eq.
    + apply lookup_insert_ne. lia.
Qed.

Lemma add_to_faiss_index_spec e arr idxs e' :
  _add_to_faiss_index e arr idxs = Ok e' ->
  chunks e' = chunks e
  /\ stored e' = stored e + len (snd arr)
  /\ index_to_chunk_map e'
     = update_mapping (stored e) idxs (index_to_chunk_map e).
Proof.
  unfold _add_to_faiss_index, stored, faiss_add, ntotal, len.
  destruct (faiss_index e) as [ix|] eqn:Hix; simpl; rewrite ?Hix;
    destruct (Nat.eqb _ _); try discriminate;
    cbv beta iota delta [mbind result_bind]; intros [= <-]; simpl;
    rewrite ?length_app; repeat split; lia.
Qed.

Lemma np_array_length rows arr :
  np_array rows = Ok arr -> length (snd arr) = length rows.
Proof.
  unfold np_array. destruct rows as [|r rows]; [now intros [= <-] |].
  destruct (forallb _ _); [| discriminate].
  intros [= <-]. simpl. now rewrite length_map.
Qed.

(** One indexing function keeps the engine aligned. *)
Lemma add_and_save_aligned s e0 e1 e2 w w2 embs idxs save index_name :
  s = lit "resume" \/ s = lit "job_description" ->
  aligned e0 ->
  appended s (e0, [], []) (e1, embs, idxs) ->
  add_and_save e1 w embs idxs save index_name = Ok (e2, w2) ->
  aligned e2.
Proof.
  intros Hs (Hst & Hmap & Hsrc)
         (cs & vs & Hc & Hcs & _ & Hf & Hm & -> & Hl & ->).
  unfold add_and_save. simpl.
  assert (Hsrc' : Forall (fun c => source c = lit "resume"
                          \/ source c = lit "job_description")
                    (chunks e0 ++ cs)).
  { apply Forall_app. split; [assumption |].
    eapply Forall_impl; [exact Hcs |]. simpl. intros c <-. exact Hs. }
  assert (Hst1 : stored e1 = stored e0) by (unfold stored; now rewrite Hf).
  destruct vs as [|v vs].
  - destruct cs; [| discriminate].
    cbv beta iota delta [mbind result_bind]. intros [= <- _].
    rewrite app_nil_r in Hc, Hsrc'. unfold aligned.
    rewrite Hst1, Hc, Hm. auto.
  - destruct (np_array (v :: vs)) as [arr|] eqn:Harr; [| discriminate].
    cbv beta iota delta [mbind result_bind].
    destruct (_add_to_faiss_index e1 arr _) as [e'|] eqn:Hadd;
      [| discriminate].
    intros [= <- _].
    apply add_to_faiss_index_spec in Hadd as (Hc2 & Hst2 & Hm2).
    apply np_array_length in Harr.
    assert (Hlen : len (chunks e0 ++ cs)
                   = len (chunks e0) + Z.of_nat (length cs)).
    { unfold len. rewrite length_app. lia. }
    unfold aligned. rewrite Hc2, Hc. repeat split.
    + rewrite Hst2, Hst1, Hst, Hlen. unfold len. lia.
    + intros i. rewrite Hm2, Hst1, Hst, Hm, update_mapping_consecutive.
      rewrite Hmap, Hlen.
      destruct (decide (len (chunks e0) <= i
                        < len (chunks e0) + Z.of_nat (length cs))),
               (decide (0 <= i < len (chunks e0) + Z.of_nat (length cs))),
               (decide (0 <= i < len (chunks e0)));
        try reflexivity; unfold len in *; lia.
    + assumption.
Qed.

Lemma aligned_clear_index e : aligned (clear_index e).
Proof.
  unfold aligned, clear_index, stored. simpl. repeat split.
  - intros i. rewrite lookup_empty. destruct (decide _); [| reflexivity].
    unfold len in *. simpl in *. lia.
  - constructor.
Qed.

Lemma index_resume_with_faiss_aligned e w resume_text save index_name e' w' :
  index_resume_with_faiss e w resume_text save index_name = Ok (e', w') ->
  aligned e'.
Proof.
  unfold index_resume_with_faiss.
  destruct (foldM _ (Sections._detect_sections resume_text) _)
    as [[[e1 embs] idxs]|] eqn:Hloop; [| discriminate].
  cbv beta iota delta [mbind result_bind]. intros Hadd.
  apply (add_and_save_aligned (lit "resume") (clear_index e) e1 e' w w'
           embs idxs save index_name); auto using aligned_clear_index.
  revert Hloop. apply foldM_appended.
  intros st [section_name section_text] st1 _.
  apply embed_loop_appended, chunk_text_source.
Qed.

Lemma index_job_description_with_faiss_aligned
    e w jd_text save index_name e' w' :
  aligned e ->
  index_job_description_with_faiss e w jd_text save index_name = Ok (e', w') ->
  aligned e'.
Proof.
  intros He. unfold index_job_description_with_faiss.
  destruct (foldM _ _ _) as [[[e1 embs] idxs]|] eqn:Hloop; [| discriminate].
  cbv beta iota delta [mbind result_bind]. intros Hadd.
  apply (add_and_save_aligned (lit "job_description") e e1 e' w w'
           embs idxs save index_name); auto.
  revert Hloop. apply embed_loop_appended, chunk_text_source.
Qed.

Lemma embed_chunks_spec s cs cs' :
  embed_chunks cs = Ok cs' ->
  Forall (fun c => source c = s) cs ->
  Forall (fun c => source c = s) cs' /\ length cs' = length cs.
Proof.
  revert cs'. induction cs as [|c cs IH]; intros cs'; cbn [embed_chunks].
  - intros [= <-] _. split; [constructor | reflexivity].
  - destruct (get_embedding (text c)) as [v|]; [| discriminate].
    cbv beta iota delta [mbind result_bind].
    destruct (embed_chunks cs) as [rest|]; [| discriminate].
    intros [= <-] Hs. apply Forall_cons in Hs as [Hc Hs].
    destruct (IH rest eq_refl Hs) as [Hr Hl].
    split; [constructor; assumption | simpl; congruence].
Qed.

(** [index_ats_rules] appends the chunks of the rules, one per chunk of
    a rule text, and touches neither the index nor the mapping. *)
Lemma index_rules_spec (rules : list (str * list str * Z)) e e' :
  foldM (fun e' '(category, rules, _) =>
           let rule_text := category ++ lit ": " ++ join (lit " ") rules in
           chunks' ← embed_chunks
                       (Chunker.chunk_text rule_text (lit "ats_rules")
                          category Chunker.default_chunk_size);
           Ok (set_chunks (chunks e' ++ chunks') e'))
    rules e = Ok e' ->
  exists cs,
    chunks e' = chunks e ++ cs
    /\ Forall (fun c => source c = lit "ats_rules") cs
    /\ faiss_index e' = faiss_index e
    /\ index_to_chunk_map e' = index_to_chunk_map e
    /\ length cs
       = list_sum
           (map (fun '(category, rules, _) =>
                   length (Chunker.chunk_text
                             (category ++ lit ": " ++ join (lit " ") rules)
                             (lit "ats_rules") category
                             Chunker.default_chunk_size))
              rules).
Proof.
  revert e. induction rules as [|[[category rs] weight] rules IH];
    intros e; cbn [foldM].
  - intros [= <-]. exists []. rewrite app_nil_r. repeat split. constructor.
  - destruct (embed_chunks _) as [cs1|] eqn:Hemb; [| discriminate].
    cbv beta iota delta [mbind result_bind]. intros Hrest.
    destruct (IH _ Hrest) as (cs2 & Hc & Hs & Hf & Hm & Hl).
    destruct (embed_chunks_spec (lit "ats_rules") _ _ Hemb
                (chunk_text_source _ _ _ _)) as [Hs1 Hl1].
    exists (cs1 ++ cs2). simpl in Hc, Hf, Hm. repeat split.
    + now rewrite Hc, app_assoc.
    + now apply Forall_app.
    + assumption.
    + assumption.
    + rewrite length_app, Hl, Hl1. reflexivity.
Qed.

Lemma index_ats_rules_spec e e' :
  index_ats_rules e = Ok e' ->
  exists cs,
    chunks e' = chunks e ++ cs
    /\ Forall (fun c => source c = lit "ats_rules") cs
    /\ faiss_index e' = faiss_index e
    /\ index_to_chunk_map e' = index_to_chunk_map e
    /\ length cs = 5%nat.
Proof.
  intros H. apply index_rules_spec in H as (cs & Hc & Hs & Hf & Hm & Hl).
  exists cs. split; [assumption |]. split; [assumption |].
  split; [assumption |]. split; [assumption |].
  rewrite Hl. vm_compute. reflexivity.
Qed.

End IndexingFacts.

(** The engine [analyze_with_rag_faiss] leaves is the engine its indexing
    steps leave: the retrievals and the generation change nothing. *)
Lemma analyze_with_rag_faiss_engine `{C : Collaborators}
    (e : engine) (w : world) (resume_text : str)
    (job_description index_name : option str)
    (a : Indexing.analysis) (e' : engine) (w' : world) :
  Indexing.analyze_with_rag_faiss e w resume_text job_description index_name
  = Ok (a, e', w') ->
  Indexing.index_documents e w resume_text job_description
    (Indexing.faiss_index_name a) = Ok (e', w')
  /\ Indexing.total_chunks_indexed a = len (chunks e').
Proof.
  unfold Indexing.analyze_with_rag_faiss.
  destruct (Indexing.index_documents _ _ _ _ _) as [[e3 w2]|] eqn:Hidx;
    [| discriminate].
  cbv beta iota delta [mbind result_bind].
  destruct (Retrieval.retrieve_relevant_chunks_faiss e3 (lit "resume content")
              _ _); [| discriminate].
  destruct (if truthy_opt job_description then _ else _); [| discriminate].
  destruct (Retrieval.retrieve_relevant_chunks_faiss e3
              (lit "ATS scoring rules") _ _); [| discriminate].
  destruct (_generate_analysis _ _); [| discriminate].
  intros [= <- <- <-]. simpl. split; [exact Hidx | reflexivity].
Qed.

(** C9. When the indexing of [analyze_with_rag_faiss] completes, the
    collection is the chunks of the resume and of the job description
    followed by the five chunks of the rules; the FAISS index holds one
    vector for each chunk of the first group and none for the rules; the
    vector [i] is mapped to the chunk [i], a chunk of the resume or of the
    job description; and no identifier of the mapping leads to a chunk of
    the rules. *)
Theorem index_documents_mapping `{C : Collaborators}
    (e : engine) (w : world) (resume_text : str)
    (job_description : option str) (index_name : str)
    (e' : engine) (w' : world) :
  Indexing.index_documents e w resume_text job_description index_name
  = Ok (e', w') ->
  exists indexed rules,
    chunks e' = indexed ++ rules
    /\ Forall (fun c => source c = lit "resume"
                        \/ source c = lit "job_description") indexed
    /\ Forall (fun c => source c = lit "ats_rules") rules
    /\ length rules = 5%nat
    /\ stored e' = len indexed
    /\ (forall i, 0 <= i < stored e' ->
          index_to_chunk_map e' !! i = Some i
          /\ exists c, PyList.index (chunks e') i = Ok c
                       /\ (source c = lit "resume"
                           \/ source c = lit "job_description"))
    /\ (forall i j, index_to_chunk_map e' !! i = Some j ->
          exists c, PyList.index (chunks e') j = Ok c
                    /\ source c <> lit "ats_rules").
Proof.
  unfold Indexing.index_documents.
  destruct (Indexing.index_resume_with_faiss _ _ _ _ _) as [[e1 w1]|] eqn:H1;
    [| discriminate].
  cbv beta iota delta [mbind result_bind].
  apply index_resume_with_faiss_aligned in H1.
  assert (H2 : forall e2 w2,
    (if truthy_opt job_description
     then Indexing.index_job_description_with_faiss e1 w1
            (default [] job_description) true index_name
     else Ok (e1, w1)) = Ok (e2, w2) -> Indexing.aligned e2).
  { intros e2 w2. destruct (truthy_opt job_description).
    - now apply index_job_description_with_faiss_aligned.
    - now intros [= <- _]. }
  destruct (if truthy_opt job_description then _ else _) as [[e2 w2]|];
    [| discriminate].
  specialize (H2 e2 w2 eq_refl). destruct H2 as (Hst & Hmap & Hsrc).
  destruct (Indexing.index_ats_rules e2) as [e3|] eqn:H3; [| discriminate].
  intros [= <- <-].
  apply index_ats_rules_spec in H3 as (rules & Hc & Hs & Hf & Hm & Hl).
  assert (Hst3 : stored e3 = len (chunks e2)).
  { unfold stored in *. now rewrite Hf. }
  assert (Hget : forall i, 0 <= i < len (chunks e2) ->
            exists c, PyList.index (chunks e3) i = Ok c
                      /\ (source c = lit "resume"
                          \/ source c = lit "job_description")).
  { intros i Hi. unfold PyList.index.
    destruct (0 <=? i) eqn:Hpos; [| apply Z.leb_gt in Hpos; lia].
    rewrite Hpos, Hc. unfold len in Hi.
    destruct (chunks e2 !! Z.to_nat i) as [c|] eqn:Hlook.
    - rewrite (lookup_app_l_Some _ _ _ _ Hlook). exists c. split; [reflexivity |].
      rewrite Forall_forall in Hsrc. apply Hsrc.
      now apply list_elem_of_lookup_2 in Hlook.
    - apply lookup_ge_None in Hlook. lia. }
  exists (chunks e2), rules. repeat split; try assumption.
  - rewrite Hm, Hmap. destruct (decide _) as [|Hn]; [reflexivity |].
    rewrite Hst3 in H. contradiction.
  - apply Hget. now rewrite <- Hst3.
  - intros i j Hij. rewrite Hm, Hmap in Hij.
    destruct (decide (0 <= i < len (chunks e2))) as [Hi|]; [| discriminate].
    injection Hij as <-. destruct (Hget i Hi) as (c & Hc' & [Hr | Hr]);
      exists c; (split; [assumption |]); rewrite Hr; discriminate.
Qed.

(** An instance of C9's theorem: a resume of one section, no job
    description, and embeddings of the pinned dimension. *)
Lemma index_documents_mapping_witness :
  let C := constant_collaborators unit_embedding in
  let e := mkEngine [] (lit "faiss_indexes") None ∅ in
  let w := mkWorld ∅ (fun _ => false) (fun _ => false)
             (lit "2024-01-01T00:00:00") (lit "20240101_000000") in
  exists e' w',
    Indexing.index_documents e w (lit "Skills\nPython, Go") None (lit "s1")
    = Ok (e', w')
    /\ stored e' = 1
    /\ exists indexed rules,
         chunks e' = indexed ++ rules
         /\ Forall (fun c => source c = lit "resume"
                             \/ source c = lit "job_description") indexed
         /\ Forall (fun c => source c = lit "ats_rules") rules
         /\ length rules = 5%nat
         /\ stored e' = len indexed
         /\ (forall i, 0 <= i < stored e' ->
               index_to_chunk_map e' !! i = Some i
               /\ exists c, PyList.index (chunks e') i = Ok c
                            /\ (source c = lit "resume"
                                \/ source c = lit "job_description"))
         /\ (forall i j, index_to_chunk_map e' !! i = Some j ->
               exists c, PyList.index (chunks e') j = Ok c
                         /\ source c <> lit "ats_rules").
Proof.
  intros C e w. eexists. eexists.
  assert (H : Indexing.index_documents e w (lit "Skills\nPython, Go") None
                (lit "s1") = Ok (_, _)) by (vm_compute; reflexivity).
  split; [exact H |]. split; [vm_compute; reflexivity |].
  exact (index_documents_mapping e w _ None (lit "s1") _ _ H).
Defined.

(** * Further properties *)

(** ** The chunker: sizes, short texts, blank texts *)

Section ChunkerMore.
Import Chunker.

Lemma len_app {A} (l1 l2 : list A) : len (l1 ++ l2) = len l1 + len l2.
Proof. unfold len. rewrite length_app. lia. Qed.

Lemma strip_length s : len (strip s) <= len s.
Proof.
  destruct (strip_split s) as (w1 & w2 & _ & _ & Hs).
  rewrite Hs at 2. rewrite !len_app. unfold len. lia.
Qed.

Lemma lstrip_head c r s : lstrip s = c :: r -> isspace c = false.
Proof.
  induction s as [|a s IH]; simpl; [discriminate |].
  destruct (isspace a) eqn:Ha; [assumption |]. now intros [= <- _].
Qed.

Lemma rstrip_head s : rstrip s <> [] -> head (rstrip s) = head s.
Proof.
  intros Hne. destruct (rstrip_split s) as (w & _ & Hs).
  rewrite Hs at 2. destruct (rstrip s); [contradiction | reflexivity].
Qed.

(** A trimmed string that is not empty begins and ends with a visible
    character. *)
Lemma strip_visible_ends s :
  strip s <> [] ->
  starts_visible (strip s) = true /\ starts_visible (rev (strip s)) = true.
Proof.
  intros Hne. split.
  - unfold strip in *. pose proof (rstrip_head (lstrip s) Hne) as Hh.
    destruct (rstrip (lstrip s)) as [|c r]; [contradiction |].
    simpl in Hh. destruct (lstrip s) as [|c' r'] eqn:Hl; [discriminate |].
    injection Hh as ->. simpl. now rewrite (lstrip_head _ _ _ Hl).
  - unfold strip, rstrip in *. rewrite rev_involutive.
    destruct (lstrip (rev (lstrip s))) as [|c r] eqn:Hl; [contradiction |].
    simpl. now rewrite (lstrip_head _ _ _ Hl).
Qed.

Lemma strip_fixed s :
  starts_visible s = true -> starts_visible (rev s) = true -> strip s = s.
Proof.
  intros H1 H2.
  assert (Hl : forall t, starts_visible t = true -> lstrip t = t).
  { intros [|c t]; [discriminate |]. simpl. intros H.
    now destruct (isspace c). }
  unfold strip, rstrip. rewrite (Hl s H1), (Hl (rev s) H2).
  apply rev_involutive.
Qed.

(** What every chunk of [flush] and of the loop satisfies, for a property
    of chunks that holds of each newly closed buffer. *)
Lemma chunk_text_each (P : Chunk -> Prop) (Q : str -> Prop) input src sec size :
  (forall cur, Q cur -> strip cur <> [] ->
     P (mkChunk (strip cur) src sec None)) ->
  Q [] ->
  (forall cur p, Q cur -> In p (split para_sep input) ->
     len cur + len p < size -> Q (cur ++ p ++ para_sep)) ->
  (forall p, In p (split para_sep input) -> Q (p ++ para_sep)) ->
  Forall P (chunk_text input src sec size).
Proof.
  intros Hflush Hnil Hext Hnew.
  assert (Hfl : forall cs cur, Forall P cs -> Q cur ->
                  Forall P (flush src sec cs cur)).
  { intros cs cur Hcs Hcur. unfold flush.
    destruct (strip cur) as [|c r] eqn:Hs; simpl; [assumption |].
    apply Forall_app. split; [assumption |]. constructor; [| constructor].
    rewrite <- Hs. apply Hflush; [assumption |]. now rewrite Hs. }
  unfold chunk_text.
  assert (H : forall ps st,
    (forall p, In p ps -> In p (split para_sep input)) ->
    Forall P (fst st) -> Q (snd st) ->
    Forall P (fst (fold_left (step src sec size) ps st))
    /\ Q (snd (fold_left (step src sec size) ps st))).
  { induction ps as [|p ps IH]; intros [cs cur] Hin Hcs Hcur; [now split |].
    simpl. apply IH.
    - intros p' Hp'. apply Hin. now right.
    - destruct (_ <? _); simpl; [assumption | now apply Hfl].
    - destruct (len cur + len p <? size) eqn:Hlt; simpl.
      + apply Hext; [assumption | apply Hin; now left | now apply Z.ltb_lt].
      + apply Hnew, Hin. now left. }
  specialize (H (split para_sep input) ([], []) (fun p Hp => Hp)
                (List.Forall_nil _) Hnil).
  destruct (fold_left _ _ _) as [cs cur]. destruct H as [Hcs Hcur].
  now apply Hfl.
Qed.

End ChunkerMore.

(** X1. A chunk is longer than the bound only when it is a single paragraph:
    the text of every chunk is shorter than [chunk_size], or it is one
    paragraph of the input, trimmed. *)
Theorem chunk_text_size_bound (input source section : str) (chunk_size : Z) :
  Forall (fun c =>
            len (text c) < chunk_size
            \/ exists p, In p (split Chunker.para_sep input)
                         /\ text c = strip p)
    (Chunker.chunk_text input source section chunk_size).
Proof.
  apply (chunk_text_each _
           (fun cur => cur = []
                       \/ exists cur', cur = cur' ++ Chunker.para_sep
                            /\ (len cur' < chunk_size
                                \/ In cur' (split Chunker.para_sep input)))).
  - intros cur [-> | (cur' & -> & Hc)] Hne; [now elim Hne |].
    simpl. rewrite strip_app_blank by apply blank_para_sep.
    destruct Hc as [Hlt | Hin].
    + left. pose proof (strip_length cur'). lia.
    + right. now exists cur'.
  - now left.
  - intros cur p _ _ Hlt. right. exists (cur ++ p). split.
    + now rewrite <- app_assoc.
    + left. now rewrite len_app.
  - intros p Hp. right. exists p. auto.
Qed.

(** X2. A text shorter than the bound is never split: it gives its
    trimmed form as the only chunk, or no chunk when it is blank. *)
Theorem chunk_text_short_text (input source section : str) (chunk_size : Z) :
  len input < chunk_size ->
  Chunker.chunk_text input source section chunk_size
  = if truthy (strip input)
    then [mkChunk (strip input) source section None]
    else [].
Proof.
  intros Hlen.
  assert (H : forall ps, ps <> [] -> len (join Chunker.para_sep ps) < chunk_size ->
    fold_left (Chunker.step source section chunk_size) ps ([], [])
    = ([], join Chunker.para_sep ps ++ Chunker.para_sep)).
  { induction ps as [|p ps IH] using rev_ind; [easy |]. intros _ Hl.
    rewrite fold_left_app. simpl. destruct ps as [|q ps'].
    - simpl in *. destruct (len [] + len p <? chunk_size) eqn:Hlt; [reflexivity |].
      apply Z.ltb_ge in Hlt. unfold len in *. simpl in *. lia.
    - rewrite join_snoc in Hl |- * by easy.
      rewrite !len_app in Hl. rewrite IH; [| easy | unfold len in *; lia].
      unfold Chunker.step.
      destruct (_ <? _) eqn:Hlt.
      + now rewrite <- !app_assoc.
      + apply Z.ltb_ge in Hlt. rewrite !len_app in Hlt. lia. }
  unfold Chunker.chunk_text.
  rewrite H; [| apply split_nonempty | now rewrite join_split].
  rewrite join_split by discriminate.
  rewrite flush_app_blank by apply blank_para_sep. reflexivity.
Qed.

(** An instance of X2: two short paragraphs under the default bound. *)
Lemma chunk_text_short_text_witness :
  len (lit " one\n\ntwo ") < Chunker.default_chunk_size
  /\ Chunker.chunk_text (lit " one\n\ntwo ") (lit "resume") (lit "general")
       Chunker.default_chunk_size
     = if truthy (strip (lit " one\n\ntwo "))
       then [mkChunk (strip (lit " one\n\ntwo ")) (lit "resume")
               (lit "general") None]
       else [].
Proof.
  assert (H : len (lit " one\n\ntwo ") < Chunker.default_chunk_size)
    by (vm_compute; reflexivity).
  split; [exact H |].
  exact (chunk_text_short_text _ (lit "resume") (lit "general") _ H).
Defined.

Section ChunkerBlank.
Import Chunker.

(** The texts of the chunks lie in the input, in order, between blank
    strings. *)
Lemma chunk_text_interleaved input src sec size :
  interleaved (map text (chunk_text input src sec size)) input.
Proof.
  unfold chunk_text.
  destruct (loop_invariant src sec size (split para_sep input)
              (split_nonempty _ _)) as (cs & W & cur' & Hfold & Hjoin & Hint & _).
  rewrite Hfold. rewrite join_split in Hjoin by discriminate.
  rewrite flush_app_blank by apply blank_para_sep.
  rewrite Hjoin. now apply flush_interleaved.
Qed.

Lemma chunk_text_fields input src sec size :
  Forall (fun c => source c = src /\ section c = sec /\ embedding c = None
                   /\ text c <> [] /\ strip (text c) = text c)
    (chunk_text input src sec size).
Proof.
  apply (chunk_text_each _ (fun _ => True)); auto.
  intros cur _ Hne. simpl. repeat split; [assumption |].
  destruct (strip_visible_ends cur Hne). now apply strip_fixed.
Qed.

End ChunkerBlank.

(** X3. [chunk_text] returns no chunk exactly when the text is empty or
    whitespace only. *)
Theorem chunk_text_empty_iff_blank (input source section : str) (chunk_size : Z) :
  Chunker.chunk_text input source section chunk_size = []
  <-> Chunker.blank input.
Proof.
  pose proof (chunk_text_interleaved input source section chunk_size) as Hint.
  pose proof (chunk_text_fields input source section chunk_size) as Hf.
  split.
  - intros H. rewrite H in Hint. now inversion Hint.
  - intros Hb. destruct (Chunker.chunk_text _ _ _ _) as [|c cs]; [reflexivity |].
    exfalso. apply interleaved_visible in Hint.
    rewrite (visible_blank input Hb) in Hint. simpl in Hint.
    rewrite visible_app in Hint. apply app_eq_nil in Hint as [Hv _].
    apply Forall_inv in Hf as (_ & _ & _ & Hne & Hfix).
    rewrite <- Hfix in Hne. destruct (strip_visible_ends _ Hne) as [Hs _].
    rewrite Hfix in Hs. destruct (text c) as [|a t]; [discriminate |].
    simpl in Hs. unfold Chunker.visible in Hv. simpl in Hv.
    rewrite Hs in Hv. discriminate.
Qed.

(** X4. Every chunk of [chunk_text] carries the source and the section it
    was given and no embedding, and its text is trimmed: stripping it again
    changes nothing. *)
Theorem chunk_text_labels_and_trim (input src sec : str) (chunk_size : Z) :
  Forall (fun c => source c = src /\ section c = sec
                   /\ embedding c = None /\ strip (text c) = text c)
    (Chunker.chunk_text input src sec chunk_size).
Proof.
  eapply Forall_impl; [apply chunk_text_fields |].
  simpl. intros c (H1 & H2 & H3 & _ & H5). auto.
Qed.

(** ** The section detector: keys, values, texts without headers *)

Section SectionsMore.
Import Sections.

Lemma dict_set_keys k v d :
  map fst (dict_set k v d)
  = if decide (k ∈ map fst d) then map fst d else map fst d ++ [k].
Proof.
  induction d as [|[k' v'] d IH]; simpl.
  - destruct (decide (k ∈ [])) as [H|]; [inversion H | reflexivity].
  - destruct (decide (k = k')) as [-> | Hne]; simpl.
    + destruct (decide (k' ∈ k' :: map fst d)) as [|Hn];
        [reflexivity | elim Hn; left].
    + rewrite IH. destruct (decide (k ∈ map fst d)) as [Hin | Hin];
        destruct (decide (k ∈ k' :: map fst d)) as [Hor | Hor];
        try reflexivity.
      * elim Hor. now right.
      * inversion Hor; subst; [congruence | contradiction].
Qed.

Lemma dict_set_NoDup k v d :
  NoDup (map fst d) -> NoDup (map fst (dict_set k v d)).
Proof.
  intros H. rewrite dict_set_keys. destruct (decide _) as [|Hn]; [assumption |].
  apply NoDup_app. repeat split; [assumption | | apply NoDup_singleton].
  intros x Hx Hx'. apply list_elem_of_singleton in Hx' as ->. contradiction.
Qed.

Lemma dict_set_Forall (P : str * str -> Prop) k v d :
  P (k, v) -> Forall P d -> Forall P (dict_set k v d).
Proof.
  intros Hk. induction 1 as [|[k' v'] d Hx Hd IH]; simpl.
  - now repeat constructor.
  - destruct (decide (k = k')); constructor; assumption.
Qed.

Lemma match_section_label line name :
  match_section line = Some name -> In name (map fst section_keywords).
Proof.
  unfold match_section. destruct (find _ _) as [row|] eqn:Hf; [| discriminate].
  intros [= <-]. apply find_some in Hf as [Hin _]. now apply in_map.
Qed.

Lemma join_nonempty sep l ls : l <> [] -> join sep (l :: ls) <> [].
Proof.
  intros Hl. destruct ls; simpl; [assumption |].
  destruct l; [contradiction | discriminate].
Qed.

End SectionsMore.

(** X5. The sections [_detect_sections] returns have distinct labels, all
    taken from the keyword table, so there are at most six; and the text of
    each section is not empty: it is made, line by line, of lines of the
    input that are neither blank nor headers. *)
Theorem detect_sections_wellformed (input : str) :
  let d := Sections._detect_sections input in
  NoDup (map fst d)
  /\ (length d <= 6)%nat
  /\ Forall (fun kv =>
       In (fst kv) (map fst Sections.section_keywords)
       /\ snd kv <> []
       /\ exists ls, snd kv = join [nl] ls
            /\ Forall (fun l => In l (split [nl] input)
                                /\ Sections.match_section l = None
                                /\ truthy (strip l) = true) ls) d.
Proof.
  set (goodline := fun l => In l (split [nl] input)
                            /\ Sections.match_section l = None
                            /\ truthy (strip l) = true).
  set (good := fun kv : str * str =>
                 In (fst kv) (map fst Sections.section_keywords)
                 /\ snd kv <> []
                 /\ exists ls, snd kv = join [nl] ls /\ Forall goodline ls).
  set (inv := fun st =>
                NoDup (map fst (Sections.sections st))
                /\ Forall good (Sections.sections st)
                /\ In (Sections.current_section st)
                     (map fst Sections.section_keywords)
                /\ Forall goodline (Sections.current_text st)).
  assert (Hsave : forall st, inv st ->
            NoDup (map fst (Sections.save st))
            /\ Forall good (Sections.save st)).
  { intros st (Hnd & Hg & Hcs & Hct). unfold Sections.save.
    destruct (Sections.current_text st) as [|l ls] eqn:Hcur; [now split |].
    split; [now apply dict_set_NoDup |].
    apply dict_set_Forall; [| assumption].
    split; [assumption |]. split.
    - apply join_nonempty. apply Forall_inv in Hct as (_ & _ & Ht).
      simpl. destruct l; [discriminate | discriminate].
    - now exists (l :: ls). }
  assert (Hstep : forall lines st,
            (forall l, In l lines -> In l (split [nl] input)) ->
            inv st -> inv (fold_left Sections.step lines st)).
  { induction lines as [|line lines IH]; intros st Hin Hst; [assumption |].
    simpl. apply IH; [intros l Hl; apply Hin; now right |].
    unfold Sections.step.
    destruct (Sections.match_section line) as [name|] eqn:Hm.
    - destruct (Hsave st Hst) as [Hnd Hg].
      repeat split; simpl; try assumption.
      + now apply match_section_label in Hm.
      + constructor.
    - destruct (truthy (strip line)) eqn:Ht; [| assumption].
      destruct Hst as (Hnd & Hg & Hcs & Hct).
      repeat split; simpl; try assumption.
      apply Forall_app. split; [assumption |].
      constructor; [| constructor]. repeat split; try assumption.
      apply Hin. now left. }
  intros d. subst d. unfold Sections._detect_sections.
  destruct (Hsave (fold_left Sections.step (split [nl] input)
                     (Sections.mkState [] (lit "summary") [])))
    as [Hnd Hg].
  { apply Hstep; [auto |]. unfold inv. simpl.
    split; [constructor |]. split; [constructor |].
    split; [now left | constructor]. }
  split; [assumption |]. split; [| exact Hg].
  rewrite <- (length_map fst).
  apply NoDup_ListNoDup in Hnd.
  apply (NoDup_incl_length Hnd (l' := map fst Sections.section_keywords)).
  intros k Hk. apply in_map_iff in Hk as (kv & <- & Hkv).
  rewrite Forall_forall in Hg. apply list_elem_of_In in Hkv.
  now destruct (Hg kv Hkv).
Qed.

(** X6. A text without a header line is one section: its lines that are
    not blank, joined, under the label summary; and no section at all when
    every line is blank. *)
Theorem detect_sections_without_headers (input : str) :
  Forall (fun line => Sections.match_section line = None) (split [nl] input) ->
  Sections._detect_sections input
  = match List.filter (fun line => truthy (strip line)) (split [nl] input) with
    | [] => []
    | (_ :: _) as ls => [(lit "summary", join [nl] ls)]
    end.
Proof.
  intros Hno. unfold Sections._detect_sections.
  assert (H : forall lines st,
    Forall (fun line => Sections.match_section line = None) lines ->
    fold_left Sections.step lines st
    = Sections.mkState (Sections.sections st) (Sections.current_section st)
        (Sections.current_text st
         ++ List.filter (fun line => truthy (strip line)) lines)).
  { induction lines as [|line lines IH]; intros st Hl; simpl.
    - rewrite app_nil_r. now destruct st.
    - apply Forall_cons in Hl as [Hline Hl]. rewrite IH by assumption.
      unfold Sections.step. rewrite Hline.
      destruct (truthy (strip line)); simpl; [| reflexivity].
      now rewrite <- app_assoc. }
  rewrite H by assumption. unfold Sections.save. simpl.
  now destruct (List.filter _ _).
Qed.

(** An instance of X6: a name, a blank line and a title. *)
Lemma detect_sections_without_headers_witness :
  Forall (fun line => Sections.match_section line = None)
    (split [nl] (lit "Jane Doe\n\nEngineer"))
  /\ Sections._detect_sections (lit "Jane Doe\n\nEngineer")
     = match List.filter (fun line => truthy (strip line))
               (split [nl] (lit "Jane Doe\n\nEngineer")) with
       | [] => []
       | (_ :: _) as ls => [(lit "summary", join [nl] ls)]
       end.
Proof.
  assert (H : Forall (fun line => Sections.match_section line = None)
                (split [nl] (lit "Jane Doe\n\nEngineer"))).
  { change (split [nl] (lit "Jane Doe\n\nEngineer"))
      with [lit "Jane Doe"; lit ""; lit "Engineer"].
    repeat (constructor; [vm_compute; reflexivity |]). constructor. }
  split; [exact H |].
  exact (detect_sections_without_headers _ H).
Defined.

(** ** Cosine similarity: symmetry *)

(** X7. [cosine_similarity] is symmetric in its two vectors: the same
    number, the same NaN, or the same [ValueError] when the lengths
    differ. *)
Theorem cosine_similarity_symmetric (vec1 vec2 : list float) :
  Cosine.cosine_similarity vec1 vec2 = Cosine.cosine_similarity vec2 vec1.
Proof.
  unfold Cosine.cosine_similarity, Cosine.denominator.
  rewrite (dot_comm vec1 vec2), (fmul_comm (Cosine.norm vec1)).
  destruct (decide (length vec1 = length vec2)),
           (decide (length vec2 = length vec1)); congruence.
Qed.

(** ** Brute-force retrieval: exhausting the collection, exceptions *)

Section RetrievalMore.
Import Cosine PyList Retrieval Analysis.
Context {C : Collaborators}.

(** The loop scores the chunks that have an embedding, in their order,
    or raises. *)
Lemma score_chunks_fst q cs sims :
  score_chunks q cs = Ok sims -> map fst sims = List.filter has_embedding cs.
Proof.
  revert sims. induction cs as [|c cs IH]; intros sims; cbn [score_chunks].
  - now intros [= <-].
  - unfold has_embedding at 1. cbn [List.filter].
    destruct (embedding c) as [[|x v]|]; try apply IH.
    destruct (cosine_similarity q (x :: v)) as [sim|]; [| discriminate].
    cbv beta iota delta [mbind result_bind].
    destruct (score_chunks q cs) as [rest|]; [| discriminate].
    intros [= <-]. simpl. f_equal. now apply IH.
Qed.

Lemma score_chunks_result q cs :
  (mismatch_free q cs /\ exists sims, score_chunks q cs = Ok sims)
  \/ (~ mismatch_free q cs /\ score_chunks q cs = Raise ValueError).
Proof.
  unfold mismatch_free. induction cs as [|c cs IH]; cbn [score_chunks].
  - left. split; [constructor | eauto].
  - destruct (embedding c) as [[|x v]|] eqn:Hemb.
    + destruct IH as [[Hf Hs] | [Hf Hs]]; [left | right]; split;
        try assumption.
      * constructor; [| assumption]. intros v Hv Hne. rewrite Hemb in Hv.
        injection Hv as <-. now elim Hne.
      * intros H. apply Hf. now apply Forall_inv_tail in H.
    + unfold cosine_similarity.
      destruct (decide (length q = length (x :: v))) as [Hl | Hl].
      * cbv beta iota delta [mbind result_bind].
        destruct IH as [[Hf [sims Hs]] | [Hf Hs]]; rewrite Hs;
          [left | right]; split; eauto.
        -- constructor; [| assumption]. intros v' Hv _. rewrite Hemb in Hv.
           injection Hv as <-. now symmetry.
        -- intros H. apply Hf. now apply Forall_inv_tail in H.
      * right. split; [| reflexivity]. intros H. apply Forall_inv in H.
        apply Hl. symmetry. now apply (H _ Hemb).
    + destruct IH as [[Hf Hs] | [Hf Hs]]; [left | right]; split;
        try assumption.
      * constructor; [| assumption]. intros v Hv. rewrite Hemb in Hv.
        discriminate Hv.
      * intros H. apply Hf. now apply Forall_inv_tail in H.
Qed.

End RetrievalMore.

(** X11. When [top_k] is at least the number of candidates that carry an
    embedding, a returning call returns all of them, each once: asking for
    more than there is gives what there is. *)
Theorem retrieve_relevant_chunks_exhausts `{C : Collaborators}
    (e : engine) (query : str) (top_k : Z) (source_filter : option str)
    (res : list Chunk) :
  Retrieval.retrieve_relevant_chunks e query top_k source_filter = Ok res ->
  len (List.filter Analysis.has_embedding
         (Retrieval.filter_by_source source_filter (chunks e))) <= top_k ->
  res ≡ₚ List.filter Analysis.has_embedding
           (Retrieval.filter_by_source source_filter (chunks e)).
Proof.
  unfold Retrieval.retrieve_relevant_chunks.
  destruct (get_embedding query) as [q|]; [| discriminate].
  cbv beta iota delta [mbind result_bind].
  destruct (Retrieval.score_chunks q _) as [sims|] eqn:Hs; [| discriminate].
  intros [= <-] Hk. apply score_chunks_fst in Hs. rewrite <- Hs in *.
  unfold len in Hk. rewrite length_map in Hk.
  unfold PyList.slice_to.
  assert (H0 : (0 <=? top_k) = true) by (apply Z.leb_le; lia).
  rewrite H0, take_ge.
  - apply Permutation_map. exact (sort_perm snd Cosine.flt true sims).
  - pose proof (Permutation_length (sort_perm snd Cosine.flt true sims)) as Hp.
    simpl in Hp. lia.
Qed.

(** An instance of X11: five chunks asked of a collection where one chunk
    of the resume is embedded. *)
Lemma retrieve_relevant_chunks_exhausts_witness :
  let C := constant_collaborators [Cosine.of_int 1] in
  let c1 := mkChunk (lit "a") (lit "resume") (lit "summary") (Some [Cosine.of_int 1]) in
  let c2 := mkChunk (lit "b") (lit "resume") (lit "summary") None in
  let c3 := mkChunk (lit "c") (lit "ats_rules") (lit "Formatting")
              (Some [Cosine.of_int 1]) in
  let e := mkEngine [c1; c2; c3] (lit "faiss_indexes") None ∅ in
  let f := Some (lit "resume") in
  (Retrieval.retrieve_relevant_chunks e (lit "x") 5 f = Ok [c1]
   /\ len (List.filter Analysis.has_embedding
             (Retrieval.filter_by_source f (chunks e))) <= 5)
  /\ [c1] ≡ₚ List.filter Analysis.has_embedding
               (Retrieval.filter_by_source f (chunks e)).
Proof.
  intros C c1 c2 c3 e f.
  assert (H1 : Retrieval.retrieve_relevant_chunks e (lit "x") 5 f = Ok [c1])
    by reflexivity.
  assert (H2 : len (List.filter Analysis.has_embedding
                      (Retrieval.filter_by_source f (chunks e))) <= 5)
    by (vm_compute; discriminate).
  split; [exact (conj H1 H2) |].
  exact (retrieve_relevant_chunks_exhausts e (lit "x") 5 f [c1] H1 H2).
Defined.

(** X12. [retrieve_relevant_chunks] raises in two cases only: the embedding
    request for the query raises, and that exception comes out; or a
    candidate carries an embedding of another length than the query's, and
    [ValueError] comes out. *)
Theorem retrieve_relevant_chunks_raises `{C : Collaborators}
    (e : engine) (query : str) (top_k : Z) (source_filter : option str)
    (ex : exn) :
  Retrieval.retrieve_relevant_chunks e query top_k source_filter = Raise ex
  <-> get_embedding query = Raise ex
      \/ exists q, get_embedding query = Ok q
           /\ ex = ValueError
           /\ ~ Analysis.mismatch_free q
                  (Retrieval.filter_by_source source_filter (chunks e)).
Proof.
  unfold Retrieval.retrieve_relevant_chunks.
  destruct (get_embedding query) as [q|ex0].
  - cbv beta iota delta [mbind result_bind].
    destruct (score_chunks_result q
                (Retrieval.filter_by_source source_filter (chunks e)))
      as [[Hf [sims Hs]] | [Hf Hs]]; rewrite Hs.
    + split; [discriminate |].
      intros [H | (q' & Hq & _ & Hn)]; [discriminate |].
      injection Hq as <-. contradiction.
    + split.
      * intros [= <-]. right. now exists q.
      * intros [H | (q' & Hq & -> & Hn)]; [discriminate | reflexivity].
  - cbv beta iota delta [mbind result_bind]. split.
    + intros [= <-]. now left.
    + intros [[= <-] | (q & Hq & _)]; [reflexivity | discriminate].
Qed.

(** ** FAISS retrieval with vectors in the index *)

Section FaissMore.
Import PyList Retrieval Analysis.

Lemma index_elem {A} (l : list A) i x : index l i = Ok x -> x ∈ l.
Proof.
  unfold index. destruct (0 <=? (if 0 <=? i then i else len l + i));
    [| discriminate].
  destruct (l !! _) eqn:Hl; [| discriminate].
  intros [= <-]. now apply list_elem_of_lookup_2 in Hl.
Qed.

(** What the loop over the identifiers keeps: chunks of the collection
    that pass the test on the source, and no more than [top_k] of them
    once [top_k] is positive. *)
Lemma collect_invariant e top_k f ids acc res :
  collect e top_k f ids acc = Ok res ->
  acc ⊆ chunks e -> Forall (fun c => passes f c = true) acc ->
  res ⊆ chunks e
  /\ Forall (fun c => passes f c = true) res
  /\ (len acc < top_k -> len res <= top_k).
Proof.
  revert acc. induction ids as [|idx ids IH]; intros acc; cbn [collect].
  - intros [= <-] Hsub Hp. repeat split; try assumption. lia.
  - destruct (idx =? -1); [apply IH |].
    destruct (index_to_chunk_map e !! idx) as [j|]; [| apply IH].
    destruct (j <? len (chunks e)); [| apply IH].
    destruct (index (chunks e) j) as [c|] eqn:Hc; [| discriminate].
    cbv beta iota delta [mbind result_bind].
    apply index_elem in Hc. intros Hres Hsub Hp.
    set (acc' := match f with
                 | Some s => if decide (source c = s) then acc ++ [c] else acc
                 | None => acc ++ [c]
                 end) in *.
    assert (Hsub' : acc' ⊆ chunks e).
    { subst acc'. destruct f as [s|]; [destruct (decide _) |];
        try assumption; intros x Hx; apply elem_of_app in Hx as [Hx | Hx];
        try (now apply Hsub); apply list_elem_of_singleton in Hx; now subst. }
    assert (Hp' : Forall (fun c => passes f c = true) acc').
    { subst acc'. destruct f as [s|]; [destruct (decide _) as [Hd|] |];
        try assumption; apply Forall_app; (split; [assumption |]);
        (constructor; [| constructor]); simpl;
        [now apply bool_decide_eq_true | reflexivity]. }
    assert (Hlen : len acc' <= len acc + 1).
    { subst acc'. destruct f as [s|]; [destruct (decide _) |];
        rewrite ?len_app; unfold len; simpl; lia. }
    destruct (top_k <=? len acc') eqn:Hk.
    + injection Hres as <-. repeat split; try assumption. lia.
    + apply Z.leb_gt in Hk. destruct (IH acc' Hres Hsub' Hp') as (H1 & H2 & H3).
      repeat split; try assumption. intros _. now apply H3.
Qed.

(** With a mapping into positions that are not negative, the loop is a
    pipeline: resolve the identifiers, keep the chunks that pass the test
    on the source, and stop at [top_k]. *)
Lemma collect_pipeline e top_k f ids acc :
  (forall i j, index_to_chunk_map e !! i = Some j -> 0 <= j) ->
  len acc < top_k ->
  collect e top_k f ids acc
  = Ok (take (Z.to_nat top_k)
          (acc ++ List.filter (passes f) (omap (resolved e) ids))).
Proof.
  intros Hmap. revert acc. induction ids as [|idx ids IH]; intros acc Hacc;
    cbn [collect omap list_omap].
  - simpl. rewrite app_nil_r, take_ge; [reflexivity | unfold len in *; lia].
  - unfold resolved at 1. destruct (idx =? -1); [now apply IH |].
    destruct (index_to_chunk_map e !! idx) as [j|] eqn:Hj; [| now apply IH].
    destruct (j <? len (chunks e)) eqn:Hlt; [| now apply IH].
    assert (Hc : exists c, index (chunks e) j = Ok c).
    { apply Z.ltb_lt in Hlt. specialize (Hmap _ _ Hj). unfold index.
      assert (H0 : (0 <=? j) = true) by now apply Z.leb_le.
      rewrite H0, H0. unfold len in Hlt.
      destruct (chunks e !! Z.to_nat j) eqn:Hl; [eauto |].
      apply lookup_ge_None in Hl. lia. }
    destruct Hc as [c Hc]. rewrite Hc.
    cbv beta iota delta [mbind result_bind]. cbn [List.filter].
    unfold passes at 1.
    destruct f as [s|].
    + destruct (decide (source c = s)) as [Hs | Hs].
      * rewrite (bool_decide_eq_true_2 _ Hs).
        destruct (top_k <=? len (acc ++ [c])) eqn:Hk.
        -- apply Z.leb_le in Hk. f_equal. symmetry.
           rewrite cons_middle, app_assoc. apply take_app_length'.
           rewrite len_app in Hk. unfold len in *.
           rewrite length_app. simpl in *. lia.
        -- apply Z.leb_gt in Hk. rewrite IH by assumption.
           now rewrite <- app_assoc.
      * rewrite (bool_decide_eq_false_2 _ Hs).
        assert (Hk : (top_k <=? len acc) = false) by (apply Z.leb_gt; lia).
        rewrite Hk. now apply IH.
    + destruct (top_k <=? len (acc ++ [c])) eqn:Hk.
      * apply Z.leb_le in Hk. f_equal. symmetry.
        rewrite cons_middle, app_assoc. apply take_app_length'.
        rewrite len_app in Hk. unfold len in *.
        rewrite length_app. simpl in *. lia.
      * apply Z.leb_gt in Hk. rewrite IH by assumption.
        now rewrite <- app_assoc.
Qed.

End FaissMore.

(** X13. When the FAISS index holds vectors, whatever
    [retrieve_relevant_chunks_faiss] returns is made of chunks of the
    collection; each has the source of the filter whenever a filter is
    passed, the empty string included; and for [top_k >= 1] there are at
    most [top_k] of them. *)
Theorem retrieve_faiss_filtered `{C : Collaborators}
    (e : engine) (query : str) (top_k : Z) (source_filter : option str)
    (res : list Chunk) :
  0 < stored e ->
  Retrieval.retrieve_relevant_chunks_faiss e query top_k source_filter
  = Ok res ->
  res ⊆ chunks e
  /\ (forall s, source_filter = Some s -> Forall (fun c => source c = s) res)
  /\ (1 <= top_k -> len res <= top_k).
Proof.
  unfold stored, Retrieval.retrieve_relevant_chunks_faiss.
  destruct (faiss_index e) as [ix|]; [| lia]. intros Hn.
  assert (H0 : (ntotal ix =? 0) = false) by (apply Z.eqb_neq; lia).
  rewrite H0.
  destruct (get_embedding query) as [q|]; [| discriminate].
  cbv beta iota delta [mbind result_bind].
  destruct (faiss_search _ _ _) as [ids|]; [| discriminate].
  intros Hc.
  destruct (collect_invariant e top_k source_filter ids [] res Hc)
    as (H1 & H2 & H3); [intros x Hx; inversion Hx | constructor |].
  split; [assumption |]. split.
  - intros s ->. eapply Forall_impl; [exact H2 |]. simpl.
    intros c Hp. now apply bool_decide_eq_true in Hp.
  - intros Hk. apply H3. unfold len. simpl. lia.
Qed.

(** An instance of X13: the search returns the vector of a chunk of the job
    description, then the vector of a chunk of the resume, then an empty
    slot; one chunk of the resume is asked for. *)
Lemma retrieve_faiss_filtered_witness :
  let C := searching_collaborators [Cosine.of_int 1] [1; 0; -1] in
  let c1 := mkChunk (lit "a") (lit "resume") (lit "skills") (Some [Cosine.of_int 1]) in
  let c2 := mkChunk (lit "b") (lit "job_description") (lit "requirements")
              (Some [Cosine.of_int 1]) in
  let e := mkEngine [c1; c2] (lit "faiss_indexes")
             (Some (mkIx 1 [[Cosine.of_int 1]; [Cosine.of_int 1]])) (<[1 := 1]> {[ 0 := 0 ]}) in
  let f := Some (lit "resume") in
  (0 < stored e
   /\ Retrieval.retrieve_relevant_chunks_faiss e (lit "resume content") 1 f
      = Ok [c1])
  /\ [c1] ⊆ chunks e
  /\ (forall s, f = Some s -> Forall (fun c => source c = s) [c1])
  /\ (1 <= 1 -> len [c1] <= 1).
Proof.
  intros C c1 c2 e f.
  assert (H1 : 0 < stored e) by (vm_compute; reflexivity).
  assert (H2 : Retrieval.retrieve_relevant_chunks_faiss e
                 (lit "resume content") 1 f = Ok [c1])
    by (vm_compute; reflexivity).
  split; [exact (conj H1 H2) |].
  exact (retrieve_faiss_filtered e (lit "resume content") 1 f [c1] H1 H2).
Defined.

(** X14. With vectors in the index, a mapping into positions that are not
    negative and [top_k >= 1], the FAISS retrieval is a pipeline over the
    identifiers the search returns for [min(2 * top_k, ntotal)] neighbours:
    resolve each identifier to its chunk, dropping empty slots, unknown
    identifiers and positions beyond the collection; keep the chunks that
    pass the source filter; return the first [top_k]. *)
Theorem retrieve_faiss_pipeline `{C : Collaborators}
    (e : engine) (query : str) (top_k : Z) (source_filter : option str)
    (ix : faiss_ix) (q : list float) (ids : list Z) :
  faiss_index e = Some ix ->
  ntotal ix <> 0 ->
  get_embedding query = Ok q ->
  faiss_search (ix_vectors ix) (map float32 q)
    (Z.min (top_k * 2) (ntotal ix)) = Ok ids ->
  (forall i j, index_to_chunk_map e !! i = Some j -> 0 <= j) ->
  1 <= top_k ->
  Retrieval.retrieve_relevant_chunks_faiss e query top_k source_filter
  = Ok (take (Z.to_nat top_k)
          (List.filter (Analysis.passes source_filter)
             (omap (Analysis.resolved e) ids))).
Proof.
  intros Hix Hn Hq Hs Hmap Hk.
  unfold Retrieval.retrieve_relevant_chunks_faiss. rewrite Hix.
  apply Z.eqb_neq in Hn. rewrite Hn, Hq.
  cbv beta iota delta [mbind result_bind]. rewrite Hs.
  rewrite (collect_pipeline e top_k source_filter ids [] Hmap);
    [reflexivity | unfold len; simpl; lia].
Qed.

(** An instance of X14, on the collection of the instance of X13. *)
Lemma retrieve_faiss_pipeline_witness :
  let C := searching_collaborators [Cosine.of_int 1] [1; 0; -1] in
  let c1 := mkChunk (lit "a") (lit "resume") (lit "skills") (Some [Cosine.of_int 1]) in
  let c2 := mkChunk (lit "b") (lit "job_description") (lit "requirements")
              (Some [Cosine.of_int 1]) in
  let ix := mkIx 1 [[Cosine.of_int 1]; [Cosine.of_int 1]] in
  let e := mkEngine [c1; c2] (lit "faiss_indexes") (Some ix)
             (<[1 := 1]> {[ 0 := 0 ]}) in
  let f := Some (lit "resume") in
  (faiss_index e = Some ix
   /\ ntotal ix <> 0
   /\ get_embedding (lit "resume content") = Ok [Cosine.of_int 1]
   /\ faiss_search (ix_vectors ix) (map float32 [Cosine.of_int 1])
        (Z.min (1 * 2) (ntotal ix)) = Ok [1; 0; -1]
   /\ (forall i j, index_to_chunk_map e !! i = Some j -> 0 <= j)
   /\ 1 <= 1)
  /\ Retrieval.retrieve_relevant_chunks_faiss e (lit "resume content") 1 f
     = Ok (take (Z.to_nat 1)
             (List.filter (Analysis.passes f)
                (omap (Analysis.resolved e) [1; 0; -1]))).
Proof.
  intros C c1 c2 ix e f.
  assert (Hn : ntotal ix <> 0) by (vm_compute; discriminate).
  assert (Hmap : forall i j, index_to_chunk_map e !! i = Some j -> 0 <= j).
  { intros i j. simpl. intros H.
    apply lookup_insert_Some in H as [[_ <-] | [_ H]]; [lia |].
    apply lookup_singleton_Some in H as [_ <-]. lia. }
  assert (Hk : 1 <= 1) by lia.
  split; [exact (conj eq_refl (conj Hn (conj eq_refl
                   (conj eq_refl (conj Hmap Hk))))) |].
  exact (retrieve_faiss_pipeline e (lit "resume content") 1 f ix [Cosine.of_int 1]
           [1; 0; -1] eq_refl Hn eq_refl eq_refl Hmap Hk).
Defined.

(** ** The rules and the FAISS index *)

Section RulesMore.
Import PyList Retrieval Analysis Indexing.
Context {C : Collaborators}.

(** The engine after the indexing steps: an aligned engine whose
    collection was extended by the five chunks of the rules. *)
Lemma index_documents_state e w resume_text job_description index_name e' w' :
  index_documents e w resume_text job_description index_name = Ok (e', w') ->
  exists e2 rules,
    aligned e2
    /\ chunks e' = chunks e2 ++ rules
    /\ Forall (fun c => source c = lit "ats_rules") rules
    /\ length rules = 5%nat
    /\ faiss_index e' = faiss_index e2
    /\ index_to_chunk_map e' = index_to_chunk_map e2.
Proof.
  unfold index_documents.
  destruct (index_resume_with_faiss _ _ _ _ _) as [[e1 w1]|] eqn:H1;
    [| discriminate].
  cbv beta iota delta [mbind result_bind].
  apply index_resume_with_faiss_aligned in H1.
  assert (H2 : forall e2 w2,
    (if truthy_opt job_description
     then index_job_description_with_faiss e1 w1
            (default [] job_description) true index_name
     else Ok (e1, w1)) = Ok (e2, w2) -> aligned e2).
  { intros e2 w2. destruct (truthy_opt job_description).
    - now apply index_job_description_with_faiss_aligned.
    - now intros [= <- _]. }
  destruct (if truthy_opt job_description then _ else _) as [[e2 w2]|];
    [| discriminate].
  specialize (H2 e2 w2 eq_refl).
  destruct (index_ats_rules e2) as [e3|] eqn:H3; [| discriminate].
  intros [= <- <-].
  apply index_ats_rules_spec in H3 as (rules & Hc & Hs & Hf & Hm & Hl).
  exists e2, rules. auto 10.
Qed.

(** When no chunk a mapped identifier leads to passes the test on the
    source, the loop returns what it started with. *)
Lemma collect_nothing e top_k f ids acc res :
  (forall i j c, index_to_chunk_map e !! i = Some j ->
     index (chunks e) j = Ok c -> passes f c = false) ->
  collect e top_k f ids acc = Ok res -> res = acc.
Proof.
  intros Hno. revert acc. induction ids as [|idx ids IH]; intros acc;
    cbn [collect].
  - now intros [= <-].
  - destruct (idx =? -1); [apply IH |].
    destruct (index_to_chunk_map e !! idx) as [j|] eqn:Hj; [| apply IH].
    destruct (j <? len (chunks e)); [| apply IH].
    destruct (index (chunks e) j) as [c|] eqn:Hc; [| discriminate].
    cbv beta iota delta [mbind result_bind].
    specialize (Hno _ _ _ Hj Hc). unfold passes in Hno.
    destruct f as [s|]; [| discriminate].
    apply bool_decide_eq_false in Hno.
    destruct (decide (source c = s)); [contradiction |].
    destruct (top_k <=? len acc); [now intros [= <-] | apply IH].
Qed.

End RulesMore.

(** X15. After the indexing steps of [analyze_with_rag_faiss], as soon as
    the FAISS index holds one vector, the FAISS retrieval filtered on the
    source of the rules returns no chunk, whatever the query and [top_k]:
    the rules are in the collection, but no vector leads to them. *)
Theorem faiss_never_retrieves_rules `{C : Collaborators}
    (e : engine) (w : world) (resume_text : str)
    (job_description : option str) (index_name : str)
    (e' : engine) (w' : world) (query : str) (top_k : Z) (res : list Chunk) :
  Indexing.index_documents e w resume_text job_description index_name
  = Ok (e', w') ->
  0 < stored e' ->
  Retrieval.retrieve_relevant_chunks_faiss e' query top_k
    (Some (lit "ats_rules")) = Ok res ->
  res = [] /\ (length (List.filter (fun c => bool_decide (source c = lit "ats_rules"))
                         (chunks e')) = 5)%nat.
Proof.
  intros Hidx Hst.
  apply index_documents_state in Hidx
    as (e2 & rules & (Hal & Hmap & Hsrc) & Hc & Hs & Hl & Hf & Hm).
  intros Hres. split.
  - revert Hres. unfold stored, Retrieval.retrieve_relevant_chunks_faiss in *.
    destruct (faiss_index e') as [ix|]; [| lia].
    assert (H0 : (ntotal ix =? 0) = false) by (apply Z.eqb_neq; lia).
    rewrite H0.
    destruct (get_embedding query) as [q|]; [| discriminate].
    cbv beta iota delta [mbind result_bind].
    destruct (faiss_search _ _ _) as [ids|]; [| discriminate].
    apply collect_nothing. intros i j c Hij Hidx.
    rewrite Hm, Hmap in Hij.
    destruct (decide (0 <= i < len (chunks e2))) as [Hi|]; [| discriminate].
    injection Hij as <-.
    unfold PyList.index in Hidx.
    destruct (0 <=? i) eqn:Hpos; [| apply Z.leb_gt in Hpos; lia].
    rewrite Hpos, Hc in Hidx. unfold len in Hi.
    destruct (chunks e2 !! Z.to_nat i) as [c'|] eqn:Hlook.
    + rewrite (lookup_app_l_Some _ _ _ _ Hlook) in Hidx. injection Hidx as <-.
      rewrite Forall_forall in Hsrc.
      apply list_elem_of_lookup_2 in Hlook.
      simpl. apply bool_decide_eq_false.
      destruct (Hsrc _ Hlook) as [Hr | Hr]; rewrite Hr; discriminate.
    + apply lookup_ge_None in Hlook. lia.
  - rewrite Hc, List.filter_app, length_app.
    assert (H1 : List.filter (fun c => bool_decide (source c = lit "ats_rules"))
                   (chunks e2) = []).
    { clear -Hsrc. induction Hsrc as [|c cs Hx _ IH]; [reflexivity |].
      cbn [List.filter]. rewrite IH.
      rewrite bool_decide_eq_false_2; [reflexivity |].
      destruct Hx as [Hr | Hr]; rewrite Hr; discriminate. }
    assert (H2 : List.filter (fun c => bool_decide (source c = lit "ats_rules"))
                   rules = rules).
    { clear -Hs. induction Hs as [|c cs Hx _ IH]; [reflexivity |].
      cbn [List.filter]. rewrite IH. now rewrite bool_decide_eq_true_2. }
    rewrite H1, H2. simpl. exact Hl.
Qed.

(** An instance of X15: a resume of one section, and a search that returns
    the vector of its chunk. *)
Lemma faiss_never_retrieves_rules_witness :
  let C := searching_collaborators unit_embedding [0] in
  let e := mkEngine [] (lit "faiss_indexes") None ∅ in
  let w := mkWorld ∅ (fun _ => false) (fun _ => false)
             (lit "2024-01-01T00:00:00") (lit "20240101_000000") in
  exists e' w',
    (Indexing.index_documents e w (lit "Skills\nPython, Go") None (lit "s1")
     = Ok (e', w')
     /\ 0 < stored e'
     /\ Retrieval.retrieve_relevant_chunks_faiss e' (lit "ATS scoring rules") 5
          (Some (lit "ats_rules")) = Ok [])
    /\ [] = @nil Chunk
    /\ (length (List.filter (fun c => bool_decide (source c = lit "ats_rules"))
                  (chunks e')) = 5)%nat.
Proof.
  intros C e w. eexists. eexists.
  assert (H : Indexing.index_documents e w (lit "Skills\nPython, Go") None
                (lit "s1") = Ok (_, _)) by (vm_compute; reflexivity).
  match type of H with
  | _ = Ok (?e1, _) =>
      assert (H1 : 0 < stored e1) by (vm_compute; reflexivity);
      assert (H2 : Retrieval.retrieve_relevant_chunks_faiss e1
                     (lit "ATS scoring rules") 5 (Some (lit "ats_rules"))
                   = Ok []) by (vm_compute; reflexivity)
  end.
  split; [exact (conj H (conj H1 H2)) |].
  exact (faiss_never_retrieves_rules e w _ None (lit "s1") _ _ _ 5 [] H H1 H2).
Defined.

(** ** Persistence: what a load needs, what a save touches, names *)

Section PersistenceMore.
Import Persistence.

(** A relative second argument is appended to a prefix that depends on
    the directory only. *)
Lemma join_relative a :
  exists pre, forall b, startswith (lit "/") b = false -> OS.join a b = pre ++ b.
Proof.
  unfold OS.join. destruct (rev a) as [|c r].
  - exists []. now intros b ->.
  - destruct (decide (c = "/"%char)).
    + exists a. now intros b ->.
    + exists (a ++ lit "/"). intros b ->. now rewrite <- app_assoc.
Qed.

Lemma relative_app n suffix :
  startswith (lit "/") n = false -> startswith (lit "/") suffix = false ->
  startswith (lit "/") (n ++ suffix) = false.
Proof. destruct n as [|c n]; [easy |]. simpl. now destruct (decide _). Qed.

Lemma paths_relative e :
  exists pre, forall n, startswith (lit "/") n = false ->
    _get_index_path e n
    = (pre ++ n ++ lit ".faiss", pre ++ n ++ lit "_metadata.pkl").
Proof.
  destruct (join_relative (index_dir e)) as [pre Hpre]. exists pre.
  intros n Hn. unfold _get_index_path.
  now rewrite !Hpre by (apply relative_app; [exact Hn | reflexivity]).
Qed.

(** Two relative names that differ have no file in common. *)
Lemma paths_disjoint e n1 n2 :
  startswith (lit "/") n1 = false -> startswith (lit "/") n2 = false ->
  n1 <> n2 ->
  let p1 := _get_index_path e n1 in
  let p2 := _get_index_path e n2 in
  fst p1 <> fst p2 /\ fst p1 <> snd p2 /\ snd p1 <> fst p2 /\ snd p1 <> snd p2.
Proof.
  intros H1 H2 Hne. destruct (paths_relative e) as [pre Hpre].
  rewrite !Hpre by assumption. cbn [fst snd].
  repeat split; intros H; apply app_inv_head in H.
  - now apply app_inv_tail in H.
  - apply (f_equal (@rev _)) in H. rewrite !rev_app_distr in H.
    simpl in H. discriminate H.
  - apply (f_equal (@rev _)) in H. rewrite !rev_app_distr in H.
    simpl in H. discriminate H.
  - now apply app_inv_tail in H.
Qed.

(** [_load_index] reads the two files of the name and nothing else. *)
Lemma load_index_files e w w' n :
  files w' !! fst (_get_index_path e n) = files w !! fst (_get_index_path e n) ->
  files w' !! snd (_get_index_path e n) = files w !! snd (_get_index_path e n) ->
  _load_index e w' n = _load_index e w n.
Proof.
  unfold _load_index. destruct (_get_index_path e n) as [fp mp].
  cbn [fst snd]. unfold OS.exists_, OS.read_index, OS.pickle_load.
  now intros -> ->.
Qed.

Lemma load_index_same_dir e e0 n :
  index_dir e0 = index_dir e -> _get_index_path e0 n = _get_index_path e n.
Proof. unfold _get_index_path. now intros ->. Qed.

Lemma write_other w w1 path f p :
  OS.write w path f = Ok w1 -> p <> path -> files w1 !! p = files w !! p.
Proof.
  unfold OS.write. destruct (write_denied w path); [discriminate |].
  destruct (files w !! path) as [[]|]; try discriminate;
    intros [= <-] Hne; simpl; now rewrite lookup_insert_ne.
Qed.


Lemma write_settings w w1 path f :
  OS.write w path f = Ok w1 ->
  write_denied w1 = write_denied w /\ remove_denied w1 = remove_denied w
  /\ now_isoformat w1 = now_isoformat w /\ now_compact w1 = now_compact w.
Proof.
  unfold OS.write. destruct (write_denied w path); [discriminate |].
  destruct (files w !! path) as [[]|]; try discriminate;
    now intros [= <-].
Qed.

(** The save leaves every other path as it was. *)
Lemma save_index_other_paths e w n p :
  p <> fst (_get_index_path e n) -> p <> snd (_get_index_path e n) ->
  files (_save_index e w n) !! p = files w !! p.
Proof.
  unfold _save_index. destruct (faiss_index e) as [ix|]; [| reflexivity].
  destruct (len (chunks e) =? 0); [reflexivity |].
  destruct (_get_index_path e n) as [fp mp]. cbn [fst snd]. intros H1 H2.
  destruct (OS.write w fp _) as [w1|] eqn:Hw1; [| reflexivity].
  destruct (OS.write w1 mp _) as [w2|] eqn:Hw2.
  - rewrite (write_other _ _ _ _ _ Hw2 H2). exact (write_other _ _ _ _ _ Hw1 H1).
  - exact (write_other _ _ _ _ _ Hw1 H1).
Qed.

Lemma remove_frame w w1 path p :
  OS.remove w path = Ok w1 ->
  files w1 !! path = None /\ (p <> path -> files w1 !! p = files w !! p).
Proof.
  unfold OS.remove. destruct (remove_denied w path); [discriminate |].
  destruct (files w !! path) as [[]|]; try discriminate;
    intros [= <-]; simpl; (split; [apply lookup_delete_eq |]);
    intros Hne; now rewrite lookup_delete_ne.
Qed.

(** What [delete_index] leaves, whatever it returns: the other paths are
    as they were; and after [True] the two files are gone. *)
Lemma delete_index_frame e w n :
  let r := delete_index e w n in
  (forall p, p <> fst (_get_index_path e n) -> p <> snd (_get_index_path e n) ->
     files (snd r) !! p = files w !! p)
  /\ (fst r = true ->
      files (snd r) !! fst (_get_index_path e n) = None
      /\ files (snd r) !! snd (_get_index_path e n) = None).
Proof.
  pose proof (index_paths_distinct e n) as Hne.
  unfold delete_index. destruct (_get_index_path e n) as [fp mp].
  cbn [fst snd] in *.
  destruct (OS.exists_ w fp) eqn:Hf.
  - destruct (OS.remove w fp) as [w1|] eqn:Hr1; [| split; [easy | discriminate]].
    destruct (OS.exists_ w1 mp) eqn:Hm.
    + destruct (OS.remove w1 mp) as [w2|] eqn:Hr2; cbn [fst snd].
      * split.
        -- intros p H1 H2.
           rewrite (proj2 (remove_frame _ _ _ p Hr2) H2).
           exact (proj2 (remove_frame _ _ _ p Hr1) H1).
        -- intros _. split; [| exact (proj1 (remove_frame _ _ _ mp Hr2))].
           rewrite (proj2 (remove_frame _ _ _ fp Hr2) Hne).
           exact (proj1 (remove_frame _ _ _ fp Hr1)).
      * split; [| discriminate]. intros p H1 _.
        exact (proj2 (remove_frame _ _ _ p Hr1) H1).
    + cbn [fst snd]. split.
      * intros p H1 _. exact (proj2 (remove_frame _ _ _ p Hr1) H1).
      * intros _. split; [exact (proj1 (remove_frame _ _ _ fp Hr1)) |].
        now apply exists_false.
  - destruct (OS.exists_ w mp) eqn:Hm.
    + destruct (OS.remove w mp) as [w2|] eqn:Hr2; cbn [fst snd].
      * split.
        -- intros p _ H2. exact (proj2 (remove_frame _ _ _ p Hr2) H2).
        -- intros _. split; [| exact (proj1 (remove_frame _ _ _ mp Hr2))].
           rewrite (proj2 (remove_frame _ _ _ fp Hr2) Hne).
           now apply exists_false.
      * split; [easy | discriminate].
    + cbn [fst snd]. split; [easy |]. intros _.
      split; now apply exists_false.
Qed.


(** A name without a slash is a relative path. *)
Lemma simple_name_relative n :
  "/"%char ∉ n -> startswith (lit "/") n = false.
Proof.
  destruct n as [|c n]; [reflexivity |]. simpl. intros H.
  destruct (decide ("/"%char = c)) as [<- |]; [| reflexivity].
  exfalso. apply H. left.
Qed.

End PersistenceMore.

(** X16. [_load_index] returns [True] exactly when the index file of the
    name is an index and the metadata file is a pickled dictionary with
    the keys [chunks] and [index_to_chunk_map]; the engine is then made of
    these three values, whatever it held before. It never changes the
    directory, after [False] the mapping is the old one, and when the index
    file is missing or is not an index the whole engine is as it was. *)
Theorem load_index_characterised (e : engine) (w : world) (index_name : str) :
  let faiss_path := fst (Persistence._get_index_path e index_name) in
  let metadata_path := snd (Persistence._get_index_path e index_name) in
  let r := Persistence._load_index e w index_name in
  (fst r = true <->
   exists ix md cs m,
     files w !! faiss_path = Some (FaissFile ix)
     /\ files w !! metadata_path = Some (PickleFile md)
     /\ md_chunks md = Some cs /\ md_index_to_chunk_map md = Some m)
  /\ (forall ix md cs m,
        files w !! faiss_path = Some (FaissFile ix) ->
        files w !! metadata_path = Some (PickleFile md) ->
        md_chunks md = Some cs -> md_index_to_chunk_map md = Some m ->
        snd r = mkEngine cs (index_dir e) (Some ix) m)
  /\ index_dir (snd r) = index_dir e
  /\ (fst r = false -> index_to_chunk_map (snd r) = index_to_chunk_map e)
  /\ ((forall ix, files w !! faiss_path <> Some (FaissFile ix)) ->
      r = (false, e)).
Proof.
  cbv zeta. unfold Persistence._load_index.
  destruct (Persistence._get_index_path e index_name) as [fp mp].
  cbn [fst snd]. unfold OS.exists_, OS.read_index, OS.pickle_load.
  destruct (files w !! fp) as [[ix|md0|b0|]|] eqn:Hf;
    destruct (files w !! mp) as [[ix1|md|b1|]|] eqn:Hm;
    rewrite ?bool_decide_eq_true_2 by eauto;
    rewrite ?bool_decide_eq_false_2 by (intros [? ?]; discriminate);
    cbn [andb fst snd];
    try (destruct (md_chunks md) as [cs|] eqn:Hcs;
         [destruct (md_index_to_chunk_map md) as [m|] eqn:Hmm |]);
    cbn [fst snd set_faiss_index set_chunks set_index_to_chunk_map
         index_dir chunks faiss_index index_to_chunk_map];
    (split; [split |
       split; [| split; [| split]]]);
    try reflexivity; try discriminate;
    try (intros (ix' & md' & cs' & m' & E1 & E2 & E3 & E4); congruence);
    try (intros ix' md' cs' m' E1 E2 E3 E4; congruence);
    try (intros ix' md' cs' m' [= <-] [= <-] E3 E4;
         rewrite Hcs in E3; rewrite Hmm in E4;
         injection E3 as <-; injection E4 as <-; reflexivity);
    try (intros _; exists ix, md, cs, m; auto);
    try (intros Hno; exfalso; eapply Hno; reflexivity).
Qed.


(** X18. Snapshots under different names without a slash do not
    interfere: saving or deleting one name leaves what a load of another
    name returns, by any engine on the same directory, as it was. *)
Theorem snapshots_isolated (e e0 : engine) (w : world) (n1 n2 : str) :
  "/"%char ∉ n1 ->
  "/"%char ∉ n2 ->
  n1 <> n2 ->
  index_dir e0 = index_dir e ->
  Persistence._load_index e0 (Persistence._save_index e w n1) n2
  = Persistence._load_index e0 w n2
  /\ Persistence._load_index e0 (snd (Persistence.delete_index e w n1)) n2
     = Persistence._load_index e0 w n2.
Proof.
  intros H1 H2 Hne Hdir.
  apply simple_name_relative in H1, H2.
  destruct (paths_disjoint e n1 n2 H1 H2 Hne) as (D1 & D2 & D3 & D4).
  pose proof (load_index_same_dir e e0 n2 Hdir) as Hp.
  split; apply load_index_files; rewrite Hp.
  - apply save_index_other_paths; congruence.
  - apply save_index_other_paths; congruence.
  - apply (proj1 (delete_index_frame e w n1)); congruence.
  - apply (proj1 (delete_index_frame e w n1)); congruence.
Qed.

(** An instance of X18: a snapshot [a] on disk, and an engine that saves
    and deletes under the name [b]. *)
Lemma snapshots_isolated_witness :
  let c := mkChunk (lit "Python, Go") (lit "resume") (lit "skills")
             (Some [Cosine.of_int 1]) in
  let ix := mkIx 1 [[Cosine.of_int 1]] in
  let e := mkEngine [c] (lit "faiss_indexes") (Some ix) {[ 0 := 0 ]} in
  let e0 := mkEngine [] (lit "faiss_indexes") None ∅ in
  let w := mkWorld
             (<[lit "faiss_indexes/a.faiss" :=
                  FaissFile (mkIx 1 [[Cosine.of_int 2]])]>
                (<[lit "faiss_indexes/a_metadata.pkl" :=
                     PickleFile (mkMetadata (Some []) (Some ∅) None None)]> ∅))
             (fun _ => false) (fun _ => false)
             (lit "2024-01-01T00:00:00") (lit "20240101_000000") in
  (("/"%char ∉ lit "b")
   /\ ("/"%char ∉ lit "a")
   /\ lit "b" <> lit "a"
   /\ index_dir e0 = index_dir e)
  /\ Persistence._load_index e0 (Persistence._save_index e w (lit "b")) (lit "a")
     = Persistence._load_index e0 w (lit "a")
  /\ Persistence._load_index e0
       (snd (Persistence.delete_index e w (lit "b"))) (lit "a")
     = Persistence._load_index e0 w (lit "a").
Proof.
  intros c ix e e0 w.
  assert (H1 : "/"%char ∉ lit "b").
  { apply not_elem_of_cons. split; [discriminate | apply not_elem_of_nil]. }
  assert (H2 : "/"%char ∉ lit "a").
  { apply not_elem_of_cons. split; [discriminate | apply not_elem_of_nil]. }
  assert (H3 : lit "b" <> lit "a") by discriminate.
  assert (H4 : index_dir e0 = index_dir e) by reflexivity.
  split; [exact (conj H1 (conj H2 (conj H3 H4))) |].
  exact (snapshots_isolated e e0 w (lit "b") (lit "a") H1 H2 H3 H4).
Defined.

(** X19. When [delete_index] returns [True], neither file of the name
    exists afterwards, and a load of the name, by any engine on the same
    directory, returns [False] and leaves that engine as it was. *)
Theorem delete_index_removes (e e0 : engine) (w w' : world) (index_name : str) :
  Persistence.delete_index e w index_name = (true, w') ->
  index_dir e0 = index_dir e ->
  files w' !! fst (Persistence._get_index_path e index_name) = None
  /\ files w' !! snd (Persistence._get_index_path e index_name) = None
  /\ Persistence._load_index e0 w' index_name = (false, e0).
Proof.
  intros Hd Hdir.
  destruct (delete_index_frame e w index_name) as [_ Hgone].
  rewrite Hd in Hgone. cbn [fst snd] in Hgone.
  destruct (Hgone eq_refl) as [Hf Hm].
  split; [exact Hf |]. split; [exact Hm |].
  apply load_index_missing_file. left.
  rewrite (load_index_same_dir e e0 index_name Hdir).
  now apply exists_false.
Qed.

(** An instance of X19: a snapshot on disk that the system lets go. *)
Lemma delete_index_removes_witness :
  let e := mkEngine [] (lit "faiss_indexes") None ∅ in
  let w := mkWorld
             (<[lit "faiss_indexes/default.faiss" :=
                  FaissFile (mkIx 1 [[Cosine.of_int 1]])]>
                (<[lit "faiss_indexes/default_metadata.pkl" :=
                     PickleFile (mkMetadata (Some []) (Some ∅) None None)]>
                   ∅))
             (fun _ => false) (fun _ => false)
             (lit "2024-01-01T00:00:00") (lit "20240101_000000") in
  let w' := snd (Persistence.delete_index e w (lit "default")) in
  (Persistence.delete_index e w (lit "default") = (true, w')
   /\ index_dir e = index_dir e)
  /\ files w' !! fst (Persistence._get_index_path e (lit "default")) = None
  /\ files w' !! snd (Persistence._get_index_path e (lit "default")) = None
  /\ Persistence._load_index e w' (lit "default") = (false, e).
Proof.
  intros e w w'.
  assert (Hfst : fst (Persistence.delete_index e w (lit "default")) = true)
    by (vm_compute; reflexivity).
  assert (H1 : Persistence.delete_index e w (lit "default") = (true, w')).
  { unfold w'. destruct (Persistence.delete_index e w (lit "default")).
    simpl in *. now subst. }
  assert (H2 : index_dir e = index_dir e) by reflexivity.
  split; [exact (conj H1 H2) |].
  exact (delete_index_removes e e w w' (lit "default") H1 H2).
Defined.

(** ** Embedding, and the collection the two analyses build *)

Section AnalysisMore.
Import Cosine PyList Retrieval Indexing Analysis.
Context {C : Collaborators}.

Lemma embed_chunks_ok cs cs' :
  embed_chunks cs = Ok cs' <-> Forall2 embedded_from cs cs'.
Proof.
  revert cs'. induction cs as [|c cs IH]; intros cs'; cbn [embed_chunks].
  - split; [intros [= <-]; constructor | intros H; inversion H; reflexivity].
  - split.
    + destruct (get_embedding (text c)) as [v|] eqn:Hv; [| discriminate].
      cbv beta iota delta [mbind result_bind].
      destruct (embed_chunks cs) as [rest|]; [| discriminate].
      intros [= <-]. constructor; [exists v; auto | now apply IH].
    + intros H. inversion H as [|? c' ? rest (v & Hv & ->) Hrest]; subst.
      rewrite Hv. cbv beta iota delta [mbind result_bind].
      apply IH in Hrest. now rewrite Hrest.
Qed.

(** The exception of [embed_chunks] is that of the first request that
    fails. *)
Lemma embed_chunks_raise cs ex :
  embed_chunks cs = Raise ex <->
  exists pre c post,
    cs = pre ++ c :: post
    /\ Forall (fun c => is_ok (get_embedding (text c)) = true) pre
    /\ get_embedding (text c) = Raise ex.
Proof.
  induction cs as [|c cs IH]; cbn [embed_chunks].
  - split; [discriminate |].
    intros (pre & c & post & H & _). now destruct pre.
  - destruct (get_embedding (text c)) as [v|ex0] eqn:Hv;
      cbv beta iota delta [mbind result_bind].
    + destruct (embed_chunks cs) as [rest|ex1] eqn:Hr.
      * split; [discriminate |].
        intros (pre & c0 & post & Hcs & Hpre & Hc0).
        destruct pre as [|c1 pre]; simpl in Hcs; injection Hcs as <- ->.
        -- congruence.
        -- apply Forall_inv_tail in Hpre.
           assert (H : Ok rest = Raise ex) by (apply IH; eauto 6).
           discriminate H.
      * split.
        -- intros [= ->]. destruct (proj1 IH eq_refl)
             as (pre & c0 & post & -> & Hpre & Hc0).
           exists (c :: pre), c0, post. split; [reflexivity |].
           split; [| assumption]. constructor; [now rewrite Hv | assumption].
        -- intros (pre & c0 & post & Hcs & Hpre & Hc0).
           destruct pre as [|c1 pre]; simpl in Hcs; injection Hcs as <- ->.
           ++ congruence.
           ++ apply Forall_inv_tail in Hpre.
              apply IH. eauto 6.
    + split.
      * intros [= ->]. exists [], c, cs. auto.
      * intros (pre & c0 & post & Hcs & Hpre & Hc0).
        destruct pre as [|c1 pre]; simpl in Hcs; injection Hcs as <- ->.
        -- congruence.
        -- apply Forall_inv in Hpre. rewrite Hv in Hpre. discriminate Hpre.
Qed.

Lemma embedded_from_fields cs cs' :
  Forall2 embedded_from cs cs' ->
  map text cs' = map text cs
  /\ map source cs' = map source cs
  /\ map section cs' = map section cs
  /\ Forall (fun c => is_Some (embedding c)) cs'.
Proof.
  induction 1 as [|c c' cs cs' (v & _ & ->) _ (I1 & I2 & I3 & I4)];
    [repeat split; constructor |].
  simpl. rewrite I1, I2, I3. repeat split. constructor; [eauto | assumption].
Qed.

Lemma embedded_from_source s cs cs' :
  Forall2 embedded_from cs cs' ->
  Forall (fun c => source c = s) cs -> Forall (fun c => source c = s) cs'.
Proof.
  induction 1 as [|c c' cs cs' (v & _ & ->) _ IH]; [constructor |].
  intros H. apply Forall_cons in H as [Hc Hcs].
  constructor; [exact Hc | now apply IH].
Qed.

(** The provider is a function: one list of chunks has one embedded
    version. *)
Lemma embedded_from_functional cs a b :
  Forall2 embedded_from cs a -> Forall2 embedded_from cs b -> a = b.
Proof.
  intros Ha. revert b.
  induction Ha as [|c c' cs cs' (v & Hv & ->) _ IH]; intros b Hb;
    inversion Hb as [|? c'' ? cs'' (v' & Hv' & ->) Hrest]; subst;
    [reflexivity |].
  rewrite Hv in Hv'. injection Hv' as <-. f_equal. now apply IH.
Qed.

(** A loop that embeds the chunks of each element and extends the
    collection with them. *)
Lemma foldM_extend {A} (step : engine -> A -> result engine)
    (f : A -> list Chunk) :
  (forall e a, step e a
               = (chunks' ← embed_chunks (f a);
                  Ok (set_chunks (chunks e ++ chunks') e))) ->
  forall l e e',
    foldM step l e = Ok e' <->
    exists cs, Forall2 embedded_from (concat (map f l)) cs
               /\ e' = set_chunks (chunks e ++ cs) e.
Proof.
  intros Hstep. induction l as [|a l IH]; intros e e'; cbn [foldM].
  - simpl. split.
    + intros [= <-]. exists []. split; [constructor |].
      rewrite app_nil_r. now destruct e.
    + intros (cs & Hcs & ->). inversion Hcs. rewrite app_nil_r. now destruct e.
  - rewrite Hstep. cbv beta iota delta [mbind result_bind]. simpl. split.
    + destruct (embed_chunks (f a)) as [cs1|] eqn:H1; [| discriminate].
      intros H. apply IH in H as (cs2 & Hcs2 & ->).
      exists (cs1 ++ cs2). split.
      * apply Forall2_app; [now apply embed_chunks_ok | assumption].
      * unfold set_chunks. simpl. now rewrite app_assoc.
    + intros (cs & Hcs & ->).
      apply Forall2_app_inv_l in Hcs as (cs1 & cs2 & H1 & H2 & ->).
      apply embed_chunks_ok in H1. rewrite H1. apply IH.
      exists cs2. split; [assumption |].
      unfold set_chunks. simpl. now rewrite app_assoc.
Qed.

Lemma index_resume_iff e resume_text e' :
  index_resume e resume_text = Ok e' <->
  exists cs, Forall2 embedded_from (resume_chunks_of resume_text) cs
             /\ e' = set_chunks (chunks e ++ cs) e.
Proof.
  unfold index_resume, resume_chunks_of. apply foldM_extend.
  now intros e0 [n t].
Qed.

Lemma index_job_description_iff e jd_text e' :
  index_job_description e jd_text = Ok e' <->
  exists cs,
    Forall2 embedded_from
      (Chunker.chunk_text jd_text (lit "job_description") (lit "requirements")
         Chunker.default_chunk_size) cs
    /\ e' = set_chunks (chunks e ++ cs) e.
Proof.
  unfold index_job_description. split.
  - destruct (embed_chunks _) as [cs|] eqn:H; [| discriminate].
    cbv beta iota delta [mbind result_bind]. intros [= <-].
    exists cs. split; [now apply embed_chunks_ok | reflexivity].
  - intros (cs & Hcs & ->). apply embed_chunks_ok in Hcs. now rewrite Hcs.
Qed.

Lemma index_ats_rules_iff e e' :
  index_ats_rules e = Ok e' <->
  exists cs, Forall2 embedded_from rule_chunks cs
             /\ e' = set_chunks (chunks e ++ cs) e.
Proof.
  unfold index_ats_rules, rule_chunks. apply foldM_extend.
  now intros e0 [[category rules] weight].
Qed.

(** [index_all] succeeds exactly when every chunk of the three texts can
    be embedded, and the collection is then these chunks, embedded. *)
Lemma index_all_iff e resume_text job_description e' :
  index_all e resume_text job_description = Ok e' <->
  exists cs,
    Forall2 embedded_from
      (resume_chunks_of resume_text ++ jd_chunks_of job_description
       ++ rule_chunks) cs
    /\ e' = set_chunks cs e.
Proof.
  unfold index_all, jd_chunks_of. split.
  - destruct (index_resume _ _) as [e1|] eqn:H1; [| discriminate].
    cbv beta iota delta [mbind result_bind].
    apply index_resume_iff in H1 as (rs & Hrs & ->).
    destruct (truthy_opt job_description).
    + destruct (index_job_description _ _) as [e2|] eqn:H2; [| discriminate].
      apply index_job_description_iff in H2 as (js & Hjs & ->).
      intros H3. apply index_ats_rules_iff in H3 as (rules & Hr & ->).
      exists (rs ++ js ++ rules). split.
      * apply Forall2_app; [assumption |]. now apply Forall2_app.
      * unfold set_chunks. simpl. now rewrite <- app_assoc.
    + intros H3. apply index_ats_rules_iff in H3 as (rules & Hr & ->).
      exists (rs ++ rules). split; [now apply Forall2_app | reflexivity].
  - intros (cs & Hcs & ->).
    apply Forall2_app_inv_l in Hcs as (rs & rest & Hrs & Hrest & ->).
    apply Forall2_app_inv_l in Hrest as (js & rules & Hjs & Hr & ->).
    assert (H1 : index_resume (set_chunks [] e) resume_text
                 = Ok (set_chunks rs e)).
    { apply index_resume_iff. exists rs. split; [assumption | reflexivity]. }
    rewrite H1. cbv beta iota delta [mbind result_bind].
    destruct (truthy_opt job_description).
    + assert (H2 : index_job_description (set_chunks rs e)
                     (default [] job_description)
                   = Ok (set_chunks (rs ++ js) e)).
      { apply index_job_description_iff. exists js.
        split; [assumption | reflexivity]. }
      rewrite H2. apply index_ats_rules_iff. exists rules.
      split; [assumption |]. unfold set_chunks. simpl. now rewrite <- app_assoc.
    + inversion Hjs; subst. apply index_ats_rules_iff. exists rules.
      split; [assumption | reflexivity].
Qed.

Lemma analyze_with_rag_engine e resume_text job_description a e' :
  analyze_with_rag e resume_text job_description = Ok (a, e') ->
  index_all e resume_text job_description = Ok e'.
Proof.
  unfold analyze_with_rag.
  destruct (index_all _ _ _) as [e3|]; [| discriminate].
  cbv beta iota delta [mbind result_bind].
  destruct (retrieve_relevant_chunks e3 (lit "resume content") _ _);
    [| discriminate].
  destruct (if truthy_opt job_description then _ else _); [| discriminate].
  destruct (retrieve_relevant_chunks e3 (lit "ATS scoring rules") _ _);
    [| discriminate].
  destruct (_generate_analysis _ _); [| discriminate].
  now intros [= _ <-].
Qed.

(** The cut of the rule table: one chunk for each category, its text the
    category and the rules, its section the category. *)
Lemma rule_chunks_eq :
  rule_chunks
  = map (fun '(category, rules, _) =>
           mkChunk (category ++ lit ": " ++ join (lit " ") rules)
             (lit "ats_rules") category None) ats_rules.
Proof. vm_compute. reflexivity. Qed.

(** The loop of the FAISS indexing over the chunks of one text. *)
Lemma embed_loop_chunks cs st st1 :
  foldM embed_and_append cs st = Ok st1 ->
  exists cs', chunks (fst (fst st1)) = chunks (fst (fst st)) ++ cs'
              /\ Forall2 embedded_from cs cs'.
Proof.
  revert st. induction cs as [|c cs IH]; intros [[e embs] idxs]; cbn [foldM].
  - intros [= <-]. exists []. split; [now rewrite app_nil_r | constructor].
  - destruct (embed_and_append (e, embs, idxs) c) as [st0|] eqn:H0;
      cbv beta iota delta [mbind result_bind]; [| discriminate].
    unfold embed_and_append in H0.
    destruct (get_embedding (text c)) as [v|] eqn:Hv;
      cbv beta iota delta [mbind result_bind] in H0; [| discriminate].
    injection H0 as <-. intros H.
    apply IH in H as (cs' & Hc & Hcs). simpl in Hc.
    exists (with_embedding c v :: cs'). split.
    + rewrite Hc. simpl. now rewrite <- app_assoc.
    + constructor; [exists v; auto | assumption].
Qed.

Lemma add_and_save_chunks e w embs idxs save index_name e' w' :
  add_and_save e w embs idxs save index_name = Ok (e', w') ->
  chunks e' = chunks e.
Proof.
  unfold add_and_save. destruct embs as [|v vs].
  - cbv beta iota delta [mbind result_bind]. now intros [= <- _].
  - destruct (np_array (v :: vs)) as [arr|]; [| discriminate].
    cbv beta iota delta [mbind result_bind].
    destruct (_add_to_faiss_index e arr idxs) as [e1|] eqn:Ha; [| discriminate].
    intros [= <- _]. now apply add_to_faiss_index_spec in Ha as (-> & _).
Qed.

Lemma index_resume_with_faiss_chunks e w resume_text save index_name e' w' :
  index_resume_with_faiss e w resume_text save index_name = Ok (e', w') ->
  Forall2 embedded_from (resume_chunks_of resume_text) (chunks e').
Proof.
  unfold index_resume_with_faiss, resume_chunks_of.
  assert (H : forall secs st st1,
    foldM (fun st '(section_name, section_text) =>
             foldM embed_and_append
               (Chunker.chunk_text section_text (lit "resume")
                  section_name Chunker.default_chunk_size) st) secs st
    = Ok st1 ->
    exists cs', chunks (fst (fst st1)) = chunks (fst (fst st)) ++ cs'
      /\ Forall2 embedded_from
           (concat (map (fun '(section_name, section_text) =>
                           Chunker.chunk_text section_text (lit "resume")
                             section_name Chunker.default_chunk_size) secs))
           cs').
  { induction secs as [|[n t] secs IH]; intros st st1; cbn [foldM].
    - intros [= <-]. exists []. split; [now rewrite app_nil_r | constructor].
    - destruct (foldM embed_and_append _ st) as [st0|] eqn:H0; [| discriminate].
      cbv beta iota delta [mbind result_bind]. intros H.
      apply embed_loop_chunks in H0 as (cs0 & Hc0 & Hf0).
      apply IH in H as (cs1 & Hc1 & Hf1).
      exists (cs0 ++ cs1). split.
      + now rewrite Hc1, Hc0, app_assoc.
      + simpl. now apply Forall2_app. }
  destruct (foldM _ _ _) as [[[e1 embs] idxs]|] eqn:Hloop; [| discriminate].
  cbv beta iota delta [mbind result_bind]. intros Hadd.
  apply add_and_save_chunks in Hadd. rewrite Hadd.
  apply H in Hloop as (cs' & Hc & Hf). simpl in Hc. now rewrite Hc.
Qed.

Lemma index_job_description_with_faiss_chunks e w jd_text save index_name e' w' :
  index_job_description_with_faiss e w jd_text save index_name = Ok (e', w') ->
  exists cs,
    chunks e' = chunks e ++ cs
    /\ Forall2 embedded_from
         (Chunker.chunk_text jd_text (lit "job_description")
            (lit "requirements") Chunker.default_chunk_size) cs.
Proof.
  unfold index_job_description_with_faiss.
  destruct (foldM _ _ _) as [[[e1 embs] idxs]|] eqn:Hloop; [| discriminate].
  cbv beta iota delta [mbind result_bind]. intros Hadd.
  apply add_and_save_chunks in Hadd. rewrite Hadd.
  now apply embed_loop_chunks in Hloop.
Qed.

(** The collection the FAISS indexing steps leave. *)
Lemma index_documents_chunks e w resume_text job_description index_name e' w' :
  index_documents e w resume_text job_description index_name = Ok (e', w') ->
  Forall2 embedded_from
    (resume_chunks_of resume_text ++ jd_chunks_of job_description
     ++ rule_chunks) (chunks e').
Proof.
  unfold index_documents, jd_chunks_of.
  destruct (index_resume_with_faiss _ _ _ _ _) as [[e1 w1]|] eqn:H1;
    [| discriminate].
  cbv beta iota delta [mbind result_bind].
  apply index_resume_with_faiss_chunks in H1.
  destruct (truthy_opt job_description).
  - destruct (index_job_description_with_faiss _ _ _ _ _) as [[e2 w2]|] eqn:H2;
      [| discriminate].
    apply index_job_description_with_faiss_chunks in H2 as (js & Hc & Hjs).
    destruct (index_ats_rules e2) as [e3|] eqn:H3; [| discriminate].
    intros [= <- _]. apply index_ats_rules_iff in H3 as (rules & Hr & ->).
    simpl. rewrite Hc, <- app_assoc.
    apply Forall2_app; [assumption |]. now apply Forall2_app.
  - destruct (index_ats_rules e1) as [e3|] eqn:H3; [| discriminate].
    intros [= <- _]. apply index_ats_rules_iff in H3 as (rules & Hr & ->).
    simpl. now apply Forall2_app.
Qed.

End AnalysisMore.

(** X20. [embed_chunks] returns exactly when every request succeeds, and
    then each chunk comes back, in its place, with its text, source and
    section and with the embedding of its text; when it raises, the
    exception is that of the first chunk whose request fails. *)
Theorem embed_chunks_characterised `{C : Collaborators} (cs : list Chunk) :
  (forall cs', Indexing.embed_chunks cs = Ok cs'
               <-> Forall2 Analysis.embedded_from cs cs')
  /\ (forall cs', Indexing.embed_chunks cs = Ok cs' ->
        map text cs' = map text cs
        /\ map source cs' = map source cs
        /\ map section cs' = map section cs
        /\ Forall (fun c => is_Some (embedding c)) cs')
  /\ (forall ex, Indexing.embed_chunks cs = Raise ex <->
        exists pre c post,
          cs = pre ++ c :: post
          /\ Forall (fun c => is_ok (get_embedding (text c)) = true) pre
          /\ get_embedding (text c) = Raise ex).
Proof.
  split; [intros cs'; apply embed_chunks_ok |].
  split; [| intros ex; apply embed_chunks_raise].
  intros cs' H. apply embedded_from_fields. now apply embed_chunks_ok.
Qed.

(** X21. When [analyze_with_rag] returns, the collection of the engine
    is, in this order, the chunks of the resume section by section, the
    chunks of the job description if one was given and is not empty, and
    five chunks of the rules, one for each category, every chunk with the
    embedding of its text; what the engine held before is gone. The
    FAISS index and the mapping of the engine are not touched. *)
Theorem analyze_with_rag_collection `{C : Collaborators}
    (e : engine) (resume_text : str) (job_description : option str)
    (a : json) (e' : engine) :
  Analysis.analyze_with_rag e resume_text job_description = Ok (a, e') ->
  exists rs js rules,
    chunks e' = rs ++ js ++ rules
    /\ Forall2 Analysis.embedded_from (Analysis.resume_chunks_of resume_text) rs
    /\ Forall2 Analysis.embedded_from (Analysis.jd_chunks_of job_description) js
    /\ Forall2 Analysis.embedded_from Analysis.rule_chunks rules
    /\ Forall (fun c => source c = lit "resume") rs
    /\ Forall (fun c => source c = lit "job_description") js
    /\ Forall (fun c => source c = lit "ats_rules") rules
    /\ map (fun c => (text c, section c)) rules
       = map (fun '(category, rules, _) =>
                (category ++ lit ": " ++ join (lit " ") rules, category))
           Indexing.ats_rules
    /\ Forall (fun c => is_Some (embedding c)) (chunks e')
    /\ index_dir e' = index_dir e
    /\ faiss_index e' = faiss_index e
    /\ index_to_chunk_map e' = index_to_chunk_map e.
Proof.
  intros H. apply analyze_with_rag_engine in H.
  apply index_all_iff in H as (cs & Hcs & ->).
  apply Forall2_app_inv_l in Hcs as (rs & rest & Hrs & Hrest & ->).
  apply Forall2_app_inv_l in Hrest as (js & rules & Hjs & Hr & ->).
  exists rs, js, rules. split; [reflexivity |].
  split; [assumption |]. split; [assumption |]. split; [assumption |].
  split.
  { apply (embedded_from_source _ _ _ Hrs). unfold Analysis.resume_chunks_of.
    apply Forall_concat, Forall_map, Forall_forall. intros [n t] _.
    apply chunk_text_source. }
  split.
  { apply (embedded_from_source _ _ _ Hjs). unfold Analysis.jd_chunks_of.
    destruct (truthy_opt job_description); [apply chunk_text_source |].
    constructor. }
  split.
  { apply (embedded_from_source _ _ _ Hr). rewrite rule_chunks_eq.
    apply Forall_map, Forall_forall. now intros [[c r] wt] _. }
  split.
  { destruct (embedded_from_fields _ _ Hr) as (Ht & _ & Hsec & _).
    assert (Hpair : forall l1 l2 : list Chunk,
              map text l1 = map text l2 -> map section l1 = map section l2 ->
              map (fun c => (text c, section c)) l1
              = map (fun c => (text c, section c)) l2).
    { induction l1 as [|x l1 IH]; intros [|y l2]; try discriminate;
        [reflexivity |]. simpl. intros [= -> H1] [= -> H2].
      f_equal. now apply IH. }
    rewrite (Hpair _ _ Ht Hsec), rule_chunks_eq, map_map.
    apply map_ext. now intros [[c r] wt]. }
  split.
  { simpl. rewrite !Forall_app. repeat split.
    - exact (proj2 (proj2 (proj2 (embedded_from_fields _ _ Hrs)))).
    - exact (proj2 (proj2 (proj2 (embedded_from_fields _ _ Hjs)))).
    - exact (proj2 (proj2 (proj2 (embedded_from_fields _ _ Hr)))). }
  repeat split.
Qed.

(** An instance of X21: a resume of one section, no job description. *)
Lemma analyze_with_rag_collection_witness :
  let C := constant_collaborators [Cosine.of_int 1] in
  let old := mkChunk (lit "old") (lit "resume") (lit "summary") None in
  let e := mkEngine [old] (lit "faiss_indexes") (Some (mkIx 1 [[Cosine.of_int 1]]))
             {[ 0 := 0 ]} in
  exists e',
    Analysis.analyze_with_rag e (lit "Skills\nPython, Go") None = Ok (tt, e')
    /\ exists rs js rules,
         chunks e' = rs ++ js ++ rules
         /\ Forall2 Analysis.embedded_from
              (Analysis.resume_chunks_of (lit "Skills\nPython, Go")) rs
         /\ Forall2 Analysis.embedded_from (Analysis.jd_chunks_of None) js
         /\ Forall2 Analysis.embedded_from Analysis.rule_chunks rules
         /\ Forall (fun c => source c = lit "resume") rs
         /\ Forall (fun c => source c = lit "job_description") js
         /\ Forall (fun c => source c = lit "ats_rules") rules
         /\ map (fun c => (text c, section c)) rules
            = map (fun '(category, rules, _) =>
                     (category ++ lit ": " ++ join (lit " ") rules, category))
                Indexing.ats_rules
         /\ Forall (fun c => is_Some (embedding c)) (chunks e')
         /\ index_dir e' = index_dir e
         /\ faiss_index e' = faiss_index e
         /\ index_to_chunk_map e' = index_to_chunk_map e.
Proof.
  intros C old e. eexists.
  assert (H : Analysis.analyze_with_rag e (lit "Skills\nPython, Go") None
              = Ok (tt, _)) by (vm_compute; reflexivity).
  split; [exact H |].
  exact (analyze_with_rag_collection e _ None tt _ H).
Defined.

(** X22. The two analyses build the same collection: when
    [analyze_with_rag_faiss] returns, the indexing steps of
    [analyze_with_rag] on the same texts succeed as well, from any
    engine, and leave the same chunks in the same order; their number
    is the [total_chunks_indexed] of the verdict. *)
Theorem analyses_same_collection `{C : Collaborators}
    (e e0 : engine) (w : world) (resume_text : str)
    (job_description index_name : option str)
    (a : Indexing.analysis) (e' : engine) (w' : world) :
  Indexing.analyze_with_rag_faiss e w resume_text job_description index_name
  = Ok (a, e', w') ->
  Analysis.index_all e0 resume_text job_description
  = Ok (set_chunks (chunks e') e0)
  /\ Indexing.total_chunks_indexed a = len (chunks e').
Proof.
  intros H. apply analyze_with_rag_faiss_engine in H as [H Hn].
  split; [| exact Hn].
  apply index_documents_chunks in H.
  apply index_all_iff. exists (chunks e'). split; [exact H | reflexivity].
Qed.

(** An instance of X22. *)
Lemma analyses_same_collection_witness :
  let C := constant_collaborators unit_embedding in
  let e := mkEngine [] (lit "faiss_indexes") None ∅ in
  let w := mkWorld ∅ (fun _ => false) (fun _ => false)
             (lit "2024-01-01T00:00:00") (lit "20240101_000000") in
  exists a e' w',
    Indexing.analyze_with_rag_faiss e w (lit "Skills\nPython, Go") None
      (Some (lit "s1")) = Ok (a, e', w')
    /\ Analysis.index_all e (lit "Skills\nPython, Go") None
       = Ok (set_chunks (chunks e') e)
    /\ Indexing.total_chunks_indexed a = len (chunks e').
Proof.
  intros C e w. eexists. eexists. eexists.
  assert (H : Indexing.analyze_with_rag_faiss e w (lit "Skills\nPython, Go")
                None (Some (lit "s1")) = Ok (_, _, _))
    by (vm_compute; reflexivity).
  split; [exact H |].
  exact (analyses_same_collection e e w _ None (Some (lit "s1")) _ _ _ H).
Defined.

(** X23. After the indexing steps of [analyze_with_rag], the brute-force
    retrieval filtered on the source of the rules, asked for five chunks
    or more, returns the chunks of the rules that carry an embedding
    that is not empty, each once, and nothing else. *)
Theorem brute_force_retrieves_rules `{C : Collaborators}
    (e : engine) (resume_text : str) (job_description : option str)
    (e' : engine) (query : str) (top_k : Z) (res : list Chunk) :
  Analysis.index_all e resume_text job_description = Ok e' ->
  5 <= top_k ->
  Retrieval.retrieve_relevant_chunks e' query top_k (Some (lit "ats_rules"))
  = Ok res ->
  exists rest rules,
    chunks e' = rest ++ rules
    /\ Forall2 Analysis.embedded_from Analysis.rule_chunks rules
    /\ length rules = 5%nat
    /\ res ≡ₚ List.filter Analysis.has_embedding rules.
Proof.
  intros H Hk Hres. apply index_all_iff in H as (cs & Hcs & ->).
  apply Forall2_app_inv_l in Hcs as (rs & rest & Hrs & Hrest & ->).
  apply Forall2_app_inv_l in Hrest as (js & rules & Hjs & Hr & ->).
  exists (rs ++ js), rules.
  assert (Hlen : length rules = 5%nat).
  { rewrite <- (Forall2_length _ _ _ Hr). vm_compute. reflexivity. }
  split; [simpl; now rewrite app_assoc |]. split; [assumption |].
  split; [assumption |].
  assert (Hsrc_rs : Forall (fun c => source c = lit "resume") rs).
  { apply (embedded_from_source _ _ _ Hrs). unfold Analysis.resume_chunks_of.
    apply Forall_concat, Forall_map, Forall_forall. intros [n t] _.
    apply chunk_text_source. }
  assert (Hsrc_js : Forall (fun c => source c = lit "job_description") js).
  { apply (embedded_from_source _ _ _ Hjs). unfold Analysis.jd_chunks_of.
    destruct (truthy_opt job_description); [apply chunk_text_source |].
    constructor. }
  assert (Hsrc_r : Forall (fun c => source c = lit "ats_rules") rules).
  { apply (embedded_from_source _ _ _ Hr). rewrite rule_chunks_eq.
    apply Forall_map, Forall_forall. now intros [[c r] wt] _. }
  assert (Hfilter : Retrieval.filter_by_source (Some (lit "ats_rules"))
                      (rs ++ js ++ rules) = rules).
  { unfold Retrieval.filter_by_source.
    change (truthy_opt (Some (lit "ats_rules"))) with true. cbv iota.
    rewrite !filter_app.
    assert (F1 : forall l s, s <> lit "ats_rules" ->
              Forall (fun c => source c = s) l ->
              filter (fun c => Some (source c) = Some (lit "ats_rules")) l = []).
    { intros l s Hs. induction 1 as [|c l Hc _ IH]; [reflexivity |].
      rewrite filter_cons_False; [exact IH |]. intros Hx.
      apply (inj Some) in Hx. apply Hs. now rewrite <- Hc. }
    rewrite (F1 rs (lit "resume")) by (discriminate || assumption).
    rewrite (F1 js (lit "job_description")) by (discriminate || assumption).
    simpl. clear -Hsrc_r. induction Hsrc_r as [|c l Hc _ IH]; [reflexivity |].
    rewrite filter_cons_True by (now rewrite Hc). now rewrite IH. }
  revert Hres. unfold Retrieval.retrieve_relevant_chunks.
  destruct (get_embedding query) as [q|]; [| discriminate].
  cbv beta iota delta [mbind result_bind].
  change (chunks (set_chunks (rs ++ js ++ rules) e)) with (rs ++ js ++ rules).
  rewrite Hfilter.
  destruct (Retrieval.score_chunks q rules) as [sims|] eqn:Hs; [| discriminate].
  intros [= <-]. apply score_chunks_fst in Hs. rewrite <- Hs.
  assert (Hl : (length sims <= 5)%nat).
  { rewrite <- (length_map fst), Hs, <- Hlen. apply List.filter_length_le. }
  unfold PyList.slice_to.
  assert (H0 : (0 <=? top_k) = true) by (apply Z.leb_le; lia).
  rewrite H0, take_ge.
  - apply Permutation_map. exact (sort_perm snd Cosine.flt true sims).
  - pose proof (Permutation_length (sort_perm snd Cosine.flt true sims)) as Hp.
    simpl in Hp. lia.
Qed.

(** An instance of X23: the five rules come back where the FAISS
    retrieval of X15 finds none. *)
Lemma brute_force_retrieves_rules_witness :
  let C := constant_collaborators [Cosine.of_int 1] in
  let e := mkEngine [] (lit "faiss_indexes") None ∅ in
  exists e' res,
    (Analysis.index_all e (lit "Skills\nPython, Go") None = Ok e'
     /\ 5 <= 5
     /\ Retrieval.retrieve_relevant_chunks e' (lit "ATS scoring rules") 5
          (Some (lit "ats_rules")) = Ok res)
    /\ exists rest rules,
         chunks e' = rest ++ rules
         /\ Forall2 Analysis.embedded_from Analysis.rule_chunks rules
         /\ length rules = 5%nat
         /\ res ≡ₚ List.filter Analysis.has_embedding rules.
Proof.
  intros C e. eexists. eexists.
  assert (H : Analysis.index_all e (lit "Skills\nPython, Go") None = Ok _)
    by (vm_compute; reflexivity).
  assert (H1 : 5 <= 5) by lia.
  match type of H with
  | _ = Ok ?e1 =>
      assert (H2 : Retrieval.retrieve_relevant_chunks e1
                     (lit "ATS scoring rules") 5 (Some (lit "ats_rules"))
                   = Ok _) by reflexivity
  end.
  split; [exact (conj H (conj H1 H2)) |].
  exact (brute_force_retrieves_rules e _ None _ _ 5 _ H H1 H2).
Defined.

(** ** Batch insertion into the FAISS index *)

Section AddMore.
Import Indexing.
Context {C : Collaborators}.

(** The loop of [_add_to_faiss_index] maps the identifier [start + i] to
    the position number [i] of the list, and leaves the other
    identifiers alone. *)
Lemma update_mapping_lookup idxs start m k :
  update_mapping start idxs m !! k
  = if decide (start <= k < start + len idxs)
    then idxs !! Z.to_nat (k - start)
    else m !! k.
Proof.
  revert start m. induction idxs as [|c idxs IH]; intros start m;
    cbn [update_mapping].
  - unfold len. simpl. destruct (decide _); [lia | reflexivity].
  - rewrite IH. unfold len. cbn [length].
    destruct (decide (start + 1 <= k < start + 1 + Z.of_nat (length idxs))),
             (decide (start <= k < start + Z.of_nat (S (length idxs))));
      try lia.
    + replace (Z.to_nat (k - start)) with (S (Z.to_nat (k - (start + 1))))
        by lia. reflexivity.
    + assert (k = start) as -> by lia. rewrite lookup_insert_eq.
      now rewrite Z.sub_diag.
    + apply lookup_insert_ne. lia.
Qed.

End AddMore.

(** X24. [_add_to_faiss_index] accepts an array exactly when its row
    length is the dimension of the index, 1536 for an index it has to
    create, and raises [AssertionError] otherwise. When it accepts, the
    rows are appended to the vectors of the index, the identifier
    [n + i], for [n] the number of vectors stored before, is mapped to the
    position number [i] of [chunk_indices], the other identifiers keep
    what they were mapped to, and the collection is not touched. *)
Theorem add_to_faiss_index_characterised `{C : Collaborators}
    (e : engine) (embeddings : nat * list (list float)) (chunk_indices : list Z) :
  let d := match faiss_index e with
           | Some ix => ix_d ix
           | None => embedding_dim
           end in
  let old := match faiss_index e with
             | Some ix => ix_vectors ix
             | None => []
             end in
  (fst embeddings = d ->
   exists e',
     Indexing._add_to_faiss_index e embeddings chunk_indices = Ok e'
     /\ chunks e' = chunks e
     /\ index_dir e' = index_dir e
     /\ faiss_index e' = Some (mkIx d (old ++ snd embeddings))
     /\ stored e' = stored e + len (snd embeddings)
     /\ forall k,
          index_to_chunk_map e' !! k
          = if decide (stored e <= k < stored e + len chunk_indices)
            then chunk_indices !! Z.to_nat (k - stored e)
            else index_to_chunk_map e !! k)
  /\ (fst embeddings <> d ->
      Indexing._add_to_faiss_index e embeddings chunk_indices
      = Raise AssertionError).
Proof.
  unfold Indexing._add_to_faiss_index, Indexing.faiss_add, stored, ntotal.
  destruct (faiss_index e) as [ix|] eqn:Hix; cbn [Indexing._initialize_faiss_index
    set_faiss_index faiss_index ix_d ix_vectors]; rewrite ?Hix; split.
  - intros ->. rewrite Nat.eqb_refl. cbv beta iota delta [mbind result_bind].
    eexists. split; [reflexivity |]. cbn. rewrite len_app.
    repeat split. intros k. apply update_mapping_lookup.
  - intros Hne. apply Nat.eqb_neq in Hne. now rewrite Hne.
  - intros ->. rewrite Nat.eqb_refl. cbv beta iota delta [mbind result_bind].
    eexists. split; [reflexivity |]. cbn. 
    repeat split. intros k. apply update_mapping_lookup.
  - intros Hne. apply Nat.eqb_neq in Hne. now rewrite Hne.
Qed.

(** ** The context handed to the model *)

Section ContextMore.
Import Indexing.

Lemma contains_app_l n a b : contains n a = true -> contains n (a ++ b) = true.
Proof.
  rewrite !contains_spec. intros (pre & post & ->).
  exists pre, (post ++ b). now rewrite <- !app_assoc.
Qed.

Lemma contains_app_r n a b : contains n b = true -> contains n (a ++ b) = true.
Proof.
  rewrite !contains_spec. intros (pre & post & ->).
  exists (a ++ pre), post. now rewrite <- !app_assoc.
Qed.

Lemma contains_self n : contains n n = true.
Proof. apply contains_spec. exists [], []. now rewrite app_nil_r. Qed.

Lemma contains_concat {A} n (f : A -> str) x l :
  x ∈ l -> contains n (f x) = true -> contains n (concat (map f l)) = true.
Proof.
  intros Hx Hn. induction Hx as [x l | x y l _ IH]; simpl.
  - now apply contains_app_l.
  - apply contains_app_r. auto.
Qed.

End ContextMore.

(** X25. The context [_build_context] returns opens with the opening tag
    and the header of the resume, ends with the closing tag, and holds
    every chunk it was given: each chunk of the resume as its section tag,
    its text and a blank line, each other chunk as its text and a blank
    line. The header of the rules is always there, the header of the job
    description at least when chunks of the job description are given. *)
Theorem build_context_holds_chunks
    (resume_chunks jd_chunks ats_chunks : list Chunk) :
  let context :=
    Indexing._build_context resume_chunks jd_chunks ats_chunks in
  startswith (lit "<retrieved_context>\n\n=== RESUME CONTENT ===\n") context
  = true
  /\ (exists pre, context = pre ++ lit "</retrieved_context>")
  /\ (forall c, c ∈ resume_chunks ->
        contains (lit "[Section: " ++ section c ++ lit "]\n" ++ text c
                  ++ lit "\n\n") context = true)
  /\ (forall c, c ∈ jd_chunks ++ ats_chunks ->
        contains (text c ++ lit "\n\n") context = true)
  /\ contains (lit "\n=== ATS SCORING RULES ===\n") context = true
  /\ (jd_chunks <> [] ->
      contains (lit "\n=== JOB DESCRIPTION ===\n") context = true).
Proof.
  cbv zeta. unfold Indexing._build_context.
  split.
  { change (lit "<retrieved_context>\n\n=== RESUME CONTENT ===\n")
      with (lit "<retrieved_context>\n\n" ++ lit "=== RESUME CONTENT ===\n").
    rewrite (app_assoc (lit "<retrieved_context>\n\n")).
    apply startswith_app. }
  split.
  { eexists. rewrite !app_assoc. reflexivity. }
  split.
  { intros c Hc. do 2 apply contains_app_r. apply contains_app_l.
    apply (contains_concat _ _ c); [exact Hc | apply contains_self]. }
  split.
  { intros c Hc. apply elem_of_app in Hc as [Hc | Hc];
      do 3 apply contains_app_r.
    - apply contains_app_l. destruct jd_chunks as [|j js]; [inversion Hc |].
      apply contains_app_r.
      apply (contains_concat _ _ c); [exact Hc | apply contains_self].
    - do 2 apply contains_app_r. apply contains_app_l.
      apply (contains_concat _ _ c); [exact Hc | apply contains_self]. }
  split.
  { do 4 apply contains_app_r. apply contains_app_l, contains_self. }
  intros Hj. do 3 apply contains_app_r. apply contains_app_l.
  destruct jd_chunks as [|j js]; [contradiction |].
  apply contains_app_l, contains_self.
Qed.

(** ** Keyword extraction *)

Section KeywordsMore.

(** Cutting at one character: no piece holds the character, and there is
    one piece more than there are occurrences of it. *)
Lemma split_go_single c cur s :
  c ∉ cur ->
  Forall (fun p => c ∉ p) (split_go [c] 0 cur s)
  /\ length (split_go [c] 0 cur s) = S (length (filter (eq c) s)).
Proof.
  revert cur. induction s as [|a s IH]; intros cur Hcur; cbn [split_go].
  - split; [now repeat constructor | reflexivity].
  - cbn [startswith length pred]. destruct (decide (c = a)) as [<- | Hne].
    + destruct (IH [] ltac:(apply not_elem_of_nil)) as [Hf Hl]. split.
      * now constructor.
      * rewrite filter_cons_True by reflexivity. simpl. now rewrite Hl.
    + destruct (IH (cur ++ [a])) as [Hf Hl].
      { rewrite elem_of_app, list_elem_of_singleton. intros [? | ?]; auto. }
      split; [exact Hf |]. now rewrite filter_cons_False by exact Hne.
Qed.

Lemma strip_elem c s : c ∈ strip s -> c ∈ s.
Proof.
  intros H. destruct (strip_split s) as (w1 & w2 & _ & _ & Hs).
  rewrite Hs, !elem_of_app. auto.
Qed.

Lemma strip_idempotent s : strip (strip s) = strip s.
Proof.
  destruct (strip s) as [|c r] eqn:Hs; [reflexivity |]. rewrite <- Hs.
  destruct (strip_visible_ends s) as [H1 H2]; [now rewrite Hs |].
  now apply strip_fixed.
Qed.

Lemma contains_strip_of s : contains (strip s) s = true.
Proof.
  apply contains_spec. destruct (strip_split s) as (w1 & w2 & _ & _ & Hs).
  now exists w1, w2.
Qed.

Lemma contains_trans a b c :
  contains a b = true -> contains b c = true -> contains a c = true.
Proof.
  rewrite !contains_spec. intros (p1 & q1 & ->) (p2 & q2 & ->).
  exists (p2 ++ p1), (q1 ++ q2). now rewrite <- !app_assoc.
Qed.

Lemma contains_join sep p parts :
  p ∈ parts -> contains p (join sep parts) = true.
Proof.
  intros Hp. induction Hp as [p l | p q l Hin IH].
  - destruct l; simpl; [apply contains_self |].
    apply contains_app_l, contains_self.
  - destruct l as [|x l]; [inversion Hin |].
    change (join sep (q :: x :: l)) with (q ++ sep ++ join sep (x :: l)).
    now do 2 apply contains_app_r.
Qed.

End KeywordsMore.

(** X26. [extract_keywords] raises what the chat request raises.
    Otherwise it returns one keyword more than the reply has commas, so at
    least one, the empty reply giving one empty keyword; every keyword is
    free of commas and of whitespace at its ends, and occurs in the
    reply. An empty keyword is not removed. *)
Theorem extract_keywords_shape `{K : Keywords.KeywordChat} (text : str) :
  match Keywords.chat_keywords text with
  | Ok reply =>
      exists ks,
        Keywords.extract_keywords text = Ok ks
        /\ length ks = S (length (filter (eq ","%char) reply))
        /\ Forall (fun k => strip k = k /\ (","%char ∉ k)
                            /\ contains k reply = true) ks
        /\ (reply = [] -> ks = [[]])
  | Raise ex => Keywords.extract_keywords text = Raise ex
  end.
Proof.
  unfold Keywords.extract_keywords.
  destruct (Keywords.chat_keywords text) as [reply|ex];
    cbv beta iota delta [mbind result_bind]; [| reflexivity].
  eexists. split; [reflexivity |].
  destruct (split_go_single ","%char [] reply ltac:(apply not_elem_of_nil))
    as [Hf Hl].
  change (lit ",") with [","%char]. unfold split.
  split; [now rewrite length_map |].
  split.
  - apply Forall_map, Forall_forall. intros p Hp.
    rewrite Forall_forall in Hf. split; [apply strip_idempotent |].
    split.
    + intros Hin. apply (Hf p Hp). now apply strip_elem.
    + apply (contains_trans _ p); [apply contains_strip_of |].
      rewrite <- (join_split [","%char] reply) by discriminate.
      now apply contains_join.
  - now intros ->.
Qed.

(** ** The snapshot an analysis leaves *)

Section SnapshotMore.
Import Persistence Retrieval Indexing.
Context {C : Collaborators}.

Lemma write_writable w w1 path f p :
  f <> Directory -> OS.write w path f = Ok w1 ->
  OS.writable w p -> OS.writable w1 p.
Proof.
  intros Hf Hw [Hd Hdir]. unfold OS.write in Hw.
  destruct (write_denied w path); [discriminate |].
  assert (Hw1 : w1 = set_files (<[path := f]> (files w)) w)
    by (destruct (files w !! path) as [[]|]; congruence).
  subst w1. split; [exact Hd |]. simpl.
  destruct (decide (p = path)) as [-> |].
  - rewrite lookup_insert_eq. congruence.
  - now rewrite lookup_insert_ne.
Qed.

Lemma save_index_writable e w n p :
  OS.writable w p -> OS.writable (_save_index e w n) p.
Proof.
  intros Hp. unfold _save_index.
  destruct (faiss_index e) as [ix|]; [| exact Hp].
  destruct (len (chunks e) =? 0); [exact Hp |].
  destruct (_get_index_path e n) as [fp mp].
  destruct (OS.write w fp _) as [w1|] eqn:Hw1; [| exact Hp].
  assert (Hp1 : OS.writable w1 p)
    by (eapply write_writable; [| exact Hw1 | exact Hp]; discriminate).
  destruct (OS.write w1 mp _) as [w2|] eqn:Hw2; [| exact Hp1].
  eapply write_writable; [| exact Hw2 | exact Hp1]. discriminate.
Qed.

(** A save the system accepts is read back by a load on the same
    directory. *)
Lemma save_index_loads e e0 w n ix :
  faiss_index e = Some ix ->
  chunks e <> [] ->
  OS.writable w (fst (_get_index_path e n)) ->
  OS.writable w (snd (_get_index_path e n)) ->
  index_dir e0 = index_dir e ->
  _load_index e0 (_save_index e w n) n
  = (true, mkEngine (chunks e) (index_dir e0) (Some ix) (index_to_chunk_map e)).
Proof.
  intros Hix Hcs Hw1 Hw2 Hdir.
  pose proof (index_paths_distinct e n) as Hne.
  unfold _save_index, _load_index.
  rewrite (load_index_same_dir e e0 n Hdir), Hix.
  destruct (_get_index_path e n) as [fp mp]. simpl in Hw1, Hw2, Hne.
  assert (Hlen : (len (chunks e) =? 0) = false).
  { apply Z.eqb_neq. unfold len. destruct (chunks e); [easy | simpl; lia]. }
  rewrite Hlen, (write_ok w fp) by assumption.
  rewrite write_ok.
  2:{ destruct Hw2 as [Hd Hdir2]. split; [exact Hd |]. simpl.
      now rewrite lookup_insert_ne. }
  unfold OS.exists_, OS.read_index, OS.pickle_load. simpl.
  rewrite lookup_insert_eq.
  rewrite lookup_insert_ne by congruence. rewrite lookup_insert_eq.
  rewrite !bool_decide_eq_true_2 by eauto. reflexivity.
Qed.

Lemma add_to_faiss_index_dir e arr idxs e' :
  _add_to_faiss_index e arr idxs = Ok e' -> index_dir e' = index_dir e.
Proof.
  unfold _add_to_faiss_index, faiss_add.
  destruct (faiss_index e) as [ix|] eqn:Hix; simpl; rewrite ?Hix;
    destruct (Nat.eqb _ _); try discriminate;
    cbv beta iota delta [mbind result_bind]; now intros [= <-].
Qed.

Lemma add_and_save_world e w embs idxs n e' w' :
  add_and_save e w embs idxs true n = Ok (e', w') ->
  w' = _save_index e' w n /\ index_dir e' = index_dir e.
Proof.
  unfold add_and_save. destruct embs as [|v vs].
  - cbv beta iota delta [mbind result_bind]. now intros [= <- <-].
  - destruct (np_array (v :: vs)) as [arr|]; [| discriminate].
    cbv beta iota delta [mbind result_bind].
    destruct (_add_to_faiss_index e arr idxs) as [e1|] eqn:Ha; [| discriminate].
    intros [= <- <-]. split; [reflexivity |].
    now apply add_to_faiss_index_dir in Ha.
Qed.

Lemma index_resume_with_faiss_world e w resume_text n e1 w1 :
  index_resume_with_faiss e w resume_text true n = Ok (e1, w1) ->
  w1 = _save_index e1 w n /\ index_dir e1 = index_dir e.
Proof.
  unfold index_resume_with_faiss.
  destruct (foldM _ (Sections._detect_sections resume_text) _)
    as [[[e0 embs] idxs]|] eqn:Hloop; [| discriminate].
  cbv beta iota delta [mbind result_bind]. intros Hadd.
  apply add_and_save_world in Hadd as [-> Hd]. split; [reflexivity |].
  rewrite Hd.
  assert (Ha : appended (lit "resume") (clear_index e, [], []) (e0, embs, idxs)).
  { revert Hloop. apply foldM_appended.
    intros st [section_name section_text] st1 _.
    apply embed_loop_appended, chunk_text_source. }
  destruct Ha as (cs & vs & _ & _ & Hdir & _). exact Hdir.
Qed.

Lemma index_job_description_with_faiss_world e w jd_text n e1 w1 :
  index_job_description_with_faiss e w jd_text true n = Ok (e1, w1) ->
  w1 = _save_index e1 w n /\ index_dir e1 = index_dir e.
Proof.
  unfold index_job_description_with_faiss.
  destruct (foldM _ _ _) as [[[e0 embs] idxs]|] eqn:Hloop; [| discriminate].
  cbv beta iota delta [mbind result_bind]. intros Hadd.
  apply add_and_save_world in Hadd as [-> Hd]. split; [reflexivity |].
  rewrite Hd.
  assert (Ha : appended (lit "job_description") (e, [], []) (e0, embs, idxs)).
  { revert Hloop. apply embed_loop_appended, chunk_text_source. }
  destruct Ha as (cs & vs & _ & _ & Hdir & _). exact Hdir.
Qed.

(** The last save of the indexing steps is made before the rules are
    indexed. *)
Lemma index_documents_world e w resume_text job_description n e' w' :
  index_documents e w resume_text job_description n = Ok (e', w') ->
  exists e2 w0 rules,
    aligned e2
    /\ w' = _save_index e2 w0 n
    /\ index_dir e2 = index_dir e
    /\ (forall p, OS.writable w p -> OS.writable w0 p)
    /\ chunks e' = chunks e2 ++ rules
    /\ Forall (fun c => source c = lit "ats_rules") rules
    /\ length rules = 5%nat
    /\ faiss_index e' = faiss_index e2
    /\ index_to_chunk_map e' = index_to_chunk_map e2.
Proof.
  unfold index_documents.
  destruct (index_resume_with_faiss _ _ _ _ _) as [[e1 w1]|] eqn:H1;
    [| discriminate].
  cbv beta iota delta [mbind result_bind].
  pose proof (index_resume_with_faiss_aligned _ _ _ _ _ _ _ H1) as Hal1.
  apply index_resume_with_faiss_world in H1 as [-> Hd1]. simpl in Hd1.
  destruct (truthy_opt job_description).
  - destruct (index_job_description_with_faiss _ _ _ _ _) as [[e2 w2]|] eqn:H2;
      [| discriminate].
    pose proof (index_job_description_with_faiss_aligned _ _ _ _ _ _ _ Hal1 H2)
      as Hal2.
    apply index_job_description_with_faiss_world in H2 as [-> Hd2].
    destruct (index_ats_rules e2) as [e3|] eqn:H3; [| discriminate].
    intros [= <- <-].
    apply index_ats_rules_spec in H3 as (rules & Hc & Hs & Hf & Hm & Hl).
    exists e2, (_save_index e1 w n), rules.
    split; [assumption |]. split; [reflexivity |].
    split; [congruence |].
    split; [intros p; apply save_index_writable |]. auto.
  - destruct (index_ats_rules e1) as [e3|] eqn:H3; [| discriminate].
    intros [= <- <-].
    apply index_ats_rules_spec in H3 as (rules & Hc & Hs & Hf & Hm & Hl).
    exists e1, w, rules.
    split; [assumption |]. split; [reflexivity |].
    split; [assumption |]. split; [auto |]. auto.
Qed.

End SnapshotMore.

(** X27. The snapshot [analyze_with_rag_faiss] leaves on disk is taken
    before the rules are indexed. When the analysis returns with a vector
    in the index and the system accepts writes to the two files of the
    name, a load of the name the verdict reports, by any engine on the
    same directory, returns [True] and gives the index and the mapping of
    the analysing engine, and its chunks without the five chunks of the
    rules: five chunks fewer than [total_chunks_indexed] reports. *)
Theorem analysis_snapshot_lacks_rules `{C : Collaborators}
    (e e0 : engine) (w : world) (resume_text : str)
    (job_description index_name : option str)
    (a : Indexing.analysis) (e' : engine) (w' : world) :
  Indexing.analyze_with_rag_faiss e w resume_text job_description index_name
  = Ok (a, e', w') ->
  0 < stored e' ->
  OS.writable w
    (fst (Persistence._get_index_path e (Indexing.faiss_index_name a))) ->
  OS.writable w
    (snd (Persistence._get_index_path e (Indexing.faiss_index_name a))) ->
  index_dir e0 = index_dir e ->
  exists e'' rules,
    Persistence._load_index e0 w' (Indexing.faiss_index_name a) = (true, e'')
    /\ chunks e' = chunks e'' ++ rules
    /\ length rules = 5%nat
    /\ Forall (fun c => source c = lit "ats_rules") rules
    /\ Forall (fun c => source c <> lit "ats_rules") (chunks e'')
    /\ faiss_index e'' = faiss_index e'
    /\ index_to_chunk_map e'' = index_to_chunk_map e'
    /\ Indexing.total_chunks_indexed a = len (chunks e'') + 5.
Proof.
  intros H Hst Hw1 Hw2 Hdir.
  apply analyze_with_rag_faiss_engine in H as [H Hn].
  apply index_documents_world in H
    as (e2 & w0 & rules & (Hal & Hmap & Hsrc) & -> & Hd2 & Hwr & Hc & Hs & Hl
        & Hf & Hm).
  assert (Hp : Persistence._get_index_path e2 (Indexing.faiss_index_name a)
               = Persistence._get_index_path e (Indexing.faiss_index_name a))
    by (now apply load_index_same_dir).
  unfold stored in Hst, Hal. rewrite Hf in Hst.
  destruct (faiss_index e2) as [ix|] eqn:Hix; [| lia].
  assert (Hne : chunks e2 <> []).
  { intros Hnil. rewrite Hnil in Hal. unfold len in Hal. simpl in Hal. lia. }
  exists (mkEngine (chunks e2) (index_dir e0) (Some ix) (index_to_chunk_map e2)),
         rules.
  split.
  { apply save_index_loads; try assumption.
    - rewrite Hp. now apply Hwr.
    - rewrite Hp. now apply Hwr.
    - congruence. }
  split; [exact Hc |]. split; [exact Hl |]. split; [exact Hs |].
  split.
  { simpl. eapply Forall_impl; [exact Hsrc |]. simpl.
    intros c [Hr | Hr]; rewrite Hr; discriminate. }
  split; [simpl; congruence |]. split; [simpl; congruence |].
  rewrite Hn, Hc, len_app. simpl. unfold len at 2. rewrite Hl. reflexivity.
Qed.

(** An instance of X27: a resume of one section, an empty file system
    that refuses nothing. *)
Lemma analysis_snapshot_lacks_rules_witness :
  let C := constant_collaborators unit_embedding in
  let e := mkEngine [] (lit "faiss_indexes") None ∅ in
  let w := mkWorld ∅ (fun _ => false) (fun _ => false)
             (lit "2024-01-01T00:00:00") (lit "20240101_000000") in
  exists a e' w',
    (Indexing.analyze_with_rag_faiss e w (lit "Skills\nPython, Go") None
       (Some (lit "s1")) = Ok (a, e', w')
     /\ 0 < stored e'
     /\ OS.writable w
          (fst (Persistence._get_index_path e (Indexing.faiss_index_name a)))
     /\ OS.writable w
          (snd (Persistence._get_index_path e (Indexing.faiss_index_name a)))
     /\ index_dir e = index_dir e)
    /\ exists e'' rules,
         Persistence._load_index e w' (Indexing.faiss_index_name a)
         = (true, e'')
         /\ chunks e' = chunks e'' ++ rules
         /\ length rules = 5%nat
         /\ Forall (fun c => source c = lit "ats_rules") rules
         /\ Forall (fun c => source c <> lit "ats_rules") (chunks e'')
         /\ faiss_index e'' = faiss_index e'
         /\ index_to_chunk_map e'' = index_to_chunk_map e'
         /\ Indexing.total_chunks_indexed a = len (chunks e'') + 5.
Proof.
  intros C e w. eexists. eexists. eexists.
  assert (H : Indexing.analyze_with_rag_faiss e w (lit "Skills\nPython, Go")
                None (Some (lit "s1")) = Ok (_, _, _))
    by (vm_compute; reflexivity).
  match type of H with
  | _ = Ok (?a1, ?e1, _) =>
      assert (H1 : 0 < stored e1) by (vm_compute; reflexivity);
      assert (H2 : OS.writable w
                     (fst (Persistence._get_index_path e
                             (Indexing.faiss_index_name a1))))
        by (split; [reflexivity |]; simpl; rewrite lookup_empty; discriminate);
      assert (H3 : OS.writable w
                     (snd (Persistence._get_index_path e
                             (Indexing.faiss_index_name a1))))
        by (split; [reflexivity |]; simpl; rewrite lookup_empty; discriminate)
  end.
  assert (H4 : index_dir e = index_dir e) by reflexivity.
  split; [exact (conj H (conj H1 (conj H2 (conj H3 H4)))) |].
  exact (analysis_snapshot_lacks_rules e e w _ None (Some (lit "s1")) _ _ _
           H H1 H2 H3 H4).
Defined.

(** ** The cleanup script *)

Section CleanupFacts.
Import Cleanup.

Lemma filter_and {A} (p q : A -> bool) l :
  List.filter p (List.filter q l) = List.filter (fun x => q x && p x) l.
Proof.
  induction l as [|x l IH]; [reflexivity |]. cbn [List.filter].
  destruct (q x); cbn [List.filter andb]; [destruct (p x) |]; now rewrite IH.
Qed.

Lemma filter_id {A} (p : A -> bool) l :
  (forall x, In x l -> p x = true) -> List.filter p l = l.
Proof.
  induction l as [|x l IH]; intros H; [reflexivity |]. cbn [List.filter].
  rewrite (H x) by now left. f_equal. apply IH. intros y Hy. apply H. now right.
Qed.

Lemma filter_complement_length {A} (p : A -> bool) l :
  len (List.filter p l) = len l - len (List.filter (fun x => negb (p x)) l).
Proof.
  unfold len. induction l as [|x l IH]; [reflexivity |]. cbn [List.filter].
  destruct (p x); cbn [negb length]; lia.
Qed.

Lemma filter_nil_existsb {A} (p : A -> bool) l :
  List.filter p l = [] <-> existsb p l = false.
Proof.
  induction l as [|x l IH]; [easy |]. cbn [List.filter existsb].
  destruct (p x); [easy | exact IH].
Qed.

Lemma filter_sublist {A} (p : A -> bool) l : sublist (List.filter p l) l.
Proof.
  induction l as [|x l IH]; [constructor |]. cbn [List.filter].
  destruct (p x); now constructor.
Qed.

(** In a directory an entry is known by its name. *)
Lemma entry_by_name dir f g :
  NoDup (map name dir) -> In f dir -> In g dir -> name f = name g -> f = g.
Proof.
  induction dir as [|x l IH]; [easy |]. cbn [map].
  rewrite NoDup_cons. intros [Hx Hl] [<- | Hf] [<- | Hg] Hn.
  - reflexivity.
  - exfalso. apply Hx. rewrite Hn. apply list_elem_of_In. now apply in_map.
  - exfalso. apply Hx. rewrite <- Hn. apply list_elem_of_In. now apply in_map.
  - now apply IH.
Qed.

(** The loop of [clean_uploads] unlinks the removable entries of its
    list and counts them. *)
Lemma uploads_loop_spec files k dir :
  uploads_loop files k dir
  = (k + len (List.filter removable files),
     List.filter
       (fun g => negb (bool_decide
                         (name g ∈ map name (List.filter removable files))))
       dir).
Proof.
  revert k dir. induction files as [|f files IH]; intros k dir.
  - cbn [uploads_loop List.filter map]. unfold len. cbn [length].
    rewrite Z.add_0_r. f_equal. symmetry. apply filter_id.
    intros x _. now rewrite bool_decide_eq_false_2 by apply not_elem_of_nil.
  - cbn [uploads_loop List.filter]. unfold unlink.
    destruct (is_file f) eqn:Hf.
    2:{ assert (Hr : removable f = false)
          by (unfold removable; now rewrite Hf).
        rewrite Hr. apply IH. }
    destruct (unlink_denied f) eqn:Hd.
    { assert (Hr : removable f = false)
        by (unfold removable; now rewrite Hf, Hd).
      rewrite Hr. apply IH. }
    assert (Hr : removable f = true)
      by (unfold removable; now rewrite Hf, Hd).
    rewrite Hr, IH. cbn [map]. unfold len. cbn [length]. f_equal; [lia |].
    rewrite filter_and. apply filter_ext. intros g.
    destruct (decide (name g = name f)) as [Hn | Hn].
    + rewrite (bool_decide_eq_true_2 _ Hn). cbn [negb andb].
      rewrite bool_decide_eq_true_2; [reflexivity |]. rewrite Hn. left.
    + rewrite (bool_decide_eq_false_2 _ Hn). cbn [negb andb].
      f_equal. apply bool_decide_ext. rewrite elem_of_cons.
      split; [now right |]. intros [? | ?]; [congruence | assumption].
Qed.

(** The loop of [clean_logs] unlinks every entry of its list that
    [unlink()] removes, file or not, and counts them. *)
Lemma logs_loop_spec files k dir :
  logs_loop files k dir
  = (k + len (List.filter unlinkable files),
     List.filter
       (fun g => negb (bool_decide
                         (name g ∈ map name (List.filter unlinkable files))))
       dir).
Proof.
  revert k dir. induction files as [|f files IH]; intros k dir.
  - cbn [logs_loop List.filter map]. unfold len. cbn [length].
    rewrite Z.add_0_r. f_equal. symmetry. apply filter_id.
    intros x _. now rewrite bool_decide_eq_false_2 by apply not_elem_of_nil.
  - cbn [logs_loop List.filter]. unfold unlink.
    destruct (unlink_denied f) eqn:Hd.
    { assert (Hr : unlinkable f = false)
        by (unfold unlinkable; now rewrite Hd).
      rewrite Hr. apply IH. }
    assert (Hr : unlinkable f = true)
      by (unfold unlinkable; now rewrite Hd).
    rewrite Hr, IH. cbn [map]. unfold len. cbn [length]. f_equal; [lia |].
    rewrite filter_and. apply filter_ext. intros g.
    destruct (decide (name g = name f)) as [Hn | Hn].
    + rewrite (bool_decide_eq_true_2 _ Hn). cbn [negb andb].
      rewrite bool_decide_eq_true_2; [reflexivity |]. rewrite Hn. left.
    + rewrite (bool_decide_eq_false_2 _ Hn). cbn [negb andb].
      f_equal. apply bool_decide_ext. rewrite elem_of_cons.
      split; [now right |]. intros [? | ?]; [congruence | assumption].
Qed.

(** Unlinking, among the candidates of a directory, the entries a
    predicate picks leaves the entries that are not picked candidates. *)
Lemma removed_by_name (cand rm : entry -> bool) dir :
  NoDup (map name dir) ->
  (0 + len (List.filter rm (List.filter cand dir)),
   List.filter
     (fun g => negb (bool_decide
                       (name g ∈ map name
                                   (List.filter rm (List.filter cand dir)))))
     dir)
  = (len dir - len (List.filter (fun g => negb (cand g && rm g)) dir),
     List.filter (fun g => negb (cand g && rm g)) dir).
Proof.
  intros Hnd. rewrite filter_and, Z.add_0_l.
  f_equal; [apply filter_complement_length |].
  apply filter_ext_in. intros g Hg. f_equal.
  apply eq_true_iff_eq.
  rewrite bool_decide_eq_true, list_elem_of_In, in_map_iff. split.
  - intros (g' & Hn & Hg'). apply filter_In in Hg' as [Hin Hc].
    now rewrite <- (entry_by_name dir g' g Hnd Hin Hg Hn).
  - intros Hc. exists g. split; [reflexivity |]. now apply filter_In.
Qed.

Lemma uploads_loop_candidates (cand : entry -> bool) dir :
  NoDup (map name dir) ->
  uploads_loop (List.filter cand dir) 0 dir
  = (len dir
     - len (List.filter (fun g => negb (cand g && removable g)) dir),
     List.filter (fun g => negb (cand g && removable g)) dir).
Proof. intros Hnd. rewrite uploads_loop_spec. now apply removed_by_name. Qed.

Lemma logs_loop_candidates (cand : entry -> bool) dir :
  NoDup (map name dir) ->
  logs_loop (List.filter cand dir) 0 dir
  = (len dir
     - len (List.filter (fun g => negb (cand g && unlinkable g)) dir),
     List.filter (fun g => negb (cand g && unlinkable g)) dir).
Proof. intros Hnd. rewrite logs_loop_spec. now apply removed_by_name. Qed.

Lemma upload_files_candidates days_old dir :
  (if 0 <? days_old
   then List.filter (fun f => is_file f && (days_old <=? age_days f)) dir
   else dir)
  = List.filter (upload_candidate days_old) dir.
Proof.
  unfold upload_candidate. destruct (0 <? days_old); [reflexivity |].
  symmetry. now apply filter_id.
Qed.

Lemma log_files_candidates days_old dir :
  List.filter (fun f => days_old <=? age_days f) (glob_log dir)
  = List.filter (log_candidate days_old) dir.
Proof. unfold glob_log, log_candidate. apply filter_and. Qed.

(** What [clean_uploads] does to a directory that exists. *)
Lemma clean_uploads_spec force days_old dir stdin :
  NoDup (map name dir) ->
  let asked := negb force && existsb (upload_candidate days_old) dir in
  let dir' :=
    if force || answer stdin
    then List.filter
           (fun g => negb (upload_candidate days_old g && removable g)) dir
    else dir in
  clean_uploads force days_old (Some dir) stdin
  = (reported asked stdin (len dir - len dir'),
     Some dir',
     if asked then tail stdin else stdin).
Proof.
  intros Hnd. cbv zeta. unfold clean_uploads.
  destruct dir as [|f0 dir0] eqn:Hdir.
  { cbn [existsb List.filter]. rewrite andb_false_r.
    now destruct (force || answer stdin). }
  rewrite <- Hdir in *. clear Hdir f0 dir0.
  rewrite upload_files_candidates.
  destruct (List.filter (upload_candidate days_old) dir) as [|c cs] eqn:Hfiles.
  - pose proof (proj1 (filter_nil_existsb _ _) Hfiles) as Hex.
    rewrite Hex, andb_false_r.
    assert (Hsame : List.filter
                      (fun g => negb (upload_candidate days_old g && removable g))
                      dir = dir).
    { apply filter_id. intros x Hx.
      destruct (upload_candidate days_old x) eqn:Hc; [| reflexivity].
      exfalso. assert (Hin : In x []) by (rewrite <- Hfiles; now apply filter_In).
      exact Hin. }
    rewrite Hsame. unfold reported.
    destruct (force || answer stdin); now rewrite Z.sub_diag.
  - assert (Hex : existsb (upload_candidate days_old) dir = true).
    { destruct (existsb _ dir) eqn:Hex; [reflexivity |].
      apply filter_nil_existsb in Hex. congruence. }
    rewrite Hex, andb_true_r, <- Hfiles, (uploads_loop_candidates _ _ Hnd).
    unfold reported, input, answer.
    destruct force; cbn [negb orb]; [reflexivity |].
    destruct stdin as [|line rest]; [reflexivity |].
    cbn [tail]. destruct (confirmed line); [reflexivity |].
    now rewrite Z.sub_diag.
Qed.

(** What [clean_logs] does to a directory that exists. *)
Lemma clean_logs_spec force days_old dir stdin :
  NoDup (map name dir) ->
  let asked := negb force && existsb (log_candidate days_old) dir in
  let dir' :=
    if force || answer stdin
    then List.filter
           (fun g => negb (log_candidate days_old g && unlinkable g)) dir
    else dir in
  clean_logs force days_old (Some dir) stdin
  = (reported asked stdin (len dir - len dir'),
     Some dir',
     if asked then tail stdin else stdin).
Proof.
  intros Hnd. cbv zeta. unfold clean_logs.
  pose proof (log_files_candidates days_old dir) as Hold.
  destruct (glob_log dir) as [|g0 gs] eqn:Hglob.
  - cbn [List.filter] in Hold. symmetry in Hold.
    pose proof (proj1 (filter_nil_existsb _ _) Hold) as Hex.
    rewrite Hex, andb_false_r.
    assert (Hsame : List.filter
                      (fun g => negb (log_candidate days_old g && unlinkable g))
                      dir = dir).
    { apply filter_id. intros x Hx.
      destruct (log_candidate days_old x) eqn:Hc; [| reflexivity].
      exfalso. assert (Hin : In x []) by (rewrite <- Hold; now apply filter_In).
      exact Hin. }
    rewrite Hsame. unfold reported.
    destruct (force || answer stdin); now rewrite Z.sub_diag.
  - rewrite Hold.
    destruct (List.filter (log_candidate days_old) dir) as [|c cs] eqn:Hfiles.
    + pose proof (proj1 (filter_nil_existsb _ _) Hfiles) as Hex.
      rewrite Hex, andb_false_r.
      assert (Hsame : List.filter
                        (fun g => negb (log_candidate days_old g && unlinkable g))
                        dir = dir).
      { apply filter_id. intros x Hx.
        destruct (log_candidate days_old x) eqn:Hc; [| reflexivity].
        exfalso.
        assert (Hin : In x []) by (rewrite <- Hfiles; now apply filter_In).
        exact Hin. }
      rewrite Hsame. unfold reported.
      destruct (force || answer stdin); now rewrite Z.sub_diag.
    + assert (Hex : existsb (log_candidate days_old) dir = true).
      { destruct (existsb _ dir) eqn:Hex; [reflexivity |].
        apply filter_nil_existsb in Hex. congruence. }
      rewrite Hex, andb_true_r, <- Hfiles, (logs_loop_candidates _ _ Hnd).
      unfold reported, input, answer.
      destruct force; cbn [negb orb]; [reflexivity |].
      destruct stdin as [|line rest]; [reflexivity |].
      cbn [tail]. destruct (confirmed line); [reflexivity |].
      now rewrite Z.sub_diag.
Qed.

Lemma reported_some asked stdin n m : reported asked stdin n = Some m -> m = n.
Proof.
  unfold reported. destruct asked; [destruct stdin |]; congruence.
Qed.

(** The value returned is the number of entries that are gone. *)
Lemma clean_uploads_count force days_old d stdin n d' stdin' :
  distinct_names d ->
  clean_uploads force days_old d stdin = (Some n, d', stdin') ->
  n = entries d - entries d'.
Proof.
  destruct d as [dir|]; [| now intros _ [= <- <- _]].
  intros Hnd. rewrite (clean_uploads_spec _ _ _ _ Hnd).
  intros [= Hr <- _]. now apply reported_some in Hr.
Qed.

Lemma clean_logs_count force days_old d stdin n d' stdin' :
  distinct_names d ->
  clean_logs force days_old d stdin = (Some n, d', stdin') ->
  n = entries d - entries d'.
Proof.
  destruct d as [dir|]; [| now intros _ [= <- <- _]].
  intros Hnd. rewrite (clean_logs_spec _ _ _ _ Hnd).
  intros [= Hr <- _]. now apply reported_some in Hr.
Qed.

(** The consequences of the two descriptions that do not depend on
    which entries the script is after, nor on which it can delete. *)
Lemma cleaning_effect (cand rm : entry -> bool) force dir stdin ret left
    stdin' :
  let asked := negb force && existsb cand dir in
  let dir' :=
    if force || answer stdin
    then List.filter (fun g => negb (cand g && rm g)) dir
    else dir in
  (reported asked stdin (len dir - len dir'), Some dir',
   if asked then tail stdin else stdin) = (ret, left, stdin') ->
  exists dir',
    left = Some dir'
    /\ sublist dir' dir
    /\ (forall f, In f dir -> ~ In f dir' ->
          cand f = true /\ rm f = true
          /\ (force = true
              \/ exists line, stdin = line :: stdin' /\ confirmed line = true))
    /\ (forall n, ret = Some n -> n = len dir - len dir')
    /\ (ret = None -> force = false /\ stdin = [] /\ dir' = dir)
    /\ (force = true \/ answer stdin = true ->
        forall f, In f dir' -> cand f && rm f = false)
    /\ (force = false -> answer stdin = false -> dir' = dir).
Proof.
  cbv zeta. intros [= <- <- <-]. eexists. split; [reflexivity |].
  split; [destruct (force || answer stdin); [apply filter_sublist | reflexivity] |].
  split.
  { intros f Hf Hnot. destruct (force || answer stdin) eqn:Hgo;
      [| contradiction].
    destruct (cand f && rm f) eqn:Hc.
    2:{ exfalso. apply Hnot. apply filter_In. now rewrite Hc. }
    apply andb_true_iff in Hc as [Hc Hr].
    repeat (split; [assumption |]).
    destruct force; [now left | right]. cbn [orb negb andb] in *.
    assert (Hex : existsb cand dir = true)
      by (apply existsb_exists; now exists f).
    rewrite Hex. destruct stdin as [|line rest]; [discriminate |].
    now exists line. }
  split; [intros n Hn; now apply reported_some in Hn |].
  split.
  { unfold reported. destruct force; cbn [negb andb orb];
      [discriminate |].
    destruct (existsb cand dir); [| discriminate].
    destruct stdin; [now intros _ | discriminate]. }
  split.
  { intros Hgo f. assert (Hgo' : force || answer stdin = true)
      by (destruct Hgo as [-> | ->]; [reflexivity | apply orb_true_r]).
    rewrite Hgo'. intros Hf. apply filter_In in Hf as [_ Hf].
    now apply negb_true_iff in Hf. }
  now intros -> ->.
Qed.

End CleanupFacts.

(** X28. [clean_uploads] on a directory that exists. The entries left
    are entries that were there, in their order. An entry is gone only if
    it is a file the system lets go, of the age asked for when a bound
    above zero is given, and only with [force] or after the answer yes or
    y, in any case and with blanks around it; with [force] or that answer
    every such entry is gone. The value returned is the number of
    entries that are gone. [None], the script dying of [EOFError], is
    returned only without [force] when the standard input is at its end,
    and nothing is deleted then. *)
Theorem clean_uploads_effect (force : bool) (days_old : Z)
    (dir : list Cleanup.entry) (stdin : list str)
    (ret : option Z) (left : Cleanup.directory) (stdin' : list str) :
  NoDup (map Cleanup.name dir) ->
  Cleanup.clean_uploads force days_old (Some dir) stdin = (ret, left, stdin') ->
  exists dir',
    left = Some dir'
    /\ sublist dir' dir
    /\ (forall f, In f dir -> ~ In f dir' ->
          Cleanup.upload_candidate days_old f = true
          /\ Cleanup.is_file f = true /\ Cleanup.unlink_denied f = false
          /\ (force = true
              \/ exists line, stdin = line :: stdin'
                              /\ Cleanup.confirmed line = true))
    /\ (forall n, ret = Some n -> n = len dir - len dir')
    /\ (ret = None -> force = false /\ stdin = [] /\ dir' = dir)
    /\ (force = true \/ Cleanup.answer stdin = true ->
        forall f, In f dir' ->
          Cleanup.upload_candidate days_old f && Cleanup.removable f = false)
    /\ (force = false -> Cleanup.answer stdin = false -> dir' = dir).
Proof.
  intros Hnd Hrun. rewrite (clean_uploads_spec _ _ _ _ Hnd) in Hrun.
  destruct (cleaning_effect _ _ _ _ _ _ _ _ Hrun)
    as (dir' & H1 & H2 & H3 & H4 & H5 & H6 & H7).
  exists dir'. split; [exact H1 |]. split; [exact H2 |].
  split; [| auto].
  intros f Hf Hnot. destruct (H3 f Hf Hnot) as (Hc & Hr & Hrest).
  unfold Cleanup.removable in Hr. apply andb_true_iff in Hr as [Hfile Hden].
  apply negb_true_iff in Hden. auto.
Qed.

(** An instance of X28: an old file, a young file and a directory,
    cleaned with [force] for files of seven days and more. *)
Lemma clean_uploads_effect_witness :
  let old := Cleanup.mkEntry (lit "a.pdf") true 9 false in
  let young := Cleanup.mkEntry (lit "b.pdf") true 2 false in
  let sub := Cleanup.mkEntry (lit "tmp") false 30 true in
  let dir := [old; young; sub] in
  (NoDup (map Cleanup.name dir)
   /\ Cleanup.clean_uploads true 7 (Some dir) [] = (Some 1, Some [young; sub], []))
  /\ exists dir',
       Some [young; sub] = Some dir'
       /\ sublist dir' dir
       /\ (forall f, In f dir -> ~ In f dir' ->
             Cleanup.upload_candidate 7 f = true
             /\ Cleanup.is_file f = true /\ Cleanup.unlink_denied f = false
             /\ (true = true
                 \/ exists line, [] = line :: []
                                 /\ Cleanup.confirmed line = true))
       /\ (forall n, Some 1 = Some n -> n = len dir - len dir')
       /\ (Some 1 = None -> true = false /\ @nil str = [] /\ dir' = dir)
       /\ (true = true \/ Cleanup.answer [] = true ->
           forall f, In f dir' ->
             Cleanup.upload_candidate 7 f && Cleanup.removable f = false)
       /\ (true = false -> Cleanup.answer [] = false -> dir' = dir).
Proof.
  intros old young sub dir.
  assert (H1 : NoDup (map Cleanup.name dir)).
  { apply NoDup_ListNoDup. repeat (constructor; [simpl; intuition discriminate |]).
    constructor. }
  assert (H2 : Cleanup.clean_uploads true 7 (Some dir) []
               = (Some 1, Some [young; sub], [])) by reflexivity.
  split; [exact (conj H1 H2) |].
  exact (clean_uploads_effect true 7 dir [] (Some 1) (Some [young; sub]) []
           H1 H2).
Defined.



(** X30. When [main] comes to its end, the total it reports is the
    number of entries that are gone from the two directories. With
    [--logs-only] the uploads are as they were, with [--uploads-only] the
    logs; and with both options at once the script deletes nothing, asks
    nothing and reports zero. *)
Theorem main_reports_deletions (a : Cleanup.args) (s s' : Cleanup.system)
    (total : Z) :
  Cleanup.distinct_names (Cleanup.uploads s) ->
  Cleanup.distinct_names (Cleanup.logs s) ->
  Cleanup.main a s = (Some total, s') ->
  total = (Cleanup.entries (Cleanup.uploads s)
           - Cleanup.entries (Cleanup.uploads s'))
          + (Cleanup.entries (Cleanup.logs s)
             - Cleanup.entries (Cleanup.logs s'))
  /\ (Cleanup.logs_only a = true -> Cleanup.uploads s' = Cleanup.uploads s)
  /\ (Cleanup.uploads_only a = true -> Cleanup.logs s' = Cleanup.logs s)
  /\ (Cleanup.uploads_only a = true -> Cleanup.logs_only a = true ->
      s' = s /\ total = 0).
Proof.
  intros Hu Hl. unfold Cleanup.main.
  destruct (Cleanup.logs_only a), (Cleanup.uploads_only a); cbn [negb].
  - intros [= <- <-]. repeat split; lia.
  - destruct (Cleanup.clean_logs _ _ _ _) as [[[n2|] d2] i2] eqn:H2;
      [| discriminate].
    intros [= <- <-]. cbn [Cleanup.uploads Cleanup.logs].
    apply clean_logs_count in H2; [| exact Hl].
    repeat split; intros; try discriminate; try reflexivity; lia.
  - destruct (Cleanup.clean_uploads _ _ _ _) as [[[n1|] d1] i1] eqn:H1;
      [| discriminate].
    intros [= <- <-]. cbn [Cleanup.uploads Cleanup.logs].
    apply clean_uploads_count in H1; [| exact Hu].
    repeat split; intros; try discriminate; try reflexivity; lia.
  - destruct (Cleanup.clean_uploads _ _ _ _) as [[[n1|] d1] i1] eqn:H1;
      [| discriminate].
    cbn [Cleanup.uploads Cleanup.logs Cleanup.stdin].
    destruct (Cleanup.clean_logs _ _ _ _) as [[[n2|] d2] i2] eqn:H2;
      [| discriminate].
    intros [= <- <-]. cbn [Cleanup.uploads Cleanup.logs].
    apply clean_uploads_count in H1; [| exact Hu].
    apply clean_logs_count in H2; [| exact Hl].
    repeat split; intros; try discriminate; try reflexivity; lia.
Qed.

(** An instance of X30: both directories cleaned with [force]. *)
Lemma main_reports_deletions_witness :
  let upload := Cleanup.mkEntry (lit "cv.pdf") true 0 false in
  let old := Cleanup.mkEntry (lit "app_2024-01-01.log") true 45 false in
  let young := Cleanup.mkEntry (lit "app_2024-02-20.log") true 3 false in
  let a := Cleanup.mkArgs true false false 0 30 in
  let s := Cleanup.mkSystem (Some [upload]) (Some [old; young]) [] in
  let s' := Cleanup.mkSystem (Some []) (Some [young]) [] in
  (Cleanup.distinct_names (Cleanup.uploads s)
   /\ Cleanup.distinct_names (Cleanup.logs s)
   /\ Cleanup.main a s = (Some 2, s'))
  /\ 2 = (Cleanup.entries (Cleanup.uploads s)
          - Cleanup.entries (Cleanup.uploads s'))
         + (Cleanup.entries (Cleanup.logs s)
            - Cleanup.entries (Cleanup.logs s'))
  /\ (Cleanup.logs_only a = true -> Cleanup.uploads s' = Cleanup.uploads s)
  /\ (Cleanup.uploads_only a = true -> Cleanup.logs s' = Cleanup.logs s)
  /\ (Cleanup.uploads_only a = true -> Cleanup.logs_only a = true ->
      s' = s /\ 2 = 0).
Proof.
  intros upload old young a s s'.
  assert (H1 : Cleanup.distinct_names (Cleanup.uploads s)).
  { apply NoDup_ListNoDup. repeat (constructor; [simpl; intuition discriminate |]).
    constructor. }
  assert (H2 : Cleanup.distinct_names (Cleanup.logs s)).
  { apply NoDup_ListNoDup. repeat (constructor; [simpl; intuition discriminate |]).
    constructor. }
  assert (H3 : Cleanup.main a s = (Some 2, s')) by (vm_compute; reflexivity).
  split; [exact (conj H1 (conj H2 H3)) |].
  exact (main_reports_deletions a s s' 2 H1 H2 H3).
Defined.
